(** * StableMultiDiffusion3Pipeline: region compositing and mask scheduling

    A shallow embedding of [src/model/pipeline_stablemultidiffusion_3.py].
    Tensors are nested lists of rationals: exact arithmetic stands for the
    floating-point numbers of the program, so rounding is not modelled.
    The neural networks, the reference scheduler and the helpers imported
    from [util] are collaborators of the pipeline and are gathered in one
    interface. *)

From Stdlib Require Import QArith Qminmax Qabs Qround ZArith Lia String.
From stdpp Require Import base option list strings pretty.

Local Open Scope Q_scope.

(** ** Scalars *)

Definition Qltb (a b : Q) : bool := (Qnum a * QDen b <? Qnum b * QDen a)%Z.

(** [x.clip_(lo, hi)] *)
Definition clip (lo hi x : Q) : Q := Qmin (Qmax x lo) hi.

(** ** Tensors

    A plane is an (h, w) array, a [latent] one batch element of shape
    (C, h, w); a batch is a list of those. *)

Abbreviation img := (list (list Q)) (only parsing).
Abbreviation latent := (list (list (list Q))) (only parsing).

Definition imap1 (f : Q -> Q) (m : img) : img := fmap (fmap (M:=list) f) m.
Definition imap2 (f : Q -> Q -> Q) (a b : img) : img := zip_with (zip_with f) a b.
Definition lmap1 (f : Q -> Q) (x : latent) : latent := fmap (imap1 f) x.
Definition lmap2 (f : Q -> Q -> Q) (a b : latent) : latent := zip_with (imap2 f) a b.

Definition iadd : img -> img -> img := imap2 Qplus.
Definition ladd : latent -> latent -> latent := lmap2 Qplus.
Definition lscale (s : Q) : latent -> latent := lmap1 (Qmult s).

(** [m * x] for a mask of shape (1, h, w) against (C, h, w). *)
Definition mask_mul (m : img) (x : latent) : latent := fmap (imap2 Qmult m) x.

Definition px (m : img) (y x : nat) : option Q := m !! y ≫= (.!! x).
Definition lpx (l : latent) (c y x : nat) : option Q := l !! c ≫= fun m => px m y x.

Definition zeros_img (h w : nat) : img := replicate h (replicate w 0).
Definition zeros (c h w : nat) : latent := replicate c (zeros_img h w).
Definition ones_img (h w : nat) : img := replicate h (replicate w 1).

(** [t.shape[-2]] and [t.shape[-1]] *)
Definition img_h (m : img) : nat := length m.
Definition img_w (m : img) : nat := from_option length 0%nat (head m).
Definition shape_m2 (l : latent) : nat := from_option img_h 0%nat (head l).
Definition shape_m1 (l : latent) : nat := from_option img_w 0%nat (head l).

(** [t[..., :h, :w]] *)
Definition crop_img (h w : nat) (m : img) : img := fmap (take w) (take h m).
Definition crop (h w : nat) (l : latent) : latent := fmap (crop_img h w) l.

(** ** Python exceptions *)

Inductive py_error : Type :=
  | AssertionError (msg : string)
  | AttributeError (msg : string)
  | NameError (name : string)
  | IndexError
  | TypeError (msg : string)
  | ValueError (msg : string)
  | RuntimeError (msg : string).

Definition result (A : Type) : Type := py_error + A.

#[export] Instance result_ret : MRet result := fun A a => inr a.
#[export] Instance result_bind : MBind result := fun A B f r =>
  match r with
  | inr a => f a
  | inl e => inl e
  end.

(** ** The pipeline object *)

Record pipeline : Type := Pipeline {
  default_mask_std : Q;
  default_mask_strength : Q;
  default_prompt_strength : Q;
  default_t_list : list nat;
  default_bootstrap_steps : Z;
  default_boostrap_mix_steps : Q;
  default_bootstrap_leak_sensitivity : Q;
  default_preprocess_mask_cover_alpha : Q;
  mask_type : string;
  default_num_inference_steps : nat;
  default_guidance_scale : Q;
  vae_scale_factor : positive;
  has_i2t : bool;
  timesteps : list Q;
  sigmas : list Q;
  sigmas_next : list Q;
  noise_lvs : list Q;
  next_noise_lvs : list Q;
  white : option latent;
}.


(** ** Arguments as Python passes them *)

(** [Optional[Union[torch.Tensor, float, List[float]]]] without the
    [None]. *)
Inductive num_arg : Type :=
  | NumScalar (q : Q)
  | NumList (l : list Q)
  | NumTensor (l : list Q).

(** A PIL image, given by the channel planes [T.ToTensor()] reads from it. *)
Abbreviation pil_image := (list (list (list Q))) (only parsing).

Inductive masks_arg : Type :=
  | MaskImage (m : pil_image)
  | MaskList (ms : list pil_image)
  | MaskTensor (t : list img).

Inductive interp_mode : Type := Bilinear | Bicubic | Nearest.

(** A tile of the panorama: (h_start, h_end, w_start, w_end). *)
Definition view : Type := nat * nat * nat * nat.

(** Text embeddings: one row per prompt. *)
Abbreviation embed := (list Q) (only parsing).

(** ** Collaborators

    The networks, the reference scheduler, the random generator, the
    resampling filters of [F.interpolate] and the helpers of [util]. *)
Class Collaborators : Type := {
  (** [self.scheduler.sigmas] and [.timesteps] after [set_timesteps(n)] *)
  scheduler_sigmas : nat -> list Q;
  scheduler_timesteps : nat -> list Q;
  (** [x ** (-0.5)] *)
  pow_neg_half : Q -> Q;
  sigmoid : Q -> Q;
  (** the [k]-th draw of [torch.randn] with shape (1, c, h, w) *)
  randn : nat -> nat -> nat -> nat -> latent;
  (** bilinear and bicubic resampling of one plane to (h, w) *)
  resample : interp_mode -> nat -> nat -> img -> img;
  (** [vae.encode] followed by sampling, at the [k]-th state of the generator *)
  vae_encode : nat -> latent -> latent;
  vae_decode : latent -> latent;
  vae_scaling_factor : Q;
  vae_shift_factor : Q;
  in_channels : nat;
  (** [self.pipe.encode_prompt(prompts, negative_prompts, do_cfg)] *)
  encode_prompt : list string -> list string -> bool ->
    result (list embed * option (list embed) * list embed * option (list embed));
  (** the denoiser on a batch: latents, timestep, token and pooled embeddings *)
  transformer : list latent -> Q -> list embed -> list embed -> result (list latent);
  (** the BLIP-2 captioner behind [get_text_prompts] *)
  i2t_generate : latent -> string;
  (** [util.get_panorama_views(h, w, t)]: tiles and one weight plane per tile *)
  get_panorama_views : nat -> nat -> nat -> list view * list img;
  (** [util.blend(image, background, fg_mask)] *)
  blend : latent -> latent -> img -> latent;
  (** the Gaussian filter of [util.gaussian_lowpass] on one plane *)
  gaussian_kernel : Q -> img -> img;
  (** the roll of [util.shift_to_mask_bbox_center] for one batch element:
      [roll_to_center reverse mask x] *)
  roll_to_center : bool -> img -> latent -> latent;
}.

(** ** Broadcasting along the batch dimension

    Two batch sizes are compatible when they are equal or one of them is 1. *)
Definition bcast2 {A B C : Type} (f : A -> B -> C) (a : list A) (b : list B)
    : result (list C) :=
  if (length a =? length b)%nat then inr (zip_with f a b)
  else match a, b with
       | [x], _ => inr (fmap (f x) b)
       | _, [y] => inr (fmap (fun x => f x y) a)
       | _, _ => inl (RuntimeError "The size of tensor a must match the size of tensor b")
       end.

(** ** [F.interpolate] *)

Definition nearest_index (in_sz out_sz i : nat) : nat :=
  Nat.min (i * in_sz / out_sz) (in_sz - 1).

(** [mode='nearest']: every output pixel copies one input pixel. *)
Definition interpolate_nearest (h w : nat) (m : img) : img :=
  fmap (fun y =>
         let row := default [] (m !! nearest_index (img_h m) h y) in
         fmap (fun x => default 0 (row !! nearest_index (img_w m) w x)) (seq 0 w))
      (seq 0 h).

Definition interpolate `{Collaborators} (mode : interp_mode) (h w : nat) (m : img) : img :=
  match mode with
  | Nearest => interpolate_nearest h w m
  | _ => resample mode h w m
  end.

(** ** Sums over the batch dimension *)

(** [t.sum(dim=0)] of a non-empty stack of planes. *)
Definition isum (ms : list img) : img :=
  match ms with
  | [] => []
  | m :: ms' => foldl iadd m ms'
  end.

(** [t.sum(dim=0)] of a non-empty batch of shape (P, C, h, w). *)
Definition lsum (xs : list latent) : latent :=
  match xs with
  | [] => []
  | x :: xs' => foldl ladd x xs'
  end.

(** ** State and errors

    A call runs in a world made of the pipeline object, the state of the
    random generator (the number of draws made so far) and a log of the
    calls to the networks. An exception keeps the writes made before it. *)

Inductive event : Type :=
  | EvEncode | EvDecode | EvTransformer | EvEncodePrompt | EvCaption.

Record world : Type := World {
  obj : pipeline;
  rng : nat;
  calls : list event;
}.

Definition M (A : Type) : Type := world -> result A * world.

#[export] Instance M_ret : MRet M := fun A a w => (inr a, w).
#[export] Instance M_bind : MBind M := fun A B f m w =>
  match m w with
  | (inr a, w') => f a w'
  | (inl e, w') => (inl e, w')
  end.

Definition raise {A : Type} (e : py_error) : M A := fun w => (inl e, w).
Definition lift {A : Type} (r : result A) : M A := fun w => (r, w).
Definition get_self : M pipeline := fun w => (inr (obj w), w).
Definition update_self (f : pipeline -> pipeline) : M unit :=
  fun w => (inr tt, World (f (obj w)) (rng w) (calls w)).
Definition emit (e : event) : M unit :=
  fun w => (inr tt, World (obj w) (rng w) (calls w ++ [e])).
(** Advance the generator and hand out the index of the draw. *)
Definition draw : M nat :=
  fun w => (inr (rng w), World (obj w) (S (rng w)) (calls w)).

(** [for x in xs: body]: the loop stops at the first exception. *)
Fixpoint for_each {A S : Type} (xs : list A) (body : A -> S -> M S) (s : S) : M S :=
  match xs with
  | [] => mret s
  | x :: xs' => s' ← body x s; for_each xs' body s'
  end.

Definition set_schedule (ts sg sn nl nn : list Q) (p : pipeline) : pipeline :=
  Pipeline (default_mask_std p) (default_mask_strength p) (default_prompt_strength p)
    (default_t_list p) (default_bootstrap_steps p) (default_boostrap_mix_steps p)
    (default_bootstrap_leak_sensitivity p) (default_preprocess_mask_cover_alpha p)
    (mask_type p) (default_num_inference_steps p) (default_guidance_scale p)
    (vae_scale_factor p) (has_i2t p) ts sg sn nl nn (white p).

Definition set_white (wh : latent) (p : pipeline) : pipeline :=
  Pipeline (default_mask_std p) (default_mask_strength p) (default_prompt_strength p)
    (default_t_list p) (default_bootstrap_steps p) (default_boostrap_mix_steps p)
    (default_bootstrap_leak_sensitivity p) (default_preprocess_mask_cover_alpha p)
    (mask_type p) (default_num_inference_steps p) (default_guidance_scale p)
    (vae_scale_factor p) (has_i2t p) (timesteps p) (sigmas p) (sigmas_next p) (noise_lvs p)
    (next_noise_lvs p) (Some wh).

(** [t[torch.tensor(idx)]] *)
Definition index_select {A : Type} (t : list A) (idx : list nat) : result (list A) :=
  match mapM (fun i => t !! i) idx with
  | Some r => inr r
  | None => inl IndexError
  end.

(** [sigmas * (sigmas**2 + 1)**(-0.5)] *)
Definition noise_levels `{Collaborators} (sg : list Q) : list Q :=
  fmap (fun s => s * pow_neg_half (s * s + 1)) sg.

(** [torch.cat([t, t.new_zeros(1)])[1:]] *)
Definition shift_left (t : list Q) : list Q := drop 1 (t ++ [0]).

Section pipeline_methods.
Context `{Collaborators}.

Definition prepare_flashflowmatch_schedule (t_index_list : option (list nat))
    (num_inference_steps : option nat) : M unit :=
  self ← get_self;
  let t_index_list := default (default_t_list self) t_index_list in
  let num_inference_steps :=
    default (default_num_inference_steps self) num_inference_steps in
  ts ← lift (index_select (scheduler_timesteps num_inference_steps) t_index_list);
  update_self (fun p => set_schedule ts (sigmas p) (sigmas_next p) (noise_lvs p)
                          (next_noise_lvs p) p);;
  sg ← lift (index_select (scheduler_sigmas num_inference_steps) t_index_list);
  let lv := noise_levels sg in
  update_self (set_schedule ts sg (shift_left sg) lv (drop 1 lv ++ [0])).

(** [encode_imgs]: pixels in [0, 1] to a scaled latent; the encoder samples. *)
Definition encode_imgs (imgs : latent) : M latent :=
  k ← draw;
  emit EvEncode;;
  mret (lscale vae_scaling_factor (vae_encode k (lmap1 (fun v => 2 * v - 1) imgs))).

Definition get_white_background (height width : nat) : M latent :=
  self ← get_self;
  let fresh :=
    wh ← encode_imgs (replicate 3 (ones_img height width));
    update_self (set_white wh);;
    mret wh in
  match white self with
  | None => fresh
  | Some wh =>
      if (shape_m2 wh <? height)%nat || (shape_m1 wh <? width)%nat then fresh
      else mret (crop (height / Pos.to_nat (vae_scale_factor self))
                      (width / Pos.to_nat (vae_scale_factor self)) wh)
  end.

(** [scheduler_step] on a batch: [latent - noise_pred * self.sigmas[idx]]. *)
Definition scheduler_step (self : pipeline) (noise_pred : list latent) (idx : nat)
    (lat : list latent) : result (list latent) :=
  match sigmas self !! idx with
  | Some s => bcast2 (lmap2 (fun l n => l - n * s)) lat noise_pred
  | None => inl IndexError
  end.

Definition randn_like (lat : latent) : M latent :=
  k ← draw;
  mret (randn k (length lat) (shape_m2 lat) (shape_m1 lat)).

Definition scheduler_add_noise (lat : latent) (noise : option latent) (idx : Z)
    : M latent :=
  self ← get_self;
  if ((idx <? Z.of_nat (length (sigmas self))) && (0 <=? idx))%Z then
    noise ← match noise with None => randn_like lat | Some n => mret n end;
    match sigmas self !! Z.to_nat idx with
    | Some s => mret (ladd (lscale (1 - s) lat) (lscale s noise))
    | None => raise IndexError
    end
  else mret lat.

(** *** [process_mask] *)

(** [T.ToTensor()(m)[None, -1:]]: the last channel of the image. *)
Definition last_channel (m : pil_image) : img := default [] (last m).

Definition proc (use_boolean_mask : bool) (m : pil_image) : img :=
  if use_boolean_mask
  then imap1 (fun v => if Qltb v (1 # 2) then 1 else 0) (last_channel m)
  else imap1 (fun v => 1 - v) (last_channel m).

(** Masks as a tensor of shape (M, 1, H, W). *)
Definition masks_to_tensor (use_boolean_mask : bool) (masks : masks_arg)
    : result (list img) :=
  let of_list ms :=
    match ms with
    | [] => inl (RuntimeError "torch.cat(): expected a non-empty list of Tensors")
    | _ => inr (fmap (fun m => imap1 (clip 0 1) (proc use_boolean_mask m)) ms)
    end in
  match masks with
  | MaskImage m => of_list [m]
  | MaskList ms => of_list ms
  | MaskTensor t => inr t
  end.

(** Masks covered by masks of higher index are decayed by [alpha]; the
    list comprehension under [if preprocess_mask_cover_alpha > 0]. *)
Definition cover_decay (alpha : Q) (masks : list img) : list img :=
  if Qltb 0 alpha then
    imap (fun i mask =>
            if (i <? length masks - 1)%nat
            then imap2 (fun s m => if Qltb 0 s then m * alpha else m)
                       (isum (drop (i + 1) masks)) mask
            else mask) masks
  else masks.

(** [None], a number, a list or a tensor to a tensor with one entry per
    mask: a number is repeated [n] times. *)
Definition per_mask (dflt : Q) (n : nat) (a : option num_arg) : list Q :=
  match a with
  | None => replicate n dflt
  | Some (NumScalar q) => replicate n q
  | Some (NumList l) => l
  | Some (NumTensor l) => l
  end.

(** Modelled from the spec: [util.gaussian_lowpass] is not part of this
    file; it blurs every region with a Gaussian of its own std. *)
Definition gaussian_lowpass (masks : list img) (std : list Q) : result (list img) :=
  bcast2 (fun m s => gaussian_kernel s m) masks std.

Definition quantize_discrete (lv : Q) (m : img) : img :=
  imap1 (fun v => if Qltb lv v then 1 else 0) m.

Definition quantize_continuous (lv next : Q) (m : img) : img :=
  imap1 (fun v => clip 0 1 ((v - next) / (lv - next))) m.

(** One region over all steps, for each of the quantization modes. *)
Definition quantize (mode : string) (lvs nexts : list Q) (m : img) : list img :=
  let T := length lvs in
  if String.eqb mode "discrete" then
    fmap (fun lv => quantize_discrete lv m) lvs
  else if String.eqb mode "semi-continuous" then
    fmap (fun lv => quantize_discrete lv m) (take (T - 1) lvs)
    ++ zip_with (fun lv nx => quantize_continuous lv nx m)
         (drop (T - 1) lvs) (drop (length nexts - 1) nexts)
  else if String.eqb mode "continuous" then
    zip_with (fun lv nx => quantize_continuous lv nx m) lvs nexts
  else replicate T m.

(** [rearrange(x, '(p t) () h w -> p t () h w', p=p)] *)
Definition rearrange_pt {A : Type} (p : nat) (flat : list A) : result (list (list A)) :=
  if (p =? 0)%nat || negb (length flat mod p =? 0)%nat
  then inl (RuntimeError "Shape mismatch, can't divide axis")
  else let t := (length flat / p)%nat in
       inr (fmap (fun i => take t (drop (i * t) flat)) (seq 0 p)).

(** The noise levels the masks are quantized against: the stored ones,
    or the ones recomputed from [self.sigmas] when timesteps are passed. *)
Definition schedule_levels (self : pipeline) (timesteps : option (list Q))
    : list Q * list Q :=
  match timesteps with
  | None => (noise_lvs self, next_noise_lvs self)
  | Some _ => let lv := noise_levels (sigmas self) in (lv, drop 1 lv ++ [0])
  end.

Definition process_mask (self : pipeline) (masks : masks_arg)
    (strength std : option num_arg) (height width : nat) (use_boolean_mask : bool)
    (timesteps : option (list Q)) (preprocess_mask_cover_alpha : option Q)
    : result (list (list img) * list img * list Q) :=
  masks ← masks_to_tensor use_boolean_mask masks;
  let masks := fmap (interpolate Bilinear height width) masks in
  let alpha :=
    default (default_preprocess_mask_cover_alpha self) preprocess_mask_cover_alpha in
  masks ← (if Qltb 0 alpha then
             match masks with
             | [] => inl (RuntimeError "stack expects a non-empty TensorList")
             | _ => mret (cover_decay alpha masks)
             end
           else mret masks);
  let '(lvs, nexts) := schedule_levels self timesteps in
  let std := per_mask (default_mask_std self) (length masks) std in
  let strength := per_mask (default_mask_strength self) (length masks) strength in
  '(masks, std) ←
    (if existsb (Qltb 0) std then
       let std := fmap (fun s => if Qltb 0 s then s else 1 # 100000) std in
       masks ← gaussian_lowpass masks std;
       mret (masks, std)
     else mret (masks, std));
  let masks_blurred := masks in
  masks ← bcast2 (fun m s => imap1 (fun v => v * s) m) masks strength;
  let masks := fmap (quantize (mask_type self) lvs nexts) masks in
  let h := (height / Pos.to_nat (vae_scale_factor self))%nat in
  let w := (width / Pos.to_nat (vae_scale_factor self))%nat in
  let flat := fmap (interpolate Nearest h w) (concat masks) in
  masks ← rearrange_pt (length std) flat;
  mret (masks, masks_blurred, std).
End pipeline_methods.

(** ** The main routine *)

Inductive prompts_arg : Type :=
  | PStr (s : string)
  | PList (l : list string).

(** A background: a PIL image or a tensor of shape (1, 3, H, W). *)
Inductive picture : Type :=
  | PicImage (p : pil_image)
  | PicTensor (t : latent).

Definition planes (p : picture) : latent :=
  match p with PicImage x => x | PicTensor x => x end.

Record call_args : Type := CallArgs {
  prompts : option prompts_arg;
  negative_prompts : prompts_arg;
  suffix : option string;
  background : option picture;
  background_prompt : option string;
  background_negative_prompt : string;
  height : nat;
  width : nat;
  num_inference_steps : option nat;
  guidance_scale : option Q;
  prompt_strengths : option num_arg;
  masks : option masks_arg;
  mask_strengths : option num_arg;
  mask_stds : option num_arg;
  use_boolean_mask : bool;
  do_blend : bool;
  tile_size : nat;
  bootstrap_steps : option Z;
  boostrap_mix_steps : option Q;
  bootstrap_leak_sensitivity : option Q;
  preprocess_mask_cover_alpha : option Q;
  guidance_rescale : Q;
  output_type : string;
}.

Definition py_assert (b : bool) (msg : string) : M unit :=
  if b then mret tt else raise (AssertionError msg).

(** [x is None or (isinstance(x, (list, tuple, str)) and len(x) == 0)] *)
Definition no_prompts (p : option prompts_arg) : bool :=
  match p with
  | None => true
  | Some (PStr s) => (String.length s =? 0)%nat
  | Some (PList l) => (length l =? 0)%nat
  end.

(** [x is None or (isinstance(x, (list, tuple)) and len(x) == 0)] *)
Definition no_masks (m : option masks_arg) : bool :=
  match m with
  | None => true
  | Some (MaskList l) => (length l =? 0)%nat
  | Some _ => false
  end.

Definition as_list (p : prompts_arg) : list string :=
  match p with PStr s => [s] | PList l => l end.

Definition masks_len (m : masks_arg) : nat :=
  match m with
  | MaskImage _ => 1
  | MaskList l => length l
  | MaskTensor t => length t
  end.

(** [t[..., h_start:h_end, w_start:w_end]] on one plane. *)
Definition crop_view (v : view) (m : img) : img :=
  let '(h_start, h_end, w_start, w_end) := v in
  (fun row => take (w_end - w_start) (drop w_start row))
    <$> take (h_end - h_start) (drop h_start m).

Definition in_view (v : view) (y x : nat) : bool :=
  let '(h_start, h_end, w_start, w_end) := v in
  (h_start <=? y)%nat && (y <? h_end)%nat && (w_start <=? x)%nat && (x <? w_end)%nat.

(** [acc[..., h_start:h_end, w_start:w_end] += t] on one plane; a sum
    over an empty batch adds zero. *)
Definition add_view (v : view) (acc t : img) : img :=
  imap (fun y row =>
          imap (fun x a =>
                  if in_view v y x
                  then a + default 0 (px t (y - v.1.1.1) (x - v.1.2))
                  else a) row) acc.

(** [t.repeat(n, 1, ...)]: the rows of [t], [n] times over. *)
Definition tile_rows {A : Type} (n : nat) (t : list A) : list A := concat (replicate n t).

(** [torch.lerp(b, f, s)] with the three batch sizes broadcast. *)
Definition lerp (b f : list embed) (s : list Q) : result (list embed) :=
  bf ← bcast2 pair b f;
  bcast2 (fun '(bi, fi) si => zip_with (fun x y => x + si * (y - x)) bi fi) bf s.

(** [fg_masks.sum(dim=0)] for masks of shape (P, T, 1, h, w). *)
Definition sum_regions (ms : list (list img)) : list img :=
  match ms with
  | [] => []
  | m :: ms' => foldl (zip_with iadd) m ms'
  end.

(** [t.sum()] *)
Definition total (ms : list img) : Q := foldl Qplus 0 (concat (concat ms)).

(** [x.mean(dim=1, keepdim=True)] of one batch element. *)
Definition mean_channels (x : latent) : img :=
  imap1 (fun v => v / inject_Z (Z.of_nat (length x))) (isum x).



(** The same selection on numbers: the merge rule of the compositor. *)
Definition merge (value count_all : latent) : latent :=
  lmap2 (fun v c => if Qltb 0 c then v / c else v) value count_all.

(** [do_classifier_free_guidance = guidance_scale > 1.0] *)
Definition classifier_free (guidance_scale : Q) : bool := Qltb 1 guidance_scale.

Section main_routine.
Context `{Collaborators}.

Definition get_text_prompts (image : picture) : M string :=
  self ← get_self;
  if has_i2t self then emit EvCaption;; mret (i2t_generate (planes image))
  else mret EmptyString.

(** Modelled from the spec: [util.shift_to_mask_bbox_center] is not part
    of this file; it rolls every batch element by the shift that centres
    the bounding box of its own mask. *)
Definition shift_to_mask_bbox_center (im : list latent) (mask : list img)
    (reverse : bool) : list latent :=
  zip_with (fun i m => roll_to_center reverse m i) im mask.

(** *** Text embeddings *)

(** The blending of the foreground embeddings with the background ones
    and the broadcasts over prompts and masks. *)
Definition prepare_embeds (self : pipeline) (has_background : bool)
    (prompt_strengths : option num_arg) (masks : masks_arg)
    (num_masks num_prompts num_nprompts : nat) (do_classifier_free_guidance : bool)
    (enc : list embed * option (list embed) * list embed * option (list embed))
    : M (list embed * list embed) :=
  let '(prompt_embeds, negative_prompt_embeds, pooled_prompt_embeds,
        negative_pooled_prompt_embeds) := enc in
  '(prompt_embeds, negative_prompt_embeds, pooled_prompt_embeds,
    negative_pooled_prompt_embeds) ←
    (if has_background then
       s ← match prompt_strengths with
           | None => mret (replicate num_prompts (default_prompt_strength self))
           | Some (NumScalar q) => mret (replicate num_prompts q)
           | Some (NumList l) =>
               py_assert (length l =? num_prompts)%nat
                 ("The number of prompt strengths " +:+ pretty (length l) +:+
                  " should match the number of prompts " +:+ pretty num_prompts +:+ "!");;
               mret l
           | Some (NumTensor l) => mret l
           end;
       pe ← lift (lerp (take 1 prompt_embeds) (drop 1 prompt_embeds) s);
       ne ← match negative_prompt_embeds with
            | Some n =>
                (* [fe.shape == num_prompts] compares a torch.Size with an
                   int: the assertion fails whenever it is reached *)
                fu ← (if (num_nprompts <? num_prompts)%nat
                      then raise (AssertionError "")
                      else mret (drop 1 n));
                r ← lift (lerp (take 1 n) fu s);
                mret (Some r)
            | None => mret None
            end;
       ppe ← lift (lerp (take 1 pooled_prompt_embeds) (drop 1 pooled_prompt_embeds) s);
       npe ← match negative_pooled_prompt_embeds with
             | Some n =>
                 fu ← (if (num_nprompts <? num_prompts)%nat
                       then raise (AssertionError "")
                       else mret (drop 1 n));
                 r ← lift (lerp (take 1 n) fu s);
                 mret (Some r)
             | None => mret None
             end;
       mret (pe, ne, ppe, npe)
     else
       match negative_prompt_embeds with
       | Some n =>
           if (num_nprompts <? num_prompts)%nat then
             py_assert ((length n =? 1)%nat && (length prompt_embeds =? num_prompts)%nat) "";;
             match negative_pooled_prompt_embeds with
             | Some np =>
                 py_assert ((length np =? 1)%nat
                            && (length pooled_prompt_embeds =? num_prompts)%nat) "";;
                 mret (prompt_embeds, Some (tile_rows num_prompts n),
                       pooled_prompt_embeds, Some (tile_rows num_prompts np))
             | None => raise (AttributeError "'NoneType' object has no attribute 'shape'")
             end
           else mret (prompt_embeds, negative_prompt_embeds, pooled_prompt_embeds,
                      negative_pooled_prompt_embeds)
       | None => mret (prompt_embeds, negative_prompt_embeds, pooled_prompt_embeds,
                       negative_pooled_prompt_embeds)
       end);
  '(prompt_embeds, negative_prompt_embeds, pooled_prompt_embeds,
    negative_pooled_prompt_embeds) ←
    (if (num_prompts <? num_masks)%nat then
       match masks with
       | MaskTensor t => py_assert ((length t =? num_masks)%nat && (num_prompts =? 1)%nat) ""
       | _ => raise (AttributeError "'list' object has no attribute 'shape'")
       end;;
       mret (tile_rows num_masks prompt_embeds,
             tile_rows num_masks <$> negative_prompt_embeds,
             tile_rows num_masks pooled_prompt_embeds,
             tile_rows num_masks <$> negative_pooled_prompt_embeds)
     else mret (prompt_embeds, negative_prompt_embeds, pooled_prompt_embeds,
                negative_pooled_prompt_embeds));
  if do_classifier_free_guidance then
    match negative_prompt_embeds, negative_pooled_prompt_embeds with
    | Some n, Some np => mret (n ++ prompt_embeds, np ++ pooled_prompt_embeds)
    | _, _ => raise (TypeError "expected Tensor as element 0 in argument 0, but got NoneType")
    end
  else mret (prompt_embeds, pooled_prompt_embeds).

(** *** One denoising step *)

Section sampling.
Variables (num_masks : nat) (bootstrap_steps : Z)
  (boostrap_mix_steps bootstrap_leak_sensitivity : Q) (has_background : bool)
  (noise_bg_latents : list latent) (white : option latent) (noise : latent)
  (do_classifier_free_guidance : bool) (guidance_scale guidance_rescale : Q)
  (prompt_embeds pooled_prompt_embeds : list embed)
  (views : list view) (tile_masks : list img) (fg_masks : list (list img)).

(** The guidance rule on the doubled batch; [rescale_noise_cfg] is not
    defined in the module. *)
Definition guide (noise_pred : list latent) : M (list latent) :=
  if do_classifier_free_guidance then
    let n := ((length noise_pred + 1) / 2)%nat in
    let noise_pred_uncond := take n noise_pred in
    let noise_pred_cond := drop n noise_pred in
    match noise_pred_cond with
    | [] => raise (ValueError "not enough values to unpack (expected 2, got 1)")
    | _ =>
        noise_pred ← lift (bcast2 (lmap2 (fun u c => u + guidance_scale * (c - u)))
                             noise_pred_uncond noise_pred_cond);
        if Qltb 0 guidance_rescale then raise (NameError "rescale_noise_cfg")
        else mret noise_pred
    end
  else mret noise_pred.

(** The noise prediction used by the step: the denoiser on the batch,
    doubled under guidance, then the guidance rule. *)
Definition predict (t : Q) (latent_ : list latent) : M (list latent) :=
  let latent_model_input :=
    if do_classifier_free_guidance then latent_ ++ latent_ else latent_ in
  emit EvTransformer;;
  noise_pred ← lift (transformer latent_model_input t prompt_embeds pooled_prompt_embeds);
  guide noise_pred.

(** The body of the loop over the tiles. *)
Definition denoise_tile (i : nat) (t : Q) (fg_mask : list img) (lat : latent)
    (j : nat) (v : view) (acc : latent * latent) : M (latent * latent) :=
  let '(value, count_all) := acc in
  let fg_mask_ : list img := crop_view v <$> fg_mask in
  let latent_ : list latent := replicate num_masks (crop_view v <$> lat) in
  let boot := (Z.of_nat i <? bootstrap_steps)%Z in
  '(latent_, bg_latent_) ←
    (if boot then
       let mix_ratio := Qmin 1 (Qmax 0 (boostrap_mix_steps - inject_Z (Z.of_nat i))) in
       bg_latent_ ←
         (if has_background then
            match noise_bg_latents !! i with
            | Some b => mret [crop_view v <$> b]
            | None => raise IndexError
            end
          else mret (take 1 latent_));
       white ← match white with
               | Some wh => mret wh
               | None => raise (NameError "white")
               end;
       white_ ← scheduler_add_noise (crop_view v <$> white) (Some noise) (Z.of_nat i);
       bg_latent_ ← lift (bcast2 (fun wh b => ladd (lscale mix_ratio wh)
                                                   (lscale (1 - mix_ratio) b))
                            [white_] bg_latent_);
       outside ← lift (bcast2 (fun m b => mask_mul (imap1 (fun x => 1 - x) m) b)
                         fg_mask_ bg_latent_);
       inside ← lift (bcast2 mask_mul fg_mask_ latent_);
       latent_ ← lift (bcast2 ladd outside inside);
       mret (shift_to_mask_bbox_center latent_ fg_mask_ true, bg_latent_)
     else mret (latent_, [])) : M (list latent * list latent);
  noise_pred ← predict t latent_;
  self ← get_self;
  latent_ ← lift (scheduler_step self noise_pred i latent_);
  '(latent_, fg_mask_) ←
    (if boot then
       let latent_ := shift_to_mask_bbox_center latent_ fg_mask_ false in
       leak ← lift (bcast2 (fun l b => mean_channels
                              (lmap1 (fun d => d * d) (lmap2 Qminus l b)))
                      latent_ bg_latent_);
       let leak_sigmoid :=
         imap1 (fun x => sigmoid (x / bootstrap_leak_sensitivity) * 2 - 1) <$> leak in
       fg_mask_ ← lift (bcast2 (imap2 Qmult) fg_mask_ leak_sigmoid);
       mret (latent_, fg_mask_)
     else mret (latent_, fg_mask_)) : M (list latent * list img);
  tile ← match tile_masks !! j with
         | Some tm => mret (crop_view v tm)
         | None => raise (RuntimeError "The size of tensor a must match the size of tensor b")
         end;
  let fg_mask_ : list img := (fun m => imap2 Qmult m tile) <$> fg_mask_ in
  weighted ← lift (bcast2 mask_mul fg_mask_ latent_);
  let value_sum := lsum weighted in
  let count_sum := isum fg_mask_ in
  mret (imap (fun c plane => add_view v plane (default [] (value_sum !! c))) value,
        (fun plane => add_view v plane count_sum) <$> count_all).

(** The accumulators of one step: [value] and [count_all] are zeroed
    and every tile adds its weighted latents and its weights. *)
Definition accumulate (i : nat) (t : Q) (fg_mask : list img) (lat : latent)
    : M (latent * latent) :=
  for_each (imap pair views)
    (fun '(j, v) acc => denoise_tile i t fg_mask lat j v acc)
    (lmap1 (fun _ => 0) lat, lmap1 (fun _ => 0) lat).

(** The body of the loop over the timesteps. *)
Definition sampling_step (i : nat) (t : Q) (lat : latent) : M latent :=
  fg_mask ← match mapM (fun m => m !! i) fg_masks with
            | Some f => mret f
            | None => raise IndexError
            end;
  '(value, count_all) ← accumulate i t fg_mask lat;
  let lat := merge value count_all in
  let bg_mask := lmap1 (fun c => clip 0 1 (1 - c)) count_all in
  lat ← (if has_background then
           match noise_bg_latents !! (i + 1)%nat with
           | Some nb => mret (ladd (lmap2 (fun b l => (1 - b) * l) bg_mask lat)
                                   (lmap2 Qmult bg_mask nb))
           | None => raise IndexError
           end
         else mret lat);
  self ← get_self;
  if (i <? length (timesteps self) - 1)%nat
  then scheduler_add_noise lat None (Z.of_nat (i + 1))
  else mret lat.
End sampling.

(** *** [__call__] *)

(** "Prompts & Masks": the counts have to match or to be 1. *)
Definition check_counts (num_masks num_prompts num_nprompts : nat) : M unit :=
py_assert ((num_prompts =? num_masks)%nat || (num_prompts =? 1)%nat)
  ("The number of prompts " +:+ pretty num_prompts +:+
   " should match the number of masks " +:+ pretty num_masks +:+ "!");;
py_assert ((num_nprompts =? num_prompts)%nat || (num_nprompts =? 1)%nat)
  ("The number of negative prompts " +:+ pretty num_nprompts +:+
   " should match the number of prompts " +:+ pretty num_prompts +:+ "!").

(** "Background": the background becomes a region of its own, or an image
    to draw in front of, with its prompt put before the others. *)
Definition background_stage (a : call_args) (prompts negative_prompts : list string)
    (fg_masks : list (list img)) (bg_masks : list img) (has_background : bool)
    : M (list (list img) * list string * list string * bool * option latent * option latent) :=
let with_suffix (bp : string) : list string :=
  match suffix a with
  | Some sf => (fun p => p +:+ sf +:+ bp) <$> prompts
  | None => prompts
  end in
if has_background then
  match background a, background_prompt a with
  | None, Some bp =>
      mret (bg_masks :: fg_masks, bp :: with_suffix bp,
            background_negative_prompt a :: negative_prompts, false, None, None)
  | bg, bp =>
      '(bg, bp) ← match bg, bp with
                  | None, _ =>
                      mret (PicTensor (replicate 3 (ones_img (height a) (width a))),
                            "simple white background image")
                  | Some b, None => c ← get_text_prompts b; mret (b, c)
                  | Some b, Some p => mret (b, p)
                  end;
      let bg : latent := interpolate Bicubic (height a) (width a) <$> planes bg in
      bg_latent ← encode_imgs bg;
      mret (fg_masks, bp :: with_suffix bp,
            background_negative_prompt a :: negative_prompts, true, Some bg,
            Some bg_latent)
  end
else mret (fg_masks, prompts, negative_prompts, false, planes <$> background a, None).

(** "Latent initialization": the noise, the first latent and the noised
    backgrounds of all the steps. *)
Definition init_latents (h w : nat) (has_background : bool) (bg_latent : option latent)
    : M (latent * latent * list latent) :=
self ← get_self;
k ← draw;
let noise := randn k in_channels h w in
t0 ← match timesteps self !! 0%nat with
     | Some t0 => mret t0
     | None => raise IndexError
     end;
'(noise, lat) ←
  (match Qltb t0 999 && has_background, bg_latent with
   | true, Some b => lat ← scheduler_add_noise b (Some noise) 0; mret (noise, lat)
   | true, None => raise (TypeError "unsupported operand type(s)")
   | false, _ => k ← draw; let noise := randn k in_channels h w in mret (noise, noise)
   end) : M (latent * latent);
noise_bg_latents ←
  (match has_background, bg_latent with
   | true, Some b =>
       l ← for_each (seq 0 (length (timesteps self)))
              (fun i acc => x ← scheduler_add_noise b (Some noise) (Z.of_nat i);
                            mret (acc ++ [x])) [];
       mret (l ++ [b])
   | _, _ => mret []
   end) : M (list latent);
mret (noise, lat, noise_bg_latents).

(** "Tiling (if needed)". *)
Definition tiling (a : call_args) (vsf h w : nat) : list view * list img :=
if (tile_size a <? height a)%nat || (tile_size a <? width a)%nat
then get_panorama_views h w ((tile_size a + vsf - 1) / vsf)%nat
else ([(0, h, 0, w)]%nat, [ones_img h w]).

(** [T.ToPILImage()] on a float tensor of shape (C, H, W): more than four
    channels are refused, and the values are scaled to 8 bits, so that the
    image reads back as multiples of 1/255. *)
Definition to_pil_image (image : latent) : result pil_image :=
if (4 <? length image)%nat
then inl (ValueError ("pic should not have > 4 channels, got " +:+
                      pretty (length image) +:+ " channels."))
else inr (lmap1 (fun v => inject_Z (Qfloor (v * 255)) / 255) image).

(** Decoding and the blend with the background. *)
Definition finish (a : call_args) (has_background : bool) (lat : latent)
    (masks_g : list img) (background : option latent) : M (option picture) :=
image ← (if negb (String.eqb (output_type a) "latent") then
           emit EvDecode;;
           mret (vae_decode (lmap1 (fun x => x / vae_scaling_factor + vae_shift_factor) lat))
         else mret lat) : M latent;
let image := lmap1 (fun x => clip (-1) 1 x * (1 # 2) + (1 # 2)) image in
if has_background && do_blend a then
  let fg_mask := imap1 (clip 0 1) (isum masks_g) in
  mret (Some (PicImage (blend image (default [] background) fg_mask)))
else
  image ← lift (to_pil_image image);
  mret (Some (PicImage image)).

(** The part of the routine after the simplest cases. *)
Definition generate (a : call_args) (prompts : prompts_arg) (masks : masks_arg)
    : M (option picture) :=
(* Prepare generation *)
match num_inference_steps a with
| Some n => prepare_flashflowmatch_schedule (Some (seq 0 n)) (Some n)
| None => mret tt
end;;
self ← get_self;
let guidance_scale := default (default_guidance_scale self) (guidance_scale a) in
let do_classifier_free_guidance := classifier_free guidance_scale in
(* Prompts & Masks *)
let masks := match masks with MaskImage m => MaskList [m] | _ => masks end in
let prompts := as_list prompts in
let negative_prompts := as_list (negative_prompts a) in
let num_masks := masks_len masks in
let num_prompts := length prompts in
let num_nprompts := length negative_prompts in
check_counts num_masks num_prompts num_nprompts;;
'(fg_masks, masks_g, std) ←
  lift (process_mask self masks (mask_strengths a) (mask_stds a) (height a) (width a)
          (use_boolean_mask a) (Some (timesteps self)) (preprocess_mask_cover_alpha a));
let bg_masks : list img := imap1 (fun s => clip 0 1 (1 - s)) <$> sum_regions fg_masks in
let has_background := Qltb 0 (total bg_masks) in
let vsf := Pos.to_nat (vae_scale_factor self) in
let h := ((height a + vsf - 1) / vsf)%nat in
let w := ((width a + vsf - 1) / vsf)%nat in
(* Background *)
'(fg_masks, prompts, negative_prompts, has_background, background, bg_latent) ←
  background_stage a prompts negative_prompts fg_masks bg_masks has_background;
(* Bootstrapping stage preparation *)
let bootstrap_steps := default (default_bootstrap_steps self) (bootstrap_steps a) in
let boostrap_mix_steps :=
  default (default_boostrap_mix_steps self) (boostrap_mix_steps a) in
let bootstrap_leak_sensitivity :=
  default (default_bootstrap_leak_sensitivity self) (bootstrap_leak_sensitivity a) in
white ← (if (0 <? bootstrap_steps)%Z
         then wh ← get_white_background (height a) (width a); mret (Some wh)
         else mret None);
(* Text embeddings *)
emit EvEncodePrompt;;
enc ← lift (encode_prompt prompts negative_prompts do_classifier_free_guidance);
'(prompt_embeds, pooled_prompt_embeds) ←
  prepare_embeds self has_background (prompt_strengths a) masks num_masks num_prompts
    num_nprompts do_classifier_free_guidance enc;
(* Run *)
'(noise, lat, noise_bg_latents) ← init_latents h w has_background bg_latent;
let '(views, tile_masks) := tiling a vsf h w in
self ← get_self;
lat ← for_each (imap pair (timesteps self))
        (fun '(i, t) lat =>
           sampling_step num_masks bootstrap_steps boostrap_mix_steps
             bootstrap_leak_sensitivity has_background noise_bg_latents white noise
             do_classifier_free_guidance guidance_scale (guidance_rescale a)
             prompt_embeds pooled_prompt_embeds views tile_masks fg_masks i t lat) lat;
finish a has_background lat masks_g background.

(** [sample] is not defined in the module: looking it up raises. *)
Definition __call__ (a : call_args) : M (option picture) :=
  if no_prompts (prompts a) then
    match background a, background_prompt a with
    | None, Some _ => raise (NameError "sample")
    | _, _ => mret (background a)
    end
  else if no_masks (masks a) then raise (NameError "sample")
  else match prompts a, masks a with
       | Some p, Some m => generate a p m
       | _, _ => raise (NameError "sample")
       end.
End main_routine.

(** ** A small executable instance of the collaborators

    Used to run the pipeline on concrete inputs. The schedule has
    rational noise levels: [pow_neg_half] is exact on squares of
    rationals. *)
Module Toy.
Definition qsqrt_inv (q : Q) : Q := Z.sqrt (QDen q) # Z.to_pos (Z.sqrt (Qnum q)).

Definition enc (s : string) : embed := [Z.of_nat (String.length s) # 1].

Definition denoise (x : latent) (e : embed) : latent :=
  lmap1 (fun v => v * default 0 (head e)) x.

#[global] Instance collaborators : Collaborators := {|
  scheduler_sigmas := fun _ => [3 # 4; 5 # 12; 7 # 24; 9 # 40];
  scheduler_timesteps := fun _ => [750 # 1; 417 # 1; 292 # 1; 225 # 1];
  pow_neg_half := qsqrt_inv;
  sigmoid := fun x => clip 0 1 (x * (1 # 4) + (1 # 2));
  randn := fun k c h w => replicate c (replicate h (replicate w (Z.of_nat k # 7)));
  resample := fun _ h w m => interpolate_nearest h w m;
  vae_encode := fun _ x =>
    [interpolate_nearest (shape_m2 x / 8) (shape_m1 x / 8) (default [] (head x))];
  vae_decode := fun x =>
    replicate 3 (interpolate_nearest (shape_m2 x * 8) (shape_m1 x * 8)
                   (default [] (head x)));
  vae_scaling_factor := 3 # 2;
  vae_shift_factor := 1 # 16;
  in_channels := 1;
  encode_prompt := fun ps ns cfg =>
    inr (fmap enc ps, if cfg then Some (fmap enc ns) else None,
         fmap enc ps, if cfg then Some (fmap enc ns) else None);
  transformer := fun xs _ es ps =>
  if (length es =? length xs)%nat && (length ps =? length xs)%nat
  then inr (zip_with (fun x ep => denoise x ep.1) xs (zip es ps))
  else inl (RuntimeError "batch sizes differ");
  i2t_generate := fun _ => "a photo";
  get_panorama_views := fun h w _ => ([(0, h, 0, w)]%nat, [ones_img h w]);
  blend := fun image _ _ => image;
  gaussian_kernel := fun _ m => m;
  roll_to_center := fun _ _ x => x;
|}.

Definition smd : pipeline := {|
  default_mask_std := 0;
  default_mask_strength := 1;
  default_prompt_strength := 1;
  default_t_list := [0; 1; 2; 3]%nat;
  default_bootstrap_steps := 1;
  default_boostrap_mix_steps := 1;
  default_bootstrap_leak_sensitivity := 1 # 5;
  default_preprocess_mask_cover_alpha := 3 # 10;
  mask_type := "discrete";
  default_num_inference_steps := 4;
  default_guidance_scale := 0;
  vae_scale_factor := 8;
  has_i2t := true;
  timesteps := [750 # 1; 417 # 1; 292 # 1; 225 # 1];
  sigmas := [3 # 4; 5 # 12; 7 # 24; 9 # 40];
  sigmas_next := [5 # 12; 7 # 24; 9 # 40; 0];
  noise_lvs := [3 # 5; 5 # 13; 7 # 25; 9 # 41];
  next_noise_lvs := [5 # 13; 7 # 25; 9 # 41; 0];
  white := None;
|}.

Definition world0 : world := World smd 0 [].
End Toy.

(** Sample inputs: a 16 x 16 mask that is 1 on its upper half and 1/2 on
    its lower half, and a 16 x 16 mask that is 1 on its left half only. *)
Module Sample.
Definition upper : img :=
  replicate 8 (replicate 16 1) ++ replicate 8 (replicate 16 (1 # 2)).
Definition left : img := replicate 16 (replicate 8 1 ++ replicate 8 0).

(** The two masks as black-on-white images. *)
Definition upper_image : pil_image := [imap1 (fun v => 1 - v) upper].
Definition left_image : pil_image := [imap1 (fun v => 1 - v) left].

(** A call on a 16 x 16 canvas; the other arguments keep the defaults of
    the signature. *)
Definition args (prompts : option prompts_arg) (masks : option masks_arg)
    (background : option picture) (background_prompt : option string)
    (guidance_scale : option Q) : call_args := {|
  prompts := prompts;
  negative_prompts := PStr "";
  suffix := None;
  background := background;
  background_prompt := background_prompt;
  background_negative_prompt := "";
  height := 16;
  width := 16;
  num_inference_steps := None;
  guidance_scale := guidance_scale;
  prompt_strengths := None;
  masks := masks;
  mask_strengths := None;
  mask_stds := None;
  use_boolean_mask := true;
  do_blend := true;
  tile_size := 1024;
  bootstrap_steps := None;
  boostrap_mix_steps := None;
  bootstrap_leak_sensitivity := None;
  preprocess_mask_cover_alpha := None;
  guidance_rescale := 7 # 10;
  output_type := "pil";
|}.
End Sample.

Definition with_mask_type (mode : string) (p : pipeline) : pipeline :=
  Pipeline (default_mask_std p) (default_mask_strength p) (default_prompt_strength p)
    (default_t_list p) (default_bootstrap_steps p) (default_boostrap_mix_steps p)
    (default_bootstrap_leak_sensitivity p) (default_preprocess_mask_cover_alpha p)
    mode (default_num_inference_steps p) (default_guidance_scale p)
    (vae_scale_factor p) (has_i2t p) (timesteps p) (sigmas p) (sigmas_next p)
    (noise_lvs p) (next_noise_lvs p) (white p).

Definition with_cover_alpha (alpha : option Q) (a : call_args) : call_args :=
  CallArgs (prompts a) (negative_prompts a) (suffix a) (background a)
    (background_prompt a) (background_negative_prompt a) (height a) (width a)
    (num_inference_steps a) (guidance_scale a) (prompt_strengths a) (masks a)
    (mask_strengths a) (mask_stds a) (use_boolean_mask a) (do_blend a) (tile_size a)
    (bootstrap_steps a) (boostrap_mix_steps a) (bootstrap_leak_sensitivity a)
    alpha (guidance_rescale a) (output_type a).

(** ** Vocabulary of the statements *)

(** A per-region parameter is absent, a number, or has one entry per mask. *)
Definition arg_fits (n : nat) (a : option num_arg) : Prop :=
  match a with
  | Some (NumList l) | Some (NumTensor l) => length l = n
  | _ => True
  end.

Definition strictly_decreasing (l : list Q) : Prop :=
  forall i a b, l !! i = Some a -> l !! S i = Some b -> b < a.

(** Planes of shape (h, w), as the planes of one tensor are. *)
Definition has_shape (h w : nat) (m : img) : Prop :=
  length m = h /\ Forall (fun row => length row = w) m.

Definition nonneg (m : img) : Prop := Forall (Forall (fun v => 0 <= v)) m.

(** Region [i] is covered at a pixel when a region of higher index is not
    zero there. *)
Definition covered (masks : list img) (i y x : nat) : Prop :=
  exists j m v, (i < j)%nat /\ masks !! j = Some m /\ px m y x = Some v /\ ~ v == 0.

(** The overlap-decay rule: covered pixels are multiplied by [alpha], the
    others and the last region are left as they are. *)
Definition decay_rule (alpha : Q) (masks out : list img) : Prop :=
  length out = length masks /\
  (forall i m y x v, masks !! i = Some m -> px m y x = Some v ->
     exists o, out !! i = Some o /\
       (covered masks i y x -> px o y x = Some (v * alpha)) /\
       (~ covered masks i y x -> px o y x = Some v)) /\
  last out = last masks.

(** The pixel (y, x) of region [p] at step [t] in what [process_mask]
    returns. *)
Definition mask_px (r : result (list (list img) * list img * list Q))
    (p t y x : nat) : option Q :=
  match r with
  | inr (fg, _, _) => region ← fg !! p; m ← region !! t; px m y x
  | inl _ => None
  end.


(** *** Regions

    One region of a composition: the entries a caller places at the same
    index of the parallel lists [prompts], [negative_prompts], [masks],
    [mask_strengths], [mask_stds] and [prompt_strengths]. *)
Record region : Type := Region {
  r_prompt : string;
  r_negative : string;
  r_mask : img;
  r_mask_strength : Q;
  r_mask_std : Q;
  r_prompt_strength : Q;
}.

(** How a per-region number is passed: one value (or none) for all the
    regions, or a list or a tensor with the entries of the regions. *)
Inductive spread : Type :=
  | Shared (q : option Q)
  | EachList
  | EachTensor.

Definition spread_arg (s : spread) (f : region -> Q) (rs : list region) : option num_arg :=
  match s with
  | Shared q => NumScalar <$> q
  | EachList => Some (NumList (f <$> rs))
  | EachTensor => Some (NumTensor (f <$> rs))
  end.

(** How the calls of one comparison pass the regions: masks as a tensor or
    as a list of one-channel images, negative prompts as one string or as
    one per region. *)
Record passing : Type := Passing {
  masks_as_tensor : bool;
  shared_negative : option string;
  strengths_by : spread;
  stds_by : spread;
  prompt_strengths_by : spread;
}.

(** The masks of the regions as a call passes them. *)
Definition region_masks (by_ : passing) (rs : list region) : masks_arg :=
  if masks_as_tensor by_ then MaskTensor (r_mask <$> rs)
  else MaskList ((fun r => [r_mask r]) <$> rs).

(** The arguments of a call for the regions [rs]; the other arguments are
    those of [a]. *)
Definition with_regions (a : call_args) (by_ : passing) (rs : list region) : call_args :=
  CallArgs
    (Some (PList (r_prompt <$> rs)))
    (match shared_negative by_ with
     | Some s => PStr s
     | None => PList (r_negative <$> rs)
     end)
    (suffix a) (background a) (background_prompt a) (background_negative_prompt a)
    (height a) (width a) (num_inference_steps a) (guidance_scale a)
    (spread_arg (prompt_strengths_by by_) r_prompt_strength rs)
    (Some (region_masks by_ rs))
    (spread_arg (strengths_by by_) r_mask_strength rs)
    (spread_arg (stds_by by_) r_mask_std rs)
    (use_boolean_mask a) (do_blend a) (tile_size a) (bootstrap_steps a)
    (boostrap_mix_steps a) (bootstrap_leak_sensitivity a)
    (preprocess_mask_cover_alpha a) (guidance_rescale a) (output_type a).

(** The denoiser works on every batch element on its own, and turns down
    batches whose sizes differ. *)
Definition batchwise_denoiser `{Collaborators} : Prop :=
  exists (D : Q -> list (list (list Q)) -> list Q -> list Q -> list (list (list Q)))
         (mismatch : py_error),
    forall xs t es ps,
      transformer xs t es ps =
        if (length es =? length xs)%nat && (length ps =? length xs)%nat
        then inr (zip_with (fun x ep => D t x ep.1 ep.2) xs (zip es ps))
        else inl mismatch.

(** The text encoder embeds every prompt on its own; negative prompts are
    embedded under guidance only. *)
Definition promptwise_encoder `{Collaborators} : Prop :=
  exists tok pool : string -> list Q,
    forall ps ns (cfg : bool),
      encode_prompt ps ns cfg =
        inr (tok <$> ps, (if cfg then Some (tok <$> ns) else None),
             pool <$> ps, (if cfg then Some (pool <$> ns) else None)).

(** *** Two runs side by side *)

Definition rel_result {A : Type} (R : A -> A -> Prop) (r r' : result A) : Prop :=
  match r, r' with
  | inr a, inr a' => R a a'
  | inl e, inl e' => e = e'
  | _, _ => False
  end.

(** Two computations end in the same world, with related values or with
    the same exception. *)
Definition sim {A : Type} (R : A -> A -> Prop) (m m' : M A) : Prop :=
  forall w, (m w).2 = (m' w).2 /\ rel_result R (m w).1 (m' w).1.

(** The sum of a non-empty batch, whatever the operation. *)
Definition sum_with {A : Type} (f : A -> A -> A) (l : list A) : list A :=
  match l with
  | [] => []
  | x :: l' => [foldl f x l']
  end.

(** Two batches built from two orders of the same regions: a common head
    of [k] rows, then one row per region. *)
Definition co {A : Type} (rs rs' : list region) (k : nat) (l l' : list A) : Prop :=
  exists (pre : list A) (f : region -> A),
    length pre = k /\ l = pre ++ (f <$> rs) /\ l' = pre ++ (f <$> rs').


(** Embeddings in two orders; under guidance the rows of the negative
    prompts come first. *)
Definition co_embeds (rs rs' : list region) (cfg : bool) (k : nat)
    (pe pe' : list (list Q)) : Prop :=
  if cfg then
    exists ne ne' po po',
      pe = ne ++ po /\ pe' = ne' ++ po' /\ co rs rs' k ne ne' /\ co rs rs' k po po'
  else co rs rs' k pe pe'.

(** Negative prompts, or their embeddings, in two orders: one prompt for
    all the regions (after the [k] common rows), or one per region. *)
Definition co_negative {A : Type} (rs rs' : list region) (shared : bool) (k : nat)
    (n n' : list A) : Prop :=
  if shared then n = n' /\ length n = S k else co rs rs' k n n'.

(** The state after the background stage in two orders: masks, prompts,
    negative prompts, the background flag, the background and its latent. *)
Definition co_background (rs rs' : list region) (shared : bool)
    (x x' : list (list (list (list Q))) * list string * list string * bool
            * option (list (list (list Q))) * option (list (list (list Q)))) : Prop :=
  let '(fg, prompts, negs, hb, bg, bgl) := x in
  let '(fg', prompts', negs', hb', bg', bgl') := x' in
  hb = hb' /\ bg = bg' /\ bgl = bgl' /\
  exists km kp,
    co rs rs' km fg fg' /\ co rs rs' kp prompts prompts' /\
    co_negative rs rs' shared kp negs negs' /\
    (if hb then kp = 1%nat /\ km = 0%nat else (kp <= 1)%nat /\ km = kp).

(** Whether a run came back with a value. *)
Definition returned {A : Type} (r : result A) : bool :=
  match r with inr _ => true | inl _ => false end.

(** Three sample regions on the 16 x 16 canvas, passed with one negative
    prompt, one mask strength, one deviation and one prompt strength each. *)
Module Regions.
Definition cat : region := Region "a cat" "blurry" Sample.upper 1 0 1.
Definition dog : region := Region "a dog" "dark" Sample.left (4 # 5) 0 (1 # 2).
Definition sky : region :=
  Region "the sky" "grey" (replicate 16 (replicate 16 (3 # 4))) (1 # 2) 0 (3 # 4).
Definition each : passing := Passing false None EachList EachTensor EachList.
Definition args : call_args :=
  with_cover_alpha (Some 0) (Sample.args None None None None None).
End Regions.

(** ** Vocabulary of the further properties *)

(** Values of a plane within [0, 1], and values that are 0 or 1. *)
Definition unit_interval (m : img) : Prop := Forall (Forall (fun v => 0 <= v /\ v <= 1)) m.
Definition binary (m : img) : Prop := Forall (Forall (fun v => v = 0 \/ v = 1)) m.

(** Two tensors of one shape whose entries are equal as numbers. *)
Definition latent_eq (a b : latent) : Prop := Forall2 (Forall2 (Forall2 Qeq)) a b.
Definition same_shape (a b : latent) : Prop :=
  Forall2 (Forall2 (fun r r' : list Q => length r = length r')) a b.

(** A run that comes back with an exception from every world. *)
Definition fails {A : Type} (m : M A) : Prop := forall w, returned (m w).1 = false.

(** The first stages of [process_mask]: the masks read, resized to the
    canvas, decayed where covered, blurred and scaled by their strengths,
    before they are quantized. Returns the scaled masks, the blurred ones
    and the deviations. *)
Definition scaled_masks `{Collaborators} (self : pipeline) (masks : masks_arg)
    (strength std : option num_arg) (height width : nat) (use_boolean_mask : bool)
    (preprocess_mask_cover_alpha : option Q)
    : result (list img * list img * list Q) :=
  masks ← masks_to_tensor use_boolean_mask masks;
  let masks := fmap (interpolate Bilinear height width) masks in
  let alpha :=
    default (default_preprocess_mask_cover_alpha self) preprocess_mask_cover_alpha in
  masks ← (if Qltb 0 alpha then
             match masks with
             | [] => inl (RuntimeError "stack expects a non-empty TensorList")
             | _ => mret (cover_decay alpha masks)
             end
           else mret masks);
  let std := per_mask (default_mask_std self) (length masks) std in
  let strength := per_mask (default_mask_strength self) (length masks) strength in
  '(masks, std) ←
    (if existsb (Qltb 0) std then
       let std := fmap (fun s => if Qltb 0 s then s else 1 # 100000) std in
       masks ← gaussian_lowpass masks std;
       mret (masks, std)
     else mret (masks, std));
  let masks_blurred := masks in
  masks ← bcast2 (fun m s => imap1 (fun v => v * s) m) masks strength;
  mret (masks, masks_blurred, std).

(** The single-channel planes the masks are read from: the last channel
    of each image, or the planes of the tensor. *)
Definition mask_planes (masks : masks_arg) : list img :=
  match masks with
  | MaskImage m => [last_channel m]
  | MaskList ms => last_channel <$> ms
  | MaskTensor t => t
  end.

(** Planes that are rectangles of one size, with at least one row and one
    column. *)
Definition rectangular (planes : list img) : Prop :=
  exists h w, (0 < h)%nat /\ (0 < w)%nat /\ Forall (has_shape h w) planes.

(** The masks are rectangles of one size that is not empty. *)
Definition one_size (masks : masks_arg) : Prop := rectangular (mask_planes masks).

(** Step by step, the noise level differs from the next one. *)
Definition distinct_levels (lvs nexts : list Q) : Prop :=
  Forall2 (fun lv nx => Qeq_bool lv nx = false) lvs nexts.

(** The last stage of [process_mask] for one region: its mask at every
    step, on the latent grid. *)
Definition quantized `{Collaborators} (self : pipeline) (height width : nat)
    (timesteps : option (list Q)) (m : img) : list img :=
  interpolate Nearest (height / Pos.to_nat (vae_scale_factor self))
    (width / Pos.to_nat (vae_scale_factor self))
  <$> quantize (mask_type self) (schedule_levels self timesteps).1
        (schedule_levels self timesteps).2 m.

(** *** What a run leaves behind *)

(** [keeps R m]: the world after [m] is related by [R] to the world before,
    whether [m] returns or raises. *)
Definition keeps {A : Type} (R : world -> world -> Prop) (m : M A) : Prop :=
  forall w, R w (m w).2.

(** The settings and the schedule of a pipeline: all its attributes but the
    stored white latent. *)
Definition without_white (p : pipeline) : pipeline :=
  Pipeline (default_mask_std p) (default_mask_strength p) (default_prompt_strength p)
    (default_t_list p) (default_bootstrap_steps p) (default_boostrap_mix_steps p)
    (default_bootstrap_leak_sensitivity p) (default_preprocess_mask_cover_alpha p)
    (mask_type p) (default_num_inference_steps p) (default_guidance_scale p)
    (vae_scale_factor p) (has_i2t p) (timesteps p) (sigmas p) (sigmas_next p)
    (noise_lvs p) (next_noise_lvs p) None.

Definition same_settings (w w' : world) : Prop :=
  without_white (obj w') = without_white (obj w).

(** The number of runs of the denoiser in the log. *)
Definition is_transformer (e : event) : bool :=
  match e with EvTransformer => true | _ => false end.

Definition transformer_calls (w : world) : nat :=
  length (List.filter is_transformer (calls w)).

Definition same_transformer_calls (w w' : world) : Prop :=
  transformer_calls w' = transformer_calls w.

(** [adds k m]: a run of [m] that returns has called the denoiser [k]
    times. *)
Definition adds {A : Type} (k : nat) (m : M A) : Prop :=
  forall w a w', m w = (inr a, w') ->
    transformer_calls w' = (transformer_calls w + k)%nat.

(** The arguments [a] with another [num_inference_steps]. *)
Definition with_num_inference_steps (n : option nat) (a : call_args) : call_args :=
  CallArgs (prompts a) (negative_prompts a) (suffix a) (background a)
    (background_prompt a) (background_negative_prompt a) (height a) (width a)
    n (guidance_scale a) (prompt_strengths a) (masks a)
    (mask_strengths a) (mask_stds a) (use_boolean_mask a) (do_blend a) (tile_size a)
    (bootstrap_steps a) (boostrap_mix_steps a) (bootstrap_leak_sensitivity a)
    (preprocess_mask_cover_alpha a) (guidance_rescale a) (output_type a).

(** The arguments [a] with another [output_type]. *)
Definition with_output_type (o : string) (a : call_args) : call_args :=
  CallArgs (prompts a) (negative_prompts a) (suffix a) (background a)
    (background_prompt a) (background_negative_prompt a) (height a) (width a)
    (num_inference_steps a) (guidance_scale a) (prompt_strengths a) (masks a)
    (mask_strengths a) (mask_stds a) (use_boolean_mask a) (do_blend a) (tile_size a)
    (bootstrap_steps a) (boostrap_mix_steps a) (bootstrap_leak_sensitivity a)
    (preprocess_mask_cover_alpha a) (guidance_rescale a) o.

(** A relation between worlds that every silent operation of a run keeps:
    reading the pipeline, logging a call to a network other than the
    denoiser, drawing from the generator, storing the white latent. *)
Class Frame (R : world -> world -> Prop) : Prop := {
  frame_refl : forall w, R w w;
  frame_trans : forall w1 w2 w3, R w1 w2 -> R w2 w3 -> R w1 w3;
  frame_emit : forall e, e <> EvTransformer -> keeps R (emit e);
  frame_draw : keeps R draw;
  frame_white : forall wh, keeps R (update_self (set_white wh));
}.

(** ... and that a run of the denoiser keeps as well. *)
Class Silent (R : world -> world -> Prop) : Prop :=
  silent_transformer : keeps R (emit EvTransformer).

(** Settings and number of denoiser runs together. *)
Definition quiet (w w' : world) : Prop :=
  same_settings w w' /\ same_transformer_calls w w'.

(** [has_background] as the main routine computes it from the quantized
    masks: at some step some pixel is not fully covered by the regions. *)
Definition has_uncovered (fg_masks : list (list img)) : bool :=
  Qltb 0 (total (imap1 (fun s => clip 0 1 (1 - s)) <$> sum_regions fg_masks)).

Definition leaves_background (r : result (list (list img) * list img * list Q)) : bool :=
  match r with
  | inr (fg, _, _) => has_uncovered fg
  | inl _ => false
  end.

(** The arguments [a] with other prompts, negative prompts and masks. *)
Definition with_inputs (p : option prompts_arg) (n : prompts_arg) (m : option masks_arg)
    (a : call_args) : call_args :=
  CallArgs p n (suffix a) (background a)
    (background_prompt a) (background_negative_prompt a) (height a) (width a)
    (num_inference_steps a) (guidance_scale a) (prompt_strengths a) m
    (mask_strengths a) (mask_stds a) (use_boolean_mask a) (do_blend a) (tile_size a)
    (bootstrap_steps a) (boostrap_mix_steps a) (bootstrap_leak_sensitivity a)
    (preprocess_mask_cover_alpha a) (guidance_rescale a) (output_type a).

(** Every value of a picture within [0, 1]. *)
(** A plane read back from an 8-bit image: every value is a level
    [k / 255]. *)
Definition eight_bit (m : img) : Prop :=
  Forall (Forall (fun v => exists k : Z, (0 <= k <= 255)%Z /\ v = inject_Z k / 255)) m.

Definition picture_in_unit (p : picture) : Prop := Forall unit_interval (planes p).

(** The sum of a list of numbers. *)
Definition qsum (l : list Q) : Q := foldr Qplus 0 l.

(** [latent] noised for step [i] with a given noise; beyond the schedule
    [scheduler_add_noise] hands the latent back. *)
Definition noised (self : pipeline) (lat noise : latent) (i : nat) : latent :=
  match sigmas self !! i with
  | Some s => ladd (lscale (1 - s) lat) (lscale s noise)
  | None => lat
  end.

(** * Properties *)

(** ** Reading pixels of pointwise operations *)

Lemma px_imap1 (f : Q -> Q) (m : img) (y x : nat) :
  px (imap1 f m) y x = f <$> px m y x.
Proof.
  unfold px, imap1. rewrite list_lookup_fmap.
  destruct (m !! y) as [row|]; simpl; [|done].
  by rewrite list_lookup_fmap.
Qed.

Lemma px_imap2 (f : Q -> Q -> Q) (a b : img) (y x : nat) :
  px (imap2 f a b) y x = u ← px a y x; v ← px b y x; Some (f u v).
Proof.
  unfold px, imap2. rewrite lookup_zip_with.
  destruct (a !! y) as [ra|]; simpl; [|done].
  destruct (b !! y) as [rb|]; simpl.
  - rewrite lookup_zip_with. by destruct (ra !! x).
  - by destruct (ra !! x).
Qed.

Lemma lpx_lmap1 (f : Q -> Q) (l : latent) (c y x : nat) :
  lpx (lmap1 f l) c y x = f <$> lpx l c y x.
Proof.
  unfold lpx, lmap1. rewrite list_lookup_fmap.
  destruct (l !! c) as [m|]; simpl; [|done]. apply px_imap1.
Qed.

Lemma lpx_lmap2 (f : Q -> Q -> Q) (a b : latent) (c y x : nat) :
  lpx (lmap2 f a b) c y x = u ← lpx a c y x; v ← lpx b c y x; Some (f u v).
Proof.
  unfold lpx, lmap2. rewrite lookup_zip_with.
  destruct (a !! c) as [ma|]; simpl; [|done].
  destruct (b !! c) as [mb|]; simpl.
  - apply px_imap2.
  - by destruct (px ma y x).
Qed.

(** ** The noise-adding step *)

Lemma add_noise_px (s : Q) (lat n : latent) (c y x : nat) (l v : Q) :
  lpx lat c y x = Some l -> lpx n c y x = Some v ->
  lpx (ladd (lscale (1 - s) lat) (lscale s n)) c y x = Some ((1 - s) * l + s * v).
Proof.
  intros Hl Hv. unfold ladd, lscale.
  by rewrite lpx_lmap2, !lpx_lmap1, Hl, Hv.
Qed.

Lemma same_shape_lpx (a b : latent) (c y x : nat) (l : Q) :
  same_shape a b -> lpx a c y x = Some l -> is_Some (lpx b c y x).
Proof.
  unfold same_shape, lpx, px. intros Hab Hl.
  destruct (a !! c) as [ma|] eqn:Ea; [|done]. simpl in Hl.
  destruct (Forall2_lookup_l _ _ _ _ _ Hab Ea) as (mb & -> & Hm). simpl.
  destruct (ma !! y) as [ra|] eqn:Er; [|done]. simpl in Hl.
  destruct (Forall2_lookup_l _ _ _ _ _ Hm Er) as (rb & -> & Hr). simpl.
  apply lookup_lt_is_Some_2. rewrite <- Hr. by eapply lookup_lt_Some.
Qed.

(** C2. For a latent and a noise of the same shape, [scheduler_add_noise]
    returns [(1 - sigma[idx]) * latent + sigma[idx] * noise] when
    [0 <= idx < T], drawing the noise from the generator when none is
    passed: at every entry of the latent the result is
    [(1 - sigma) * l + sigma * n]. For every other index it returns the
    latent unchanged, whatever the noise is. *)
Theorem scheduler_add_noise_spec `{Collaborators} (w : world) (lat : latent)
    (noise : option latent) (idx : Z) :
  let n := match noise with
           | Some n0 => n0
           | None => randn (rng w) (length lat) (shape_m2 lat) (shape_m1 lat)
           end in
  let w' := match noise with
            | Some _ => w
            | None => World (obj w) (S (rng w)) (calls w)
            end in
  ((0 <= idx < Z.of_nat (length (sigmas (obj w))))%Z -> same_shape lat n ->
   exists s,
     sigmas (obj w) !! Z.to_nat idx = Some s /\
     scheduler_add_noise lat noise idx w
       = (inr (ladd (lscale (1 - s) lat) (lscale s n)), w') /\
     same_shape lat (ladd (lscale (1 - s) lat) (lscale s n)) /\
     forall c y x l, lpx lat c y x = Some l ->
       exists v, lpx n c y x = Some v /\
         lpx (ladd (lscale (1 - s) lat) (lscale s n)) c y x
         = Some ((1 - s) * l + s * v))
  /\ (~ (0 <= idx < Z.of_nat (length (sigmas (obj w))))%Z ->
      scheduler_add_noise lat noise idx w = (inr lat, w)).
Proof.
  intros n w'. split.
  - intros [Hlo Hhi] Hshape.
    destruct (lookup_lt_is_Some_2 (sigmas (obj w)) (Z.to_nat idx)) as [s Hs]; [lia|].
    assert (Hg : ((idx <? Z.of_nat (length (sigmas (obj w)))) && (0 <=? idx))%Z = true).
    { apply andb_true_intro. split; [by apply Z.ltb_lt | by apply Z.leb_le]. }
    exists s. split; [done|]. split; [|split].
    + subst n w'. destruct noise as [n0|].
      * unfold scheduler_add_noise, mbind, M_bind, get_self, mret, M_ret. simpl.
        by rewrite Hg, Hs.
      * unfold scheduler_add_noise, randn_like, draw, mbind, M_bind, get_self, mret, M_ret.
        simpl. by rewrite Hg, Hs.
    + clear -Hshape. unfold same_shape, ladd, lscale, lmap2, lmap1, imap2, imap1.
      induction Hshape as [|ma mb a b Hm _ IH]; [constructor|].
      cbn. constructor; [|exact IH].
      clear IH. induction Hm as [|ra rb ma mb Hr _ IH]; [constructor|].
      cbn. constructor; [|exact IH].
      rewrite length_zip_with, !length_fmap. lia.
    + intros c y x l Hl.
      destruct (same_shape_lpx _ _ _ _ _ _ Hshape Hl) as [v Hv].
      exists v. split; [done|]. by apply add_noise_px.
  - intros Hout.
    unfold scheduler_add_noise, mbind, M_bind, get_self, mret, M_ret. simpl.
    destruct ((idx <? _) && (0 <=? idx))%Z eqn:Hg; [|done].
    apply andb_prop in Hg as [?%Z.ltb_lt ?%Z.leb_le]. lia.
Qed.

Lemma scheduler_add_noise_spec_witness :
  scheduler_add_noise [[[1; 0]]] (Some [[[0; 1]]]) 1 Toy.world0
    = (inr (ladd (lscale (1 - (5 # 12)) [[[1; 0]]]) (lscale (5 # 12) [[[0; 1]]])),
       Toy.world0)
  /\ lpx (ladd (lscale (1 - (5 # 12)) [[[1; 0]]]) (lscale (5 # 12) [[[0; 1]]])) 0 0 1
     = Some ((1 - (5 # 12)) * 0 + (5 # 12) * 1)
  /\ scheduler_add_noise [[[1; 0]]] (Some [[[0; 1]]]) 4 Toy.world0
    = (inr [[[1; 0]]], Toy.world0).
Proof.
  pose proof (scheduler_add_noise_spec Toy.world0 [[[1; 0]]] (Some [[[0; 1]]]) 1) as [Hin _].
  pose proof (scheduler_add_noise_spec Toy.world0 [[[1; 0]]] (Some [[[0; 1]]]) 4) as [_ Hout].
  destruct Hin as (s & Hs & Hrun & _ & Hpx).
  { simpl. lia. }
  { repeat constructor. }
  injection Hs as <-.
  split; [exact Hrun|]. split.
  - destruct (Hpx 0%nat 0%nat 1%nat 0 eq_refl) as (v & Hv & Hr).
    injection Hv as <-. exact Hr.
  - apply Hout. simpl. lia.
Defined.

(** ** Mask preprocessing *)

Lemma Qltb_lt (a b : Q) : Qltb a b = true <-> a < b.
Proof. unfold Qltb, Qlt. apply Z.ltb_lt. Qed.

Lemma Qltb_ge (a b : Q) : Qltb a b = false <-> b <= a.
Proof. unfold Qltb, Qle. rewrite Z.ltb_ge. done. Qed.

Lemma bcast2_same_length {A B C : Type} (f : A -> B -> C) (a : list A) (b : list B) :
  length a = length b -> bcast2 f a b = inr (zip_with f a b).
Proof. intros E. unfold bcast2. by rewrite E, Nat.eqb_refl. Qed.

Lemma px_nearest (h w : nat) (q : img) (y x : nat) :
  px (interpolate_nearest h w q) y x =
    if decide ((y < h)%nat /\ (x < w)%nat)
    then Some (default 0 (px q (nearest_index (img_h q) h y) (nearest_index (img_w q) w x)))
    else None.
Proof.
  unfold px at 1, interpolate_nearest. rewrite list_lookup_fmap.
  destruct (decide (y < h)%nat) as [Hy|Hy].
  - rewrite (lookup_seq_lt _ _ _ Hy). simpl. rewrite list_lookup_fmap.
    destruct (decide (x < w)%nat) as [Hx|Hx].
    + rewrite (lookup_seq_lt _ _ _ Hx). simpl.
      rewrite decide_True by done. f_equal. unfold px.
      by destruct (q !! _).
    + rewrite lookup_seq_ge by lia. simpl. rewrite decide_False; [done|lia].
  - rewrite lookup_seq_ge by lia. simpl. rewrite decide_False; [done|lia].
Qed.

Lemma img_h_imap1 (f : Q -> Q) (m : img) : img_h (imap1 f m) = img_h m.
Proof. unfold img_h, imap1. by rewrite length_fmap. Qed.

Lemma img_w_imap1 (f : Q -> Q) (m : img) : img_w (imap1 f m) = img_w m.
Proof. unfold img_w, imap1. destruct m; simpl; [done|]. by rewrite length_fmap. Qed.

(** Regrouping a flattened (p t) axis gives back the rows. *)
Lemma regroup_concat {A : Type} (n : nat) (rows : list (list A)) :
  Forall (fun r => length r = n) rows ->
  (fun i => take n (drop (i * n) (concat rows))) <$> seq 0 (length rows) = rows.
Proof.
  induction 1 as [|r rows Hr _ IH]; [done|].
  cbn [length seq fmap list_fmap concat]. f_equal.
  - rewrite Nat.mul_0_l, drop_0. by rewrite take_app_length'.
  - rewrite <- fmap_S_seq, <- list_fmap_compose. rewrite <- IH at 2.
    apply list_fmap_ext. intros _ i _. cbn [compose].
    replace (S i * n)%nat with (length r + i * n)%nat by lia.
    by rewrite drop_app_add.
Qed.

Lemma fmap_concat {A B : Type} (f : A -> B) (rows : list (list A)) :
  f <$> concat rows = concat (fmap (M:=list) f <$> rows).
Proof. induction rows as [|r rows IH]; simpl; [done|]. by rewrite fmap_app, IH. Qed.

Lemma rearrange_pt_concat {A : Type} (n : nat) (rows : list (list A)) :
  rows <> [] -> Forall (fun r => length r = n) rows ->
  rearrange_pt (length rows) (concat rows) = inr rows.
Proof.
  intros Hne Hall. unfold rearrange_pt.
  assert (length (concat rows) = (n * length rows)%nat) as Hlen.
  { clear Hne. induction Hall; simpl; [lia|]. rewrite length_app. lia. }
  assert (length rows <> 0%nat) as Hp by (destruct rows; simpl; [done|lia]).
  rewrite Hlen, Nat.Div0.mod_mul, Nat.div_mul by done.
  destruct (length rows =? 0)%nat eqn:E; [apply Nat.eqb_eq in E; lia|].
  simpl. f_equal. by apply regroup_concat.
Qed.

Lemma per_mask_length (d : Q) (n : nat) (a : option num_arg) :
  arg_fits n a -> length (per_mask d n a) = n.
Proof. destruct a as [[]|]; simpl; intros; by rewrite ?length_replicate. Qed.

Lemma masks_to_tensor_length (b : bool) (masks : masks_arg) (t : list img) :
  masks_to_tensor b masks = inr t -> length t = masks_len masks.
Proof.
  destruct masks as [m|ms|t']; simpl.
  - intros [= <-]. done.
  - destruct ms; [done|]. intros [= <-]. cbn. by rewrite length_fmap.
  - by intros [= <-].
Qed.

Lemma cover_decay_length (alpha : Q) (masks : list img) :
  length (cover_decay alpha masks) = length masks.
Proof. unfold cover_decay. destruct (Qltb 0 alpha); [|done]. by rewrite length_imap. Qed.

Lemma quantize_length (mode : string) (lvs nexts : list Q) (m m' : img) :
  length (quantize mode lvs nexts m) = length (quantize mode lvs nexts m').
Proof.
  unfold quantize. repeat case_match;
    by rewrite ?length_app, ?length_fmap, ?length_zip_with, ?length_replicate.
Qed.

Ltac inv_result :=
  repeat match goal with
    | H : inl _ = inr _ |- _ => discriminate H
    | H : inr _ = inr _ |- _ => injection H as H
    | H : mbind _ ?x = inr _ |- _ =>
        let E := fresh "E" in destruct x eqn:E; [discriminate H|]; cbn in H
    | H : (match ?x with inl _ => _ | inr _ => _ end) = inr _ |- _ =>
        let E := fresh "E" in destruct x eqn:E; [discriminate H|]; cbn in H
    | H : (let '(_, _) := ?x in _) = inr _ |- _ =>
        let E := fresh "E" in destruct x eqn:E; cbn in H
    end.

(** What [process_mask] returns: every region is its scaled mask,
    quantized against the schedule and resized to the latent grid. *)
Lemma process_mask_inv `{Collaborators} (self : pipeline) (masks : masks_arg)
    (strength std : option num_arg) (height width : nat) (ubm : bool)
    (ts : option (list Q)) (alpha : option Q)
    (fg : list (list img)) (blurred : list img) (std' : list Q) :
  arg_fits (masks_len masks) strength -> arg_fits (masks_len masks) std ->
  process_mask self masks strength std height width ubm ts alpha
    = inr (fg, blurred, std') ->
  exists base : list img,
    length base = masks_len masks /\
    fg = (fun m => interpolate Nearest (height / Pos.to_nat (vae_scale_factor self))
                     (width / Pos.to_nat (vae_scale_factor self))
                   <$> quantize (mask_type self) (schedule_levels self ts).1
                         (schedule_levels self ts).2 m) <$> base.
Proof.
  intros Hs Hd Hrun. unfold process_mask in Hrun.
  destruct (masks_to_tensor ubm masks) as [|t] eqn:Et; [done|]. cbn in Hrun.
  apply masks_to_tensor_length in Et.
  set (rs := interpolate Bilinear height width <$> t) in *.
  assert (length rs = masks_len masks) as Hrs by (subst rs; by rewrite length_fmap).
  clearbody rs. clear t Et.
  set (al := default (default_preprocess_mask_cover_alpha self) alpha) in *.
  set (stage1 := if Qltb 0 al then _ else _) in Hrun.
  assert (exists dm, stage1 = inr dm /\ length dm = masks_len masks) as (dm & -> & Hdm).
  { subst stage1. destruct (Qltb 0 al) eqn:Eal.
    - destruct rs as [|r rs']; [done|].
      eexists; split; [done|]. by rewrite cover_decay_length.
    - by eexists. }
  cbn in Hrun.
  destruct (schedule_levels self ts) as [lvs nexts] eqn:Elv.
  rewrite Hdm in Hrun.
  pose proof (per_mask_length (default_mask_std self) _ _ Hd) as Hstd.
  pose proof (per_mask_length (default_mask_strength self) _ _ Hs) as Hstr.
  set (sd := per_mask (default_mask_std self) _ std) in *.
  set (st := per_mask (default_mask_strength self) _ strength) in *.
  clearbody sd st.
  set (stage2 := if existsb (Qltb 0) sd then _ else _) in Hrun.
  assert (exists bm sd', stage2 = inr (bm, sd') /\ length bm = masks_len masks
                         /\ length sd' = masks_len masks) as (bm & sd' & -> & Hbm & Hsd').
  { subst stage2. destruct (existsb (Qltb 0) sd).
    - unfold gaussian_lowpass. rewrite bcast2_same_length by (rewrite length_fmap; lia).
      eexists _, _. split; [done|].
      rewrite length_zip_with, !length_fmap. split; lia.
    - eexists _, _. split; [done|]. split; lia. }
  cbn in Hrun.
  rewrite bcast2_same_length in Hrun by lia. cbn in Hrun.
  set (base := zip_with _ bm st) in *.
  assert (length base = masks_len masks) as Hbase.
  { subst base. rewrite length_zip_with. lia. }
  clearbody base.
  rewrite fmap_concat, <- list_fmap_compose in Hrun.
  set (F := _ ∘ _) in Hrun.
  assert (base <> []) as Hne.
  { intros ->. rewrite Hsd' in Hrun. simpl in Hbase. rewrite <- Hbase in Hrun. done. }
  replace (length sd') with (length (F <$> base)) in Hrun
    by (rewrite length_fmap; lia).
  destruct base as [|m0 base'] eqn:Eb; [done|]. rewrite <- Eb in *.
  rewrite (rearrange_pt_concat (length (quantize (mask_type self) lvs nexts m0)))
    in Hrun.
  - cbn in Hrun. injection Hrun as <- _ _. by exists base.
  - intros E. apply (f_equal length) in E. rewrite length_fmap in E.
    rewrite Eb in E. done.
  - apply Forall_fmap, Forall_forall. intros m _. subst F. cbn.
    rewrite length_fmap. apply quantize_length.
Qed.

Lemma quantize_discrete_mode (lvs nexts : list Q) (m : img) :
  quantize "discrete" lvs nexts m = (fun lv => quantize_discrete lv m) <$> lvs.
Proof. done. Qed.

Lemma px_nearest_discrete (h w : nat) (lv : Q) (m : img) (y x : nat) :
  px (interpolate_nearest h w (quantize_discrete lv m)) y x = Some 1 <->
  (y < h)%nat /\ (x < w)%nat /\
  exists v, px m (nearest_index (img_h m) h y) (nearest_index (img_w m) w x) = Some v
            /\ lv < v.
Proof.
  rewrite px_nearest. unfold quantize_discrete.
  rewrite img_h_imap1, img_w_imap1, px_imap1.
  destruct (decide _) as [[Hy Hx]|Hn].
  - destruct (px m _ _) as [v|]; simpl.
    + destruct (Qltb lv v) eqn:E.
      * apply Qltb_lt in E. split; [|done]. intros _. repeat split; try done. by exists v.
      * split; [done|]. intros (_ & _ & v' & [= <-] & Hlt).
        apply Qltb_lt in Hlt. congruence.
    + split; [done|]. by intros (_ & _ & v' & ? & _).
  - split; [done|]. intros (? & ? & _). tauto.
Qed.

(** C1. In discrete mode the coverage of every region grows with the step
    index: when the noise levels of the schedule are strictly decreasing
    and the per-region strengths and deviations are absent, numbers, or
    have one entry per mask, a pixel of a mask returned by [process_mask]
    that is 1 at step [t] is 1 at step [t + 1]. Without the condition on
    the deviations the property fails: the planes are regrouped by
    [len(std)], as the counterexample after the theorem shows. *)
Theorem discrete_coverage_monotone `{Collaborators} (self : pipeline)
    (masks : masks_arg) (strength std : option num_arg) (height width : nat)
    (use_boolean_mask : bool) (ts : option (list Q)) (alpha : option Q)
    (fg : list (list img)) (blurred : list img) (std' : list Q) :
  mask_type self = "discrete" ->
  strictly_decreasing (schedule_levels self ts).1 ->
  arg_fits (masks_len masks) strength -> arg_fits (masks_len masks) std ->
  process_mask self masks strength std height width use_boolean_mask ts alpha
    = inr (fg, blurred, std') ->
  forall (p t y x : nat) (region : list img) (now next : img),
    fg !! p = Some region -> region !! t = Some now -> region !! S t = Some next ->
    px now y x = Some 1 -> px next y x = Some 1.
Proof.
  intros Hmode Hdec Hs Hd Hrun p t y x region now next Hp Ht Ht' Hnow.
  destruct (process_mask_inv _ _ _ _ _ _ _ _ _ _ _ _ Hs Hd Hrun) as (base & _ & ->).
  rewrite list_lookup_fmap in Hp.
  destruct (base !! p) as [m|]; [|done]. injection Hp as <-.
  rewrite Hmode, quantize_discrete_mode in Ht, Ht'.
  rewrite <- list_fmap_compose, list_lookup_fmap in Ht, Ht'.
  destruct (_ !! t) as [lv|] eqn:Elv; [|done]. injection Ht as <-.
  destruct (_ !! S t) as [lv'|] eqn:Elv'; [|done]. injection Ht' as <-.
  cbn in *. apply px_nearest_discrete in Hnow as (Hy & Hx & v & Hv & Hlt).
  apply px_nearest_discrete. repeat split; try done.
  exists v. split; [done|]. eapply Qlt_trans; [|exact Hlt]. by eapply Hdec.
Qed.

Lemma toy_levels_decreasing : strictly_decreasing (noise_lvs Toy.smd).
Proof.
  intros i a b Ha Hb.
  do 4 (destruct i as [|i];
        [cbn in Ha, Hb; try discriminate Hb;
         injection Ha as <-; injection Hb as <-; reflexivity|]).
  discriminate Ha.
Qed.

Lemma discrete_coverage_monotone_witness :
  exists fg blurred std',
    process_mask Toy.smd (MaskTensor [Sample.upper]) None None 16 16 true None None
      = inr (fg, blurred, std') /\
    forall region now next,
      fg !! 0%nat = Some region -> region !! 1%nat = Some now ->
      region !! 2%nat = Some next ->
      px now 1 0 = Some 1 -> px next 1 0 = Some 1.
Proof.
  eexists _, _, _. split; [vm_compute; reflexivity|].
  intros region now next Hr Hn Hn'.
  eapply (discrete_coverage_monotone Toy.smd (MaskTensor [Sample.upper]) None None
            16 16 true None None);
    [reflexivity | exact toy_levels_decreasing | exact I | exact I
    | vm_compute; reflexivity | exact Hr | exact Hn | exact Hn'].
Defined.

(** The claim as stated, for every [std]: three masks with a list of two
    deviations that are not positive. Nothing is blurred, the planes are
    regrouped by [len(std)], and the second group holds the last two steps
    of the second mask followed by the steps of the third: a pixel that is
    1 at step 1 is 0 at step 2, under strictly decreasing noise levels. *)
Lemma discrete_coverage_counterexample :
  mask_type Toy.smd = "discrete" /\
  strictly_decreasing (schedule_levels Toy.smd None).1 /\
  ~ (forall fg blurred std',
       process_mask Toy.smd
         (MaskTensor [ones_img 16 16; imap1 (fun _ => 1 # 2) (ones_img 16 16);
                      zeros_img 16 16])
         None (Some (NumList [0; 0])) 16 16 true None (Some 0) = inr (fg, blurred, std') ->
       forall (p t y x : nat) (region : list img) (now next : img),
         fg !! p = Some region -> region !! t = Some now -> region !! S t = Some next ->
         px now y x = Some 1 -> px next y x = Some 1).
Proof.
  split; [reflexivity|]. split; [exact toy_levels_decreasing|].
  intros Hclaim.
  destruct (process_mask Toy.smd
              (MaskTensor [ones_img 16 16; imap1 (fun _ => 1 # 2) (ones_img 16 16);
                           zeros_img 16 16])
              None (Some (NumList [0; 0])) 16 16 true None (Some 0))
    as [e|[[fg blurred] std']] eqn:Hrun; [vm_compute in Hrun; discriminate Hrun|].
  specialize (Hclaim fg blurred std' eq_refl).
  vm_compute in Hrun. injection Hrun as <- _ _.
  specialize (Hclaim 1%nat 1%nat 0%nat 0%nat _ _ _ eq_refl eq_refl eq_refl eq_refl).
  discriminate Hclaim.
Qed.

(** ** Overlap decay *)

Lemma has_shape_px (h w : nat) (m : img) (y x : nat) :
  has_shape h w m -> is_Some (px m y x) <-> (y < h)%nat /\ (x < w)%nat.
Proof.
  intros [Hh Hw]. unfold px. split.
  - intros [v Hv]. destruct (m !! y) as [row|] eqn:Er; [|done]. simpl in Hv.
    split; [rewrite <- Hh; by eapply lookup_lt_Some|].
    rewrite Forall_lookup in Hw. rewrite <- (Hw _ _ Er). by eapply lookup_lt_Some.
  - intros [Hy Hx]. destruct (lookup_lt_is_Some_2 m y) as [row Er]; [lia|].
    rewrite Er. simpl. apply lookup_lt_is_Some_2.
    rewrite Forall_lookup in Hw. by rewrite (Hw _ _ Er).
Qed.

Lemma nonneg_px (m : img) (y x : nat) (v : Q) :
  nonneg m -> px m y x = Some v -> 0 <= v.
Proof.
  unfold nonneg, px. intros Hm Hv.
  destruct (m !! y) as [row|] eqn:Er; [|done]. simpl in Hv.
  eapply Forall_lookup_1; [|exact Hv]. eapply Forall_lookup_1; [exact Hm|exact Er].
Qed.

(** A pixel of a sum of planes over the batch: the sum of the pixels. *)
Lemma px_foldl_iadd (ms : list img) (acc : img) (y x : nat) (a : Q) :
  px acc y x = Some a ->
  Forall (fun m => is_Some (px m y x)) ms ->
  exists s, px (foldl iadd acc ms) y x = Some s /\
    (0 <= a -> Forall nonneg ms ->
     0 <= s /\ (0 < s <-> 0 < a \/ exists j m v, ms !! j = Some m /\ px m y x = Some v /\ 0 < v)).
Proof.
  revert acc a. induction ms as [|m ms IH]; intros acc a Ha Hall.
  - exists a. split; [done|]. intros Hpos _. split; [done|].
    split; [by left|]. intros [?|(j & ? & ? & ? & _)]; done.
  - apply Forall_cons in Hall as [[v Hv] Hall]. simpl.
    destruct (IH (iadd acc m) (a + v)) as (s & Hs & Hsum); [|done|].
    { unfold iadd. by rewrite px_imap2, Ha, Hv. }
    exists s. split; [done|]. intros Hpos Hnn.
    apply Forall_cons in Hnn as [Hm Hnn]. pose proof (nonneg_px _ _ _ _ Hm Hv) as Hv0.
    destruct Hsum as [Hs0 Hiff]; [|done|].
    { apply Qle_trans with (0 + 0); [done|]. by apply Qplus_le_compat. }
    split; [done|]. rewrite Hiff. split.
    + intros [Hav|(j & m' & v' & Hj & Hv' & Hlt)].
      * destruct (Qlt_le_dec 0 a) as [?|Hle]; [by left|]. right.
        exists 0%nat, m, v. repeat split; try done.
        assert (a == 0) as Ea by (by apply Qle_antisym).
        rewrite Ea, Qplus_0_l in Hav. done.
      * right. by exists (S j), m', v'.
    + intros [Ha0|(j & m' & v' & Hj & Hv' & Hlt)].
      * left. apply Qlt_le_trans with (a + 0); [by rewrite Qplus_0_r|].
        apply Qplus_le_compat; [apply Qle_refl|done].
      * destruct j as [|j].
        -- injection Hj as <-. rewrite Hv in Hv'. injection Hv' as <-.
           left. apply Qle_lt_trans with (a + 0).
           ++ by rewrite Qplus_0_r.
           ++ apply Qplus_lt_r. done.
        -- right. by exists j, m', v'.
Qed.

Lemma nonneg_pos (m : img) (y x : nat) (v : Q) :
  nonneg m -> px m y x = Some v -> ~ v == 0 <-> 0 < v.
Proof.
  intros Hm Hv. pose proof (nonneg_px _ _ _ _ Hm Hv) as H0. split.
  - intros Hne. apply Qle_lteq in H0 as [?|E]; [done|]. destruct Hne. by symmetry.
  - intros Hlt E. rewrite E in Hlt. by apply Qlt_irrefl in Hlt.
Qed.

(** The sum of the regions above [i] is positive exactly on the covered
    pixels. *)
Lemma covered_sum (masks : list img) (h w i y x : nat) (m : img) (v : Q) :
  Forall (has_shape h w) masks -> Forall nonneg masks ->
  masks !! i = Some m -> px m y x = Some v -> (i < length masks - 1)%nat ->
  exists s, px (isum (drop (i + 1) masks)) y x = Some s /\ (0 < s <-> covered masks i y x).
Proof.
  intros Hsh Hnn Hi Hv Hlt.
  assert ((y < h)%nat /\ (x < w)%nat) as Hyx.
  { eapply has_shape_px; [|by eexists]. eapply Forall_lookup_1; [exact Hsh|exact Hi]. }
  destruct (lookup_lt_is_Some_2 masks (S i)) as [m' Hm']; [lia|].
  replace (i + 1)%nat with (S i) by lia.
  rewrite (drop_S _ _ _ Hm'). simpl.
  assert (forall j mj, masks !! j = Some mj -> is_Some (px mj y x)) as Hdef.
  { intros j mj Hj. eapply has_shape_px; [|done].
    eapply Forall_lookup_1; [exact Hsh|exact Hj]. }
  destruct (Hdef _ _ Hm') as [a Ha].
  destruct (px_foldl_iadd (drop (S (S i)) masks) m' y x a Ha) as (s & Hs & Hsum).
  { apply Forall_forall. intros mj [j Hj]%list_elem_of_lookup.
    rewrite lookup_drop in Hj. by eapply Hdef. }
  exists s. split; [done|].
  destruct Hsum as [_ Hiff].
  { eapply nonneg_px; [|exact Ha]. eapply Forall_lookup_1; [exact Hnn|exact Hm']. }
  { apply Forall_forall. intros mj [j Hj]%list_elem_of_lookup.
    rewrite lookup_drop in Hj. eapply Forall_lookup_1; [exact Hnn|exact Hj]. }
  rewrite Hiff. split.
  - intros [Ha0|(j & mj & vj & Hj & Hvj & Hpos)].
    + exists (S i), m', a. repeat split; [lia|done|done|].
      eapply nonneg_pos; [|exact Ha|exact Ha0].
      eapply Forall_lookup_1; [exact Hnn|exact Hm'].
    + rewrite lookup_drop in Hj. exists (S (S i) + j)%nat, mj, vj.
      repeat split; [lia|done|done|].
      eapply nonneg_pos; [|exact Hvj|exact Hpos].
      eapply Forall_lookup_1; [exact Hnn|exact Hj].
  - intros (j & mj & vj & Hij & Hj & Hvj & Hne).
    assert (0 < vj) as Hpos.
    { eapply nonneg_pos; [|exact Hvj|exact Hne].
      eapply Forall_lookup_1; [exact Hnn|exact Hj]. }
    destruct (decide (j = S i)) as [->|Hneq].
    + left. rewrite Hm' in Hj. injection Hj as <-. rewrite Ha in Hvj.
      by injection Hvj as <-.
    + right. exists (j - S (S i))%nat, mj, vj. rewrite lookup_drop.
      replace (S (S i) + (j - S (S i)))%nat with j by lia. done.
Qed.

(** C4 (amended). For a positive factor [alpha] the overlap-decay step of
    [process_mask] multiplies the value of region [i] by [alpha] exactly
    on the pixels where a region of higher index is not zero, and leaves
    the other pixels and the last region unchanged; for [alpha <= 0], and
    so for [alpha = 0], the step is skipped and no mask changes. The masks
    are the planes of one tensor with non-negative values. *)
Theorem cover_decay_spec (alpha : Q) (masks : list img) (h w : nat) :
  Forall (has_shape h w) masks -> Forall nonneg masks ->
  (0 < alpha -> decay_rule alpha masks (cover_decay alpha masks)) /\
  (alpha <= 0 -> cover_decay alpha masks = masks).
Proof.
  intros Hsh Hnn. split.
  - intros Hpos. apply Qltb_lt in Hpos as Hb. unfold decay_rule, cover_decay.
    rewrite Hb. split; [by rewrite length_imap|]. split.
    + intros i m y x v Hi Hv. rewrite list_lookup_imap, Hi. simpl.
      eexists. split; [done|].
      destruct (i <? length masks - 1)%nat eqn:Elt.
      * apply Nat.ltb_lt in Elt.
        destruct (covered_sum masks h w i y x m v Hsh Hnn Hi Hv Elt) as (s & Hs & Hiff).
        rewrite px_imap2, Hs, Hv. simpl. split.
        -- intros Hc. apply Hiff, Qltb_lt in Hc. by rewrite Hc.
        -- intros Hc. destruct (Qltb 0 s) eqn:E; [|done].
           apply Qltb_lt, Hiff in E. done.
      * apply Nat.ltb_ge in Elt. split; [|done].
        intros (j & mj & vj & Hij & Hj & _). apply lookup_lt_Some in Hj. lia.
    + rewrite !last_lookup, length_imap, list_lookup_imap.
      destruct (masks !! _) as [m|]; [|done]. simpl.
      replace (Nat.pred (length masks) <? length masks - 1)%nat with false; [done|].
      symmetry. apply Nat.ltb_ge. lia.
  - intros Hle. unfold cover_decay.
    destruct (Qltb 0 alpha) eqn:E; [|done].
    apply Qltb_lt in E. exfalso. eapply Qlt_irrefl, Qlt_le_trans; [exact E|exact Hle].
Qed.

Lemma cover_decay_spec_witness :
  decay_rule (3 # 10) [[[1; 1]]; [[0; 1]]] (cover_decay (3 # 10) [[[1; 1]]; [[0; 1]]])
  /\ cover_decay 0 [[[1; 1]]; [[0; 1]]] = [[[1; 1]]; [[0; 1]]].
Proof.
  assert (Forall (has_shape 1 2) [[[1; 1]]; [[0; 1]]]) as Hsh
    by (repeat constructor).
  assert (Forall nonneg [[[1; 1]]; [[0; 1]]]) as Hnn
    by (repeat constructor; discriminate).
  split.
  - apply (cover_decay_spec (3 # 10) _ 1 2 Hsh Hnn). reflexivity.
  - apply (cover_decay_spec 0 _ 1 2 Hsh Hnn). discriminate.
Defined.

(** The claim as stated, with [alpha = 0]: the lower of two regions that
    cover the same pixel keeps its value instead of being multiplied by 0. *)
Lemma cover_decay_zero_counterexample :
  0 <= 0 <= 1 /\
  ~ decay_rule 0 [[[1]]; [[1]]] (cover_decay 0 [[[1]]; [[1]]]).
Proof.
  split; [split; discriminate|].
  intros (_ & Hpx & _).
  destruct (Hpx 0%nat [[1]] 0%nat 0%nat 1 eq_refl eq_refl) as (o & Ho & Hc & _).
  injection Ho as <-.
  assert (covered [[[1]]; [[1]]] 0 0 0) as Hcov.
  { exists 1%nat, [[1]], 1. repeat split; [lia|discriminate]. }
  specialize (Hc Hcov). discriminate Hc.
Qed.

(** ** Quantization *)

Lemma quantize_continuous_px (lv next : Q) (m : img) (y x : nat) :
  px (quantize_continuous lv next m) y x
    = (fun v => clip 0 1 ((v - next) / (lv - next))) <$> px m y x.
Proof. apply px_imap1. Qed.

(** Between two thresholds the continuous mask is 1 exactly where the
    mask value reaches the upper threshold, the threshold included. *)
Lemma continuous_full_iff (lv next v : Q) :
  next < lv -> clip 0 1 ((v - next) / (lv - next)) == 1 <-> lv <= v.
Proof.
  intros Hlt. unfold clip.
  assert (0 < lv - next) as Hd by (by apply Qlt_minus_iff in Hlt).
  rewrite Q.min_r_iff, Q.max_le_iff.
  split.
  - intros [Hq|H0]; [|by apply Qle_not_lt in H0].
    apply (Qmult_le_r _ _ _ Hd) in Hq.
    unfold Qdiv in Hq. rewrite <- Qmult_assoc, (Qmult_comm (/ _)), Qmult_inv_r in Hq.
    + rewrite Qmult_1_l, Qmult_1_r in Hq.
      apply (Qplus_le_l _ _ (- next)). exact Hq.
    + intros E. rewrite E in Hd. by apply Qlt_irrefl in Hd.
  - intros Hle. left. apply Qle_shift_div_l; [done|].
    rewrite Qmult_1_l. by apply Qplus_le_l.
Qed.

Lemma discrete_full_iff (lv v : Q) :
  (if Qltb lv v then 1 else 0) == 1 <-> lv < v.
Proof.
  destruct (Qltb lv v) eqn:E.
  - apply Qltb_lt in E. done.
  - apply Qltb_ge in E. split; [done|]. intros Hlt. by apply Qle_not_lt in E.
Qed.

(** C5. At a pixel whose mask value equals the noise level of the step
    the continuous mask is 1 while the discrete mask is 0: the two modes
    do not have the same coverage there. *)
Theorem continuous_boundary_differs :
  let mask := MaskTensor [replicate 8 (replicate 8 (3 # 5))] in
  noise_lvs Toy.smd !! 0%nat = Some (3 # 5) /\
  (exists c, mask_px (process_mask (with_mask_type "continuous" Toy.smd) mask
                        None None 8 8 true None None) 0 0 0 0 = Some c /\ c == 1) /\
  mask_px (process_mask (with_mask_type "discrete" Toy.smd) mask
             None None 8 8 true None None) 0 0 0 0 = Some 0.
Proof.
  split; [reflexivity|]. split; [|vm_compute; reflexivity].
  eexists. split; [vm_compute; reflexivity|]. reflexivity.
Qed.

(** ** Runs of the state and error monad *)

Lemma bind_inr {A B : Type} (m : M A) (f : A -> M B) (w w' : world) (b : B) :
  (m ≫= f) w = (inr b, w') ->
  exists a w1, m w = (inr a, w1) /\ f a w1 = (inr b, w').
Proof.
  unfold mbind, M_bind. destruct (m w) as [[e|a] w1]; [done|]. by exists a, w1.
Qed.

Lemma bind_run {A B : Type} (m : M A) (f : A -> M B) (w w1 : world) (a : A) :
  m w = (inr a, w1) -> (m ≫= f) w = f a w1.
Proof. intros E. unfold mbind, M_bind. by rewrite E. Qed.

Lemma lift_inr {A : Type} (r : result A) (w w' : world) (a : A) :
  lift r w = (inr a, w') -> r = inr a /\ w' = w.
Proof. unfold lift. by intros [= -> ->]. Qed.

Lemma mret_inr {A : Type} (x a : A) (w w' : world) :
  mret (M:=M) x w = (inr a, w') -> a = x /\ w' = w.
Proof. unfold mret, M_ret. by intros [= -> ->]. Qed.


(** ** The accumulators and the merge *)







Lemma px_add_view (v : view) (acc t : img) (y x : nat) :
  px (add_view v acc t) y x =
    (fun a => if in_view v y x
              then a + default 0 (px t (y - v.1.1.1) (x - v.1.2)) else a) <$> px acc y x.
Proof.
  unfold px at 1 3, add_view. rewrite list_lookup_imap.
  destruct (acc !! y) as [row|]; [|done]. simpl. by rewrite list_lookup_imap.
Qed.

Lemma lpx_mask_mul (m : img) (l : latent) (c y x : nat) :
  lpx (mask_mul m l) c y x = u ← px m y x; v ← lpx l c y x; Some (u * v).
Proof.
  unfold lpx, mask_mul. rewrite list_lookup_fmap.
  destruct (l !! c) as [plane|]; simpl.
  - apply px_imap2.
  - by destruct (px m y x).
Qed.


Lemma px_foldl_iadd_defined (ms : list img) (acc : img) (y x : nat) :
  is_Some (px (foldl iadd acc ms) y x) ->
  is_Some (px acc y x) /\ Forall (fun m => is_Some (px m y x)) ms.
Proof.
  revert acc. induction ms as [|m ms IH]; intros acc Hs; simpl in *; [done|].
  destruct (IH _ Hs) as [Hacc Hms]. unfold iadd in Hacc. rewrite px_imap2 in Hacc.
  destruct (px acc y x) as [a|]; [|by destruct Hacc].
  destruct (px m y x) as [v|] eqn:Ev; [|by destruct Hacc].
  split; [by eexists|]. constructor; [|done]. rewrite Ev. by eexists.
Qed.









Section accumulators.
Context `{Collaborators}.
Variables (num_masks : nat) (bootstrap_steps : Z)
  (boostrap_mix_steps bootstrap_leak_sensitivity : Q) (has_background : bool)
  (noise_bg_latents : list latent) (white : option latent) (noise : latent)
  (do_classifier_free_guidance : bool) (guidance_scale guidance_rescale : Q)
  (prompt_embeds pooled_prompt_embeds : list embed)
  (views : list view) (tile_masks : list img).

Hypothesis sigmoid_half : forall x, 0 <= x -> 1 # 2 <= sigmoid x.
Hypothesis sensitivity_nonneg : 0 <= bootstrap_leak_sensitivity.
Hypothesis tile_masks_nonneg : Forall nonneg tile_masks.




End accumulators.



(** ** Guidance *)

(** C7 (amended). Guidance is active only for a guidance scale above 1:
    then the two halves of the denoiser output on the doubled batch are
    combined by [uncond + scale * (cond - uncond)], which is the prediction
    used by the step when no rescale is asked for. For a scale of at most
    1, and so for 0, the denoiser runs on the embeddings of the prompts
    only and its output is the prediction used by the step. *)
Theorem guidance_rule `{Collaborators} (gs gr : Q) (pe ppe : list embed) (t : Q)
    (x : list latent) (w : world) :
  (1 < gs -> gr <= 0 -> forall uncond cond : list latent,
     transformer (x ++ x) t pe ppe = inr (uncond ++ cond) ->
     length uncond = length cond -> cond <> [] ->
     predict (classifier_free gs) gs gr pe ppe t x w
       = (inr (zip_with (lmap2 (fun u c => u + gs * (c - u))) uncond cond),
          World (obj w) (rng w) (calls w ++ [EvTransformer])))
  /\ (gs <= 1 ->
      predict (classifier_free gs) gs gr pe ppe t x w
        = (transformer x t pe ppe, World (obj w) (rng w) (calls w ++ [EvTransformer]))).
Proof.
  split.
  - intros Hgs Hgr uncond cond Hrun Hlen Hne.
    unfold predict, classifier_free. apply Qltb_lt in Hgs as ->.
    unfold mbind at 1, M_bind, emit. unfold mbind at 1, M_bind, lift.
    rewrite Hrun. unfold guide.
    replace ((length (uncond ++ cond) + 1) / 2)%nat with (length uncond).
    2:{ rewrite length_app, <- Hlen.
        replace (length uncond + length uncond + 1)%nat
          with (1 + length uncond * 2)%nat by lia.
        by rewrite Nat.div_add. }
    rewrite take_app_length, drop_app_length.
    destruct cond as [|c cond']; [done|].
    rewrite bcast2_same_length by done.
    unfold mbind, M_bind, lift.
    destruct (Qltb 0 gr) eqn:E; [|done].
    apply Qltb_lt in E. exfalso. eapply Qlt_irrefl, Qlt_le_trans; [exact E|exact Hgr].
  - intros Hgs. unfold predict, classifier_free.
    apply Qltb_ge in Hgs as ->.
    unfold mbind at 1, M_bind, emit. unfold mbind, M_bind, lift, guide.
    by destruct (transformer x t pe ppe).
Qed.

Lemma guidance_rule_witness :
  predict (classifier_free 2) 2 0 [[5]; [2]] [[5]; [2]] (750 # 1) [[[[1]]]] Toy.world0
    = (inr [[[[1 * 5 + 2 * (1 * 2 - 1 * 5)]]]], World Toy.smd 0 [EvTransformer])
  /\ predict (classifier_free 0) 0 (7 # 10) [[2]] [[2]] (750 # 1) [[[[1]]]] Toy.world0
    = (inr [[[[1 * 2]]]], World Toy.smd 0 [EvTransformer]).
Proof.
  destruct (guidance_rule 2 0 [[5]; [2]] [[5]; [2]] (750 # 1) [[[[1]]]] Toy.world0)
    as [Hon _].
  destruct (guidance_rule 0 (7 # 10) [[2]] [[2]] (750 # 1) [[[[1]]]] Toy.world0)
    as [_ Hoff].
  split.
  - apply (Hon eq_refl ltac:(discriminate) [[[[1 * 5]]]] [[[[1 * 2]]]] eq_refl eq_refl).
    discriminate.
  - apply Hoff. discriminate.
Defined.

(** The claim as stated, at guidance scale 0: the prediction used by the
    step is the one for the prompt, not the unconditional one. *)
Lemma guidance_zero_counterexample :
  let x := [[[[1]]]] in
  let negative := [[5]] in
  let positive := [[2]] in
  exists uncond cond pred w',
    transformer x (750 # 1) negative negative = inr uncond /\
    transformer x (750 # 1) positive positive = inr cond /\
    predict (classifier_free 0) 0 (7 # 10) positive positive (750 # 1) x Toy.world0
      = (inr pred, w') /\
    pred = cond /\ pred <> uncond.
Proof.
  eexists _, _, _, _. repeat split; try (vm_compute; reflexivity). discriminate.
Qed.

(** ** The simplest cases of the main routine *)

(** C10. Called without prompts ([None] or an empty one) and without a
    background prompt, the routine returns its [background] argument as it
    is: no network runs and the world is left as it was. *)
Theorem call_without_prompts `{Collaborators} (a : call_args) (w : world) :
  no_prompts (prompts a) = true -> background_prompt a = None ->
  __call__ a w = (inr (background a), w).
Proof.
  intros Hp Hb. unfold __call__. rewrite Hp, Hb. by destruct (background a).
Qed.

Lemma call_without_prompts_witness :
  __call__ (Sample.args None (Some (MaskTensor [Sample.upper]))
              (Some (PicTensor [[[1]]])) None None) Toy.world0
    = (inr (Some (PicTensor [[[1]]])), Toy.world0)
  /\ __call__ (Sample.args (Some (PList [])) None None None None) Toy.world0
    = (inr None, Toy.world0).
Proof.
  split.
  - apply (call_without_prompts
             (Sample.args None (Some (MaskTensor [Sample.upper]))
                (Some (PicTensor [[[1]]])) None None) Toy.world0); reflexivity.
  - apply (call_without_prompts (Sample.args (Some (PList [])) None None None None)
             Toy.world0); reflexivity.
Defined.

(** ** The cache of the white latent *)

(** A cached latent smaller than the requested image is encoded anew. *)
Lemma white_cache_miss `{Collaborators} (height width : nat) (w : world) (wh : latent) :
  white (obj w) = Some wh ->
  (shape_m2 wh < height)%nat \/ (shape_m1 wh < width)%nat ->
  calls (get_white_background height width w).2 = calls w ++ [EvEncode]
  /\ rng (get_white_background height width w).2 = S (rng w).
Proof.
  intros Hwh Hlt.
  assert ((shape_m2 wh <? height)%nat || (shape_m1 wh <? width)%nat = true) as Hb.
  { apply orb_true_iff. destruct Hlt as [?|?]; [left|right]; by apply Nat.ltb_lt. }
  unfold get_white_background, encode_imgs, draw, emit, update_self, get_self,
    mbind, M_bind, mret, M_ret.
  simpl. by rewrite Hwh, Hb.
Qed.

(** C8. A second request for a size seen before encodes the white image
    again instead of reusing the stored latent, and a request that is
    larger in one direction only replaces the stored latent by one that is
    smaller in the other. *)
Theorem white_cache_reencodes :
  let w1 := (get_white_background 16 16 Toy.world0).2 in
  let w2 := (get_white_background 16 16 w1).2 in
  let w3 := (get_white_background 8 32 w2).2 in
  calls w1 = [EvEncode] /\
  (shape_m2 <$> white (obj w1), shape_m1 <$> white (obj w1)) = (Some 2%nat, Some 2%nat) /\
  calls w2 = [EvEncode; EvEncode] /\
  calls w3 = [EvEncode; EvEncode; EvEncode] /\
  (shape_m2 <$> white (obj w3), shape_m1 <$> white (obj w3)) = (Some 1%nat, Some 4%nat).
Proof. vm_compute. repeat split. Qed.

(** ** Prompt, mask and negative-prompt counts *)

(** A number of prompts that is neither the number of masks nor 1 is turned
    down with both counts in the message, before anything runs. *)
Lemma prompt_count_rejected `{Collaborators} (a : call_args) (p : prompts_arg)
    (m : masks_arg) (w : world) :
  num_inference_steps a = None ->
  let num_masks := masks_len m in
  let num_prompts := length (as_list p) in
  num_prompts <> num_masks -> num_prompts <> 1%nat ->
  generate a p m w
    = (inl (AssertionError ("The number of prompts " +:+ pretty num_prompts +:+
                            " should match the number of masks " +:+ pretty num_masks +:+ "!")),
       w).
Proof.
  intros Hn num_masks num_prompts Hm H1. unfold generate. rewrite Hn.
  unfold mbind at 1, M_bind, mret at 1, M_ret.
  unfold mbind at 1, M_bind, get_self.
  replace (masks_len match m with MaskImage m0 => MaskList [m0] | _ => m end)
    with num_masks by (by destruct m).
  fold num_prompts. unfold check_counts.
  replace ((num_prompts =? num_masks)%nat || (num_prompts =? 1)%nat) with false; [done|].
  symmetry. apply orb_false_iff. split; by apply Nat.eqb_neq.
Qed.

Lemma negative_count_rejected `{Collaborators} (a : call_args) (p : prompts_arg)
    (m : masks_arg) (w : world) :
  num_inference_steps a = None ->
  let num_masks := masks_len m in
  let num_prompts := length (as_list p) in
  let num_nprompts := length (as_list (negative_prompts a)) in
  num_prompts = num_masks \/ num_prompts = 1%nat ->
  num_nprompts <> num_prompts -> num_nprompts <> 1%nat ->
  generate a p m w
    = (inl (AssertionError ("The number of negative prompts " +:+ pretty num_nprompts +:+
                            " should match the number of prompts " +:+ pretty num_prompts +:+ "!")),
       w).
Proof.
  intros Hn num_masks num_prompts num_nprompts Hok Hm H1. unfold generate. rewrite Hn.
  unfold mbind at 1, M_bind, mret at 1, M_ret.
  unfold mbind at 1, M_bind, get_self.
  replace (masks_len match m with MaskImage m0 => MaskList [m0] | _ => m end)
    with num_masks by (by destruct m).
  fold num_prompts num_nprompts. unfold check_counts.
  replace ((num_prompts =? num_masks)%nat || (num_prompts =? 1)%nat) with true.
  2:{ symmetry. apply orb_true_iff. destruct Hok; [left|right]; by apply Nat.eqb_eq. }
  replace ((num_nprompts =? num_prompts)%nat || (num_nprompts =? 1)%nat) with false; [done|].
  symmetry. apply orb_false_iff. split; by apply Nat.eqb_neq.
Qed.

(** C9. One prompt for two masks given as a list of images, the case the
    broadcast is made for: the routine stops on [masks.shape] after the
    masks and the prompts were processed, and no denoising step has run.
    One negative prompt for two prompts in front of a background, under
    guidance: the routine stops on an assertion without a message. *)
Theorem count_broadcast_raises :
  let one_prompt :=
    __call__ (Sample.args (Some (PStr "a cat"))
                (Some (MaskList [Sample.upper_image; Sample.left_image]))
                None None None) Toy.world0 in
  let one_negative :=
    __call__ (Sample.args (Some (PList ["a cat"; "a dog"]))
                (Some (MaskTensor [Sample.upper; Sample.left]))
                None None (Some 2)) Toy.world0 in
  one_prompt.1 = inl (AttributeError "'list' object has no attribute 'shape'") /\
  calls one_prompt.2 = [EvEncode; EvEncode; EvEncodePrompt] /\
  one_negative.1 = inl (AssertionError "") /\
  calls one_negative.2 = [EvEncode; EvEncode; EvEncodePrompt].
Proof. vm_compute. repeat split. Qed.

(** ** Order of the regions *)

(** *** Two runs side by side *)

Lemma sim_ret {A : Type} (R : A -> A -> Prop) (a a' : A) :
  R a a' -> sim R (mret a) (mret a').
Proof. intros Ha w. by split. Qed.

Lemma sim_bind {A B : Type} (R : A -> A -> Prop) (S : B -> B -> Prop)
    (m m' : M A) (f f' : A -> M B) :
  sim R m m' -> (forall a a', R a a' -> sim S (f a) (f' a')) ->
  sim S (m ≫= f) (m' ≫= f').
Proof.
  intros Hm Hf w. unfold mbind, M_bind. destruct (Hm w) as [Hw Hr].
  destruct (m w) as [[e|a] w1], (m' w) as [[e'|a'] w1']; simpl in *; subst; try done.
  by apply Hf.
Qed.

Lemma sim_refl {A : Type} (m : M A) : sim eq m m.
Proof. intros w. split; [done|]. by destruct (m w) as [[e|a] w1]. Qed.

Lemma sim_eq {A : Type} (m m' : M A) (w : world) : sim eq m m' -> m w = m' w.
Proof.
  intros H. destruct (H w) as [Hw Hr].
  destruct (m w) as [[e|a] w1], (m' w) as [[e'|a'] w1']; simpl in *; subst; done.
Qed.

Lemma sim_lift {A : Type} (R : A -> A -> Prop) (r r' : result A) :
  rel_result R r r' -> sim R (lift r) (lift r').
Proof. intros Hr w. by split. Qed.

Lemma sim_bind_inr {A B : Type} (S : B -> B -> Prop) (a a' : A) (f f' : A -> M B) :
  sim S (f a) (f' a') -> sim S (lift (inr a) ≫= f) (lift (inr a') ≫= f').
Proof. intros Hf w. exact (Hf w). Qed.

Lemma sim_bind_ret {A B : Type} (S : B -> B -> Prop) (a a' : A) (f f' : A -> M B) :
  sim S (f a) (f' a') -> sim S (mret a ≫= f) (mret a' ≫= f').
Proof. intros Hf w. exact (Hf w). Qed.

Lemma sim_raise {A : Type} (R : A -> A -> Prop) (e : py_error) :
  sim R (raise e) (raise e).
Proof. intros w. by split. Qed.

Lemma sim_weaken {A : Type} (R S : A -> A -> Prop) (m m' : M A) :
  (forall a a', R a a' -> S a a') -> sim R m m' -> sim S m m'.
Proof.
  intros HRS Hm w. destruct (Hm w) as [Hw Hr]. split; [done|].
  destruct (m w).1, (m' w).1; simpl in *; try done. by apply HRS.
Qed.

Lemma sim_for_each {A S : Type} (R : S -> S -> Prop) (xs : list A)
    (body body' : A -> S -> M S) (s s' : S) :
  (forall x t t', x ∈ xs -> R t t' -> sim R (body x t) (body' x t')) ->
  R s s' -> sim R (for_each xs body s) (for_each xs body' s').
Proof.
  revert s s'. induction xs as [|x xs IH]; intros s s' Hbody Hs; simpl.
  - by apply sim_ret.
  - eapply sim_bind; [apply Hbody; [by left|done]|].
    intros t t' Ht. apply IH; [|done]. intros y u u' Hy. apply Hbody. by right.
Qed.

(** *** Sums that do not depend on the order *)

Lemma Qplus_comm_L (a b : Q) : a + b = b + a.
Proof.
  destruct a as [an ad], b as [bn bd]. unfold Qplus. simpl.
  f_equal; [lia|apply Pos.mul_comm].
Qed.

Lemma Qplus_assoc_L (a b c : Q) : a + (b + c) = a + b + c.
Proof.
  destruct a as [an ad], b as [bn bd], c as [cn cd]. unfold Qplus. simpl.
  f_equal; [|apply Pos.mul_assoc].
  rewrite !Pos2Z.inj_mul. ring.
Qed.

Lemma zip_with_comm_L {A : Type} (f : A -> A -> A) (a b : list A) :
  (forall x y, f x y = f y x) -> zip_with f a b = zip_with f b a.
Proof.
  intros Hf. revert b. induction a as [|x a IH]; intros [|y b]; simpl; try done.
  by rewrite Hf, IH.
Qed.

Lemma zip_with_assoc_L {A : Type} (f : A -> A -> A) (a b c : list A) :
  (forall x y z, f x (f y z) = f (f x y) z) ->
  zip_with f a (zip_with f b c) = zip_with f (zip_with f a b) c.
Proof.
  intros Hf. revert b c. induction a as [|x a IH]; intros [|y b] [|z c]; simpl; try done.
  by rewrite Hf, IH.
Qed.

Lemma foldl_perm {A : Type} (f : A -> A -> A) (l l' : list A) (a : A) :
  (forall x y, f x y = f y x) -> (forall x y z, f x (f y z) = f (f x y) z) ->
  l ≡ₚ l' -> foldl f a l = foldl f a l'.
Proof.
  intros Hc Ha Hp. revert a. induction Hp as [|x l l' _ IH|x y l|l l1 l2 _ IH1 _ IH2];
    intros a; simpl.
  - done.
  - apply IH.
  - f_equal. rewrite <- !Ha. f_equal. apply Hc.
  - by rewrite IH1.
Qed.

Lemma sum_with_perm {A : Type} (f : A -> A -> A) (l l' : list A) :
  (forall x y, f x y = f y x) -> (forall x y z, f x (f y z) = f (f x y) z) ->
  l ≡ₚ l' -> sum_with f l = sum_with f l'.
Proof.
  intros Hc Ha Hp. induction Hp as [|x l l' Hp _|x y l|l l1 l2 _ IH1 _ IH2]; simpl.
  - done.
  - f_equal. by apply foldl_perm.
  - f_equal. f_equal. apply Hc.
  - by rewrite IH1.
Qed.

Lemma iadd_comm (a b : img) : iadd a b = iadd b a.
Proof.
  unfold iadd, imap2. apply zip_with_comm_L. intros x y.
  apply zip_with_comm_L, Qplus_comm_L.
Qed.

Lemma iadd_assoc (a b c : img) : iadd a (iadd b c) = iadd (iadd a b) c.
Proof.
  unfold iadd, imap2. apply zip_with_assoc_L. intros x y z.
  apply zip_with_assoc_L, Qplus_assoc_L.
Qed.

Lemma ladd_comm (a b : latent) : ladd a b = ladd b a.
Proof. unfold ladd, lmap2. apply zip_with_comm_L, iadd_comm. Qed.

Lemma ladd_assoc (a b c : latent) : ladd a (ladd b c) = ladd (ladd a b) c.
Proof. unfold ladd, lmap2. apply zip_with_assoc_L, iadd_assoc. Qed.

Lemma isum_perm (l l' : list img) : l ≡ₚ l' -> isum l = isum l'.
Proof.
  intros Hp. pose proof (sum_with_perm iadd l l' iadd_comm iadd_assoc Hp) as E.
  destruct l, l'; simpl in *; congruence.
Qed.

Lemma lsum_perm (l l' : list latent) : l ≡ₚ l' -> lsum l = lsum l'.
Proof.
  intros Hp. pose proof (sum_with_perm ladd l l' ladd_comm ladd_assoc Hp) as E.
  destruct l, l'; simpl in *; congruence.
Qed.

Lemma sum_regions_perm (l l' : list (list img)) : l ≡ₚ l' -> sum_regions l = sum_regions l'.
Proof.
  intros Hp.
  pose proof (sum_with_perm (zip_with iadd) l l'
                (fun a b => zip_with_comm_L iadd a b iadd_comm)
                (fun a b c => zip_with_assoc_L iadd a b c iadd_assoc) Hp) as E.
  destruct l, l'; simpl in *; congruence.
Qed.

(** *** Batches in two orders *)

Lemma bcast2_single_r {A B C : Type} (f : A -> B -> C) (a : list A) (y : B) :
  bcast2 f a [y] = inr ((fun x => f x y) <$> a).
Proof.
  unfold bcast2. destruct a as [|x [|x' a]]; simpl; done.
Qed.

Lemma bcast2_single_l {A B C : Type} (f : A -> B -> C) (x : A) (b : list B) :
  bcast2 f [x] b = inr (f x <$> b).
Proof.
  unfold bcast2. destruct b as [|y [|y' b]]; simpl; done.
Qed.

Lemma bcast2_mismatch {A B C : Type} (f : A -> B -> C) (a : list A) (b : list B) :
  length a <> length b -> length a <> 1%nat -> length b <> 1%nat ->
  bcast2 f a b = inl (RuntimeError "The size of tensor a must match the size of tensor b").
Proof.
  intros Hab Ha Hb. unfold bcast2.
  destruct (length a =? length b)%nat eqn:E; [by apply Nat.eqb_eq in E|].
  destruct a as [|x [|x' a]], b as [|y [|y' b]]; simpl in *; done.
Qed.

Section orders.
Context {rs rs' : list region}.
Hypothesis order : rs ≡ₚ rs'.

Lemma co_length {A : Type} (k : nat) (l l' : list A) :
  co rs rs' k l l' -> length l = (k + length rs)%nat /\ length l' = (k + length rs)%nat.
Proof.
  intros (pre & f & <- & -> & ->). rewrite !length_app, !length_fmap.
  by rewrite (Permutation_length order).
Qed.

Lemma co_perm {A : Type} (k : nat) (l l' : list A) : co rs rs' k l l' -> l ≡ₚ l'.
Proof.
  intros (pre & f & _ & -> & ->). apply Permutation_app_head. by apply fmap_Permutation.
Qed.

Lemma co_fmap {A B : Type} (g : A -> B) (k : nat) (l l' : list A) :
  co rs rs' k l l' -> co rs rs' k (g <$> l) (g <$> l').
Proof.
  intros (pre & f & Hk & -> & ->). exists (g <$> pre), (g ∘ f).
  rewrite length_fmap, !fmap_app, <- !list_fmap_compose. done.
Qed.

Lemma co_map {A : Type} (f : region -> A) : co rs rs' 0 (f <$> rs) (f <$> rs').
Proof. by exists [], f. Qed.

Lemma co_replicate {A : Type} (x : A) :
  co rs rs' 0 (replicate (length rs) x) (replicate (length rs') x).
Proof.
  exists [], (fun _ => x). split; [done|]. simpl.
  split; symmetry; by apply const_fmap.
Qed.

Lemma co_cons {A : Type} (x : A) (k : nat) (l l' : list A) :
  co rs rs' k l l' -> co rs rs' (S k) (x :: l) (x :: l').
Proof.
  intros (pre & f & Hk & -> & ->). exists (x :: pre), f. simpl. by rewrite Hk.
Qed.

Lemma co_zip_with {A B C : Type} (g : A -> B -> C) (k : nat) (a a' : list A)
    (b b' : list B) :
  co rs rs' k a a' -> co rs rs' k b b' ->
  co rs rs' k (zip_with g a b) (zip_with g a' b').
Proof.
  intros (pa & fa & Hka & -> & ->) (pb & fb & Hkb & -> & ->).
  exists (zip_with g pa pb), (fun r => g (fa r) (fb r)).
  rewrite length_zip_with, Hka, Hkb, Nat.min_id. split; [done|].
  rewrite !zip_with_app by lia. rewrite !zip_with_fmap_l, !zip_with_fmap_r.
  split; f_equal; by rewrite zip_with_diag.
Qed.

Hypothesis several : (2 <= length rs)%nat.

(** Broadcasting two batches in two orders: rows meet rows of the same
    region, or the sizes do not fit in either order. *)
Lemma co_bcast2 {A B C : Type} (g : A -> B -> C) (ka kb : nat) (a a' : list A)
    (b b' : list B) :
  co rs rs' ka a a' -> co rs rs' kb b b' ->
  rel_result (fun c c' => ka = kb /\ co rs rs' ka c c') (bcast2 g a b) (bcast2 g a' b').
Proof.
  intros Ha Hb. destruct (co_length _ _ _ Ha) as [La La'].
  destruct (co_length _ _ _ Hb) as [Lb Lb'].
  destruct (decide (ka = kb)) as [<-|Hne].
  - rewrite !bcast2_same_length by lia. simpl. split; [done|]. by apply co_zip_with.
  - rewrite !bcast2_mismatch by lia. done.
Qed.

Lemma co_bcast2_r1 {A B C : Type} (g : A -> B -> C) (k : nat) (a a' : list A) (y : B) :
  co rs rs' k a a' -> rel_result (co rs rs' k) (bcast2 g a [y]) (bcast2 g a' [y]).
Proof. intros Ha. rewrite !bcast2_single_r. simpl. by apply co_fmap. Qed.

Lemma co_bcast2_l1 {A B C : Type} (g : A -> B -> C) (k : nat) (x : A) (b b' : list B) :
  co rs rs' k b b' -> rel_result (co rs rs' k) (bcast2 g [x] b) (bcast2 g [x] b').
Proof. intros Hb. rewrite !bcast2_single_l. simpl. by apply co_fmap. Qed.

(** Taking step [i] of every region. *)
Lemma co_mapM_lookup {A : Type} (k i : nat) (l l' : list (list A)) :
  co rs rs' k l l' ->
  match mapM (fun m => m !! i) l, mapM (fun m => m !! i) l' with
  | Some c, Some c' => co rs rs' k c c'
  | None, None => True
  | _, _ => False
  end.
Proof.
  intros Hl. pose proof (co_perm _ _ _ Hl) as Hp.
  destruct (mapM (fun m => m !! i) l) as [c|] eqn:Ec.
  - assert (is_Some (mapM (fun m => m !! i) l')) as [c' Ec'].
    { apply mapM_is_Some. rewrite <- Hp. apply mapM_is_Some. by eexists. }
    rewrite Ec'. destruct Hl as (pre & f & Hk & -> & ->).
    apply mapM_Some_1 in Ec, Ec'.
    apply Forall2_app_inv_l in Ec as (c1 & c2 & Hc1 & Hc2 & ->).
    apply Forall2_app_inv_l in Ec' as (c1' & c2' & Hc1' & Hc2' & ->).
    assert (c1' = c1) as ->.
    { clear -Hc1 Hc1'. revert c1' Hc1'. induction Hc1; intros c1' Hc1'.
      - by apply Forall2_nil_inv_l in Hc1'.
      - apply Forall2_cons_inv_l in Hc1' as (z & c & Hz & Hc & ->).
        f_equal; [congruence|by apply IHHc1]. }
    assert (exists d : A, True) as [d _].
    { destruct c2 as [|d c2]; [|by exists d].
      apply Forall2_length in Hc2. rewrite length_fmap in Hc2. simpl in Hc2. lia. }
    exists c1, (fun r => default d (f r !! i)).
    split; [by rewrite <- (Forall2_length _ _ _ Hc1)|].
    split; f_equal.
    + clear -Hc2. apply Forall2_fmap_l in Hc2.
      induction Hc2 as [|r z rs0 c Hz _ IH]; [done|].
      cbn [fmap list_fmap]. f_equal; [|exact IH]. by rewrite Hz.
    + clear -Hc2'. apply Forall2_fmap_l in Hc2'.
      induction Hc2' as [|r z rs0 c Hz _ IH]; [done|].
      cbn [fmap list_fmap]. f_equal; [|exact IH]. by rewrite Hz.
  - destruct (mapM (fun m => m !! i) l') as [c'|] eqn:Ec'; [|done].
    assert (is_Some (mapM (fun m => m !! i) l)) as [c Hc].
    { apply mapM_is_Some. rewrite Hp. apply mapM_is_Some. by eexists. }
    congruence.
Qed.
End orders.

(** *** [process_mask] without overlap decay *)

(** What [process_mask] computes when the overlap decay is off and the
    per-region parameters have one entry per mask. *)
Lemma process_mask_normal `{Collaborators} (self : pipeline) (masks : masks_arg)
    (strength std : option num_arg) (height width : nat) (ubm : bool)
    (ts : option (list Q)) (alpha : option Q) (t : list img) :
  masks_to_tensor ubm masks = inr t -> t <> [] ->
  Qltb 0 (default (default_preprocess_mask_cover_alpha self) alpha) = false ->
  let n := length t in
  let sd := per_mask (default_mask_std self) n std in
  let st := per_mask (default_mask_strength self) n strength in
  length sd = n -> length st = n ->
  let resized := interpolate Bilinear height width <$> t in
  let sd' := if existsb (Qltb 0) sd
             then (fun s => if Qltb 0 s then s else 1 # 100000) <$> sd else sd in
  let blurred := if existsb (Qltb 0) sd
                 then zip_with (fun m s => gaussian_kernel s m) resized sd' else resized in
  let scaled := zip_with (fun m s => imap1 (fun v => v * s) m) blurred st in
  process_mask self masks strength std height width ubm ts alpha
    = inr ((fun m => interpolate Nearest (height / Pos.to_nat (vae_scale_factor self))
                       (width / Pos.to_nat (vae_scale_factor self))
                     <$> quantize (mask_type self) (schedule_levels self ts).1
                           (schedule_levels self ts).2 m) <$> scaled,
           blurred, sd').
Proof.
  intros Ht Hne Hal n sd st Hsd Hst resized sd' blurred scaled.
  unfold process_mask. rewrite Ht. cbn [mbind result_bind]. rewrite Hal.
  cbn [mbind result_bind mret result_ret].
  destruct (schedule_levels self ts) as [lvs nexts] eqn:Elv. cbn [fst snd].
  fold resized. replace (length resized) with n by (subst resized; by rewrite length_fmap).
  fold sd st.
  assert (length resized = n) as Hres by (subst resized; by rewrite length_fmap).
  assert (length sd' = n) as Hsd'.
  { subst sd'. destruct (existsb (Qltb 0) sd); [by rewrite length_fmap|done]. }
  assert (length blurred = n) as Hbl.
  { subst blurred. destruct (existsb (Qltb 0) sd); [|done].
    rewrite length_zip_with. lia. }
  set (stage := if existsb (Qltb 0) sd then _ else _).
  assert (stage = inr (blurred, sd')) as ->.
  { subst stage blurred sd'. destruct (existsb (Qltb 0) sd); [|done].
    unfold gaussian_lowpass. rewrite bcast2_same_length by (rewrite length_fmap; lia).
    done. }
  cbn [mbind result_bind mret result_ret].
  rewrite bcast2_same_length by lia. cbn [mbind result_bind mret result_ret].
  fold scaled.
  assert (length scaled = n) as Hsc by (subst scaled; rewrite length_zip_with; lia).
  rewrite fmap_concat, <- list_fmap_compose.
  set (F := _ ∘ _).
  replace (length sd') with (length (F <$> scaled)) by (rewrite length_fmap; lia).
  destruct scaled as [|m0 scaled'] eqn:Es.
  { simpl in Hsc. subst n. destruct t; [done|]. simpl in Hsc. lia. }
  rewrite <- Es. rewrite <- Es in Hsc.
  rewrite (rearrange_pt_concat (length (quantize (mask_type self) lvs nexts m0))).
  - done.
  - intros E. apply (f_equal length) in E. rewrite length_fmap in E. rewrite Es in E. done.
  - apply Forall_fmap, Forall_forall. intros m _. subst F. cbn.
    rewrite length_fmap. apply quantize_length.
Qed.

Lemma existsb_perm {A : Type} (f : A -> bool) (l l' : list A) :
  l ≡ₚ l' -> existsb f l = existsb f l'.
Proof.
  induction 1 as [|x l l' _ IH|x y l|l l1 l2 _ IH1 _ IH2]; simpl.
  - done.
  - by rewrite IH.
  - by rewrite !orb_assoc, (orb_comm (f y)).
  - by rewrite IH1.
Qed.

Section process_mask_orders.
Context `{Collaborators} {rs rs' : list region}.
Hypothesis order : rs ≡ₚ rs'.
Hypothesis several : (2 <= length rs)%nat.

Lemma per_mask_co (d : Q) (s : spread) (f : region -> Q) :
  co rs rs' 0 (per_mask d (length rs) (spread_arg s f rs))
              (per_mask d (length rs') (spread_arg s f rs')).
Proof.
  destruct s as [[q|]| |]; simpl.
  - apply co_replicate.
  - apply co_replicate.
  - apply co_map.
  - apply co_map.
Qed.

Lemma masks_to_tensor_co (ubm : bool) (by_ : passing) :
  exists t t', masks_to_tensor ubm (region_masks by_ rs) = inr t /\
               masks_to_tensor ubm (region_masks by_ rs') = inr t' /\
               co rs rs' 0 t t'.
Proof.
  unfold region_masks. destruct (masks_as_tensor by_); simpl.
  - eexists _, _. split; [done|]. split; [done|]. apply co_map.
  - pose proof (Permutation_length order) as Hlen.
    destruct rs as [|r0 rs0]; [simpl in several; lia|].
    destruct rs' as [|r0' rs0']; [done|].
    eexists _, _. split; [done|]. split; [done|].
    rewrite <- !(list_fmap_compose _ _ (_ :: _)). apply co_map.
Qed.

(** Without overlap decay the masks of the regions are processed one by
    one: two orders of the regions give the same rows in the two orders. *)
Lemma process_mask_order (self : pipeline) (by_ : passing) (height width : nat)
    (ubm : bool) (ts : option (list Q)) (alpha : option Q) :
  Qltb 0 (default (default_preprocess_mask_cover_alpha self) alpha) = false ->
  rel_result (fun x x' => co rs rs' 0 x.1.1 x'.1.1 /\ co rs rs' 0 x.1.2 x'.1.2)
    (process_mask self (region_masks by_ rs)
       (spread_arg (strengths_by by_) r_mask_strength rs)
       (spread_arg (stds_by by_) r_mask_std rs) height width ubm ts alpha)
    (process_mask self (region_masks by_ rs')
       (spread_arg (strengths_by by_) r_mask_strength rs')
       (spread_arg (stds_by by_) r_mask_std rs') height width ubm ts alpha).
Proof.
  intros Hal. destruct (masks_to_tensor_co ubm by_) as (t & t' & Ht & Ht' & Hco).
  destruct (co_length order _ _ _ Hco) as [Ln Ln']. simpl in Ln, Ln'.
  pose proof (Permutation_length order) as Hlen.
  pose proof (per_mask_co (default_mask_std self) (stds_by by_) r_mask_std) as Hsd.
  pose proof (per_mask_co (default_mask_strength self) (strengths_by by_) r_mask_strength)
    as Hst.
  rewrite <- Hlen in Hsd, Hst.
  destruct (co_length order _ _ _ Hsd) as [Lsd Lsd'].
  destruct (co_length order _ _ _ Hst) as [Lst Lst'].
  rewrite (process_mask_normal self _ _ _ height width ubm ts alpha t Ht);
    [|destruct t; simpl in *; [lia|done]|done|rewrite Ln; simpl in *; lia..].
  rewrite (process_mask_normal self _ _ _ height width ubm ts alpha t' Ht');
    [|destruct t'; simpl in *; [lia|done]|done|rewrite Ln'; simpl in *; lia..].
  rewrite Ln, Ln'. simpl.
  rewrite <- (existsb_perm _ _ _ (co_perm order _ _ _ Hsd)).
  set (sd := per_mask (default_mask_std self) (length rs) (spread_arg _ _ rs)) in *.
  set (sd' := per_mask (default_mask_std self) (length rs) (spread_arg _ _ rs')) in *.
  set (st := per_mask (default_mask_strength self) (length rs) (spread_arg _ _ rs)) in *.
  set (st' := per_mask (default_mask_strength self) (length rs) (spread_arg _ _ rs')) in *.
  destruct (existsb (Qltb 0) sd).
  - assert (co rs rs' 0
              (zip_with (fun m s => gaussian_kernel s m)
                 (interpolate Bilinear height width <$> t)
                 ((fun s => if Qltb 0 s then s else 1 # 100000) <$> sd))
              (zip_with (fun m s => gaussian_kernel s m)
                 (interpolate Bilinear height width <$> t')
                 ((fun s => if Qltb 0 s then s else 1 # 100000) <$> sd'))) as Hbl
      by (apply co_zip_with; by apply co_fmap).
    split; [|exact Hbl]. apply co_fmap. by apply co_zip_with.
  - assert (co rs rs' 0 (interpolate Bilinear height width <$> t)
              (interpolate Bilinear height width <$> t')) as Hbl by (by apply co_fmap).
    split; [|exact Hbl]. apply co_fmap. by apply co_zip_with.
Qed.
End process_mask_orders.

(** *** One step in two orders *)

Section sampling_orders.
Context `{Collaborators} {rs rs' : list region}.
Hypothesis order : rs ≡ₚ rs'.
Hypothesis several : (2 <= length rs)%nat.
Hypothesis denoiser : batchwise_denoiser.

Variables (bootstrap_steps : Z) (boostrap_mix_steps bootstrap_leak_sensitivity : Q)
  (has_background : bool) (noise_bg_latents : list latent) (white : option latent)
  (noise : latent) (cfg : bool) (guidance_scale guidance_rescale : Q)
  (views : list view) (tile_masks : list img).

Lemma transformer_order (k : nat) (t : Q) (x x' : list latent)
    (pe pe' ppe ppe' : list embed) :
  co rs rs' 0 x x' -> co rs rs' k pe pe' -> co rs rs' k ppe ppe' ->
  rel_result (co rs rs' 0) (transformer x t pe ppe) (transformer x' t pe' ppe').
Proof.
  intros Hx Hpe Hppe. destruct denoiser as (D & mismatch & Htr). rewrite !Htr.
  destruct (co_length order _ _ _ Hx) as [-> ->].
  destruct (co_length order _ _ _ Hpe) as [-> ->].
  destruct (co_length order _ _ _ Hppe) as [-> ->].
  destruct ((k + length rs =? 0 + length rs)%nat
            && (k + length rs =? 0 + length rs)%nat) eqn:E; [|done].
  apply andb_prop in E as [E _]. apply Nat.eqb_eq in E.
  assert (k = 0%nat) as -> by lia. simpl.
  apply co_zip_with; [done|]. by apply co_zip_with.
Qed.

Lemma transformer_doubled_order (k : nat) (t : Q) (x x' : list latent)
    (ne ne' po po' npe npe' ppo ppo' : list embed) :
  co rs rs' 0 x x' ->
  co rs rs' k ne ne' -> co rs rs' k po po' ->
  co rs rs' k npe npe' -> co rs rs' k ppo ppo' ->
  rel_result (fun np np' => exists u u' c c',
                np = u ++ c /\ np' = u' ++ c' /\
                co rs rs' 0 u u' /\ co rs rs' 0 c c')
    (transformer (x ++ x) t (ne ++ po) (npe ++ ppo))
    (transformer (x' ++ x') t (ne' ++ po') (npe' ++ ppo')).
Proof.
  intros Hx Hne Hpo Hnpe Hppo. destruct denoiser as (D & mismatch & Htr). rewrite !Htr.
  destruct (co_length order _ _ _ Hx) as [Lx Lx'].
  destruct (co_length order _ _ _ Hne) as [Lne Lne'].
  destruct (co_length order _ _ _ Hpo) as [Lpo Lpo'].
  destruct (co_length order _ _ _ Hnpe) as [Lnpe Lnpe'].
  destruct (co_length order _ _ _ Hppo) as [Lppo Lppo'].
  rewrite !length_app, Lx, Lx', Lne, Lne', Lpo, Lpo', Lnpe, Lnpe', Lppo, Lppo'.
  destruct ((k + length rs + (k + length rs) =? 0 + length rs + (0 + length rs))%nat
            && (k + length rs + (k + length rs) =? 0 + length rs + (0 + length rs))%nat)
    eqn:E; [|done].
  apply andb_prop in E as [E _]. apply Nat.eqb_eq in E.
  assert (k = 0%nat) as -> by lia. simpl.
  exists (zip_with (fun x0 ep => D t x0 ep.1 ep.2) x (zip ne npe)),
         (zip_with (fun x0 ep => D t x0 ep.1 ep.2) x' (zip ne' npe')),
         (zip_with (fun x0 ep => D t x0 ep.1 ep.2) x (zip po ppo)),
         (zip_with (fun x0 ep => D t x0 ep.1 ep.2) x' (zip po' ppo')).
  split; [|split; [|split]].
  - rewrite (zip_with_app pair) by lia. rewrite zip_with_app; [done|].
    rewrite length_zip_with. lia.
  - rewrite (zip_with_app pair) by lia. rewrite zip_with_app; [done|].
    rewrite length_zip_with. lia.
  - apply co_zip_with; [done|]. by apply co_zip_with.
  - apply co_zip_with; [done|]. by apply co_zip_with.
Qed.

Lemma predict_order (k : nat) (t : Q) (x x' : list latent) (pe pe' ppe ppe' : list embed) :
  co rs rs' 0 x x' -> co_embeds rs rs' cfg k pe pe' -> co_embeds rs rs' cfg k ppe ppe' ->
  sim (co rs rs' 0)
    (predict cfg guidance_scale guidance_rescale pe ppe t x)
    (predict cfg guidance_scale guidance_rescale pe' ppe' t x').
Proof.
  intros Hx Hpe Hppe. unfold predict, co_embeds in *.
  eapply sim_bind; [apply sim_refl|]. intros _ _ _.
  destruct cfg.
  - destruct Hpe as (ne & ne' & po & po' & -> & -> & Hne & Hpo).
    destruct Hppe as (npe & npe' & ppo & ppo' & -> & -> & Hnpe & Hppo).
    eapply sim_bind.
    { apply sim_lift. by apply (transformer_doubled_order k). }
    intros np np' (u & u' & c & c' & -> & -> & Hu & Hc). unfold guide.
    destruct (co_length order _ _ _ Hu) as [Lu Lu'].
    destruct (co_length order _ _ _ Hc) as [Lc Lc'].
    assert (forall a b : list latent, length a = length rs -> length b = length rs ->
              ((length (a ++ b) + 1) / 2)%nat = length a) as Hhalf.
    { intros a b La Lb. rewrite length_app, La, Lb.
      replace (length rs + length rs + 1)%nat with (1 + length rs * 2)%nat by lia.
      rewrite Nat.div_add by done. simpl. lia. }
    rewrite !Hhalf by (simpl in *; lia).
    rewrite !take_app_length, !drop_app_length.
    destruct c as [|c0 c]; [simpl in Lc; lia|].
    destruct c' as [|c0' c']; [simpl in Lc'; lia|].
    eapply sim_bind.
    { apply sim_lift.
      pose proof (co_bcast2 order several
                    (lmap2 (fun u c => u + guidance_scale * (c - u))) 0 0 _ _ _ _ Hu Hc) as Hb.
      destruct (bcast2 _ u (c0 :: c)), (bcast2 _ u' (c0' :: c')); simpl in *; try done.
      by destruct Hb. }
    intros r r' Hr. destruct (Qltb 0 guidance_rescale); [apply sim_raise|by apply sim_ret].
  - eapply sim_bind.
    { apply sim_lift. by apply (transformer_order k). }
    intros np np' Hnp. unfold guide. by apply sim_ret.
Qed.

Lemma scheduler_step_order (self : pipeline) (i : nat) (np np' x x' : list latent) :
  co rs rs' 0 np np' -> co rs rs' 0 x x' ->
  rel_result (co rs rs' 0) (scheduler_step self np i x) (scheduler_step self np' i x').
Proof.
  intros Hnp Hx. unfold scheduler_step. destruct (sigmas self !! i) as [s|]; [|done].
  pose proof (co_bcast2 order several (lmap2 (fun l n => l - n * s)) 0 0 _ _ _ _ Hx Hnp) as Hb.
  destruct (bcast2 _ x np), (bcast2 _ x' np'); simpl in *; try done. by destruct Hb.
Qed.

Lemma take_1_replicate {A : Type} (x : A) :
  take 1 (replicate (length rs) x) = [x] /\ take 1 (replicate (length rs') x) = [x].
Proof.
  pose proof (Permutation_length order) as Hlen.
  destruct rs as [|r0 rs0]; [simpl in several; lia|].
  destruct rs' as [|r0' rs0']; [done|]. done.
Qed.

(** The body of the loop over the tiles adds the same to the accumulators
    in both orders. *)
Lemma denoise_tile_order (km ke : nat) (pe pe' ppe ppe' : list embed) (i : nat) (t : Q)
    (fg_mask fg_mask' : list img) (lat : latent) (j : nat) (v : view)
    (acc : latent * latent) :
  co rs rs' km fg_mask fg_mask' ->
  co_embeds rs rs' cfg ke pe pe' -> co_embeds rs rs' cfg ke ppe ppe' ->
  sim eq
    (denoise_tile (length rs) bootstrap_steps boostrap_mix_steps
       bootstrap_leak_sensitivity has_background noise_bg_latents white noise cfg
       guidance_scale guidance_rescale pe ppe tile_masks i t fg_mask lat j v acc)
    (denoise_tile (length rs') bootstrap_steps boostrap_mix_steps
       bootstrap_leak_sensitivity has_background noise_bg_latents white noise cfg
       guidance_scale guidance_rescale pe' ppe' tile_masks i t fg_mask' lat j v acc).
Proof.
  intros Hfg Hpe Hppe. unfold denoise_tile. destruct acc as [value count_all].
  set (boot := (Z.of_nat i <? bootstrap_steps)%Z).
  assert (co rs rs' km (crop_view v <$> fg_mask) (crop_view v <$> fg_mask')) as Hcrop
    by (by apply co_fmap).
  set (x := crop_view v <$> lat).
  pose proof (co_replicate (rs:=rs) (rs':=rs') x) as Hlat.
  eapply (sim_bind (fun p p' => co rs rs' 0 p.1 p'.1 /\ p.2 = p'.2
                                /\ (boot = true -> km = 0%nat /\ exists b, p.2 = [b]))).
  { destruct boot; [|apply sim_ret; simpl; split; [done|]; split; done].
    eapply (sim_bind (fun b b' => b = b' /\ exists b0, b = [b0])).
    { destruct has_background.
      - destruct (noise_bg_latents !! i); [|apply sim_raise].
        apply sim_ret. split; [done|]. by eexists.
      - destruct (take_1_replicate x) as [-> ->]. apply sim_ret. split; [done|]. by eexists. }
    intros bg0 _ [<- [b0 ->]].
    eapply sim_bind; [apply sim_refl|]. intros wh _ <-.
    eapply sim_bind; [apply sim_refl|]. intros white_ _ <-.
    rewrite bcast2_single_l. cbn [fmap list_fmap].
    apply sim_bind_inr.
    eapply (sim_bind (co rs rs' km)).
    { apply sim_lift. apply co_bcast2_r1. exact Hcrop. }
    intros outside outside' Hout.
    eapply sim_bind.
    { apply sim_lift. exact (co_bcast2 order several mask_mul km 0 _ _ _ _ Hcrop Hlat). }
    intros inside inside' [-> Hin].
    eapply sim_bind.
    { apply sim_lift. exact (co_bcast2 order several ladd 0 0 _ _ _ _ Hout Hin). }
    intros l l' [_ Hl]. apply sim_ret. simpl. split; [|split; [done|]].
    - unfold shift_to_mask_bbox_center. by apply co_zip_with.
    - intros _. split; [done|]. by eexists. }
  intros [latent_ bg] [latent_' bg'] (Hl & Hbg & Hboot). simpl in Hl, Hbg, Hboot. subst bg'.
  eapply (sim_bind (co rs rs' 0)); [by apply (predict_order ke)|].
  intros np np' Hnp.
  eapply sim_bind; [apply sim_refl|]. intros self _ <-.
  eapply (sim_bind (co rs rs' 0)); [by apply sim_lift, scheduler_step_order|].
  intros stepped stepped' Hst.
  eapply (sim_bind (fun p p' => co rs rs' 0 p.1 p'.1 /\ co rs rs' km p.2 p'.2)).
  { destruct boot; [|by apply sim_ret].
    destruct Hboot as [-> [b ->]]; [done|].
    assert (co rs rs' 0
              (shift_to_mask_bbox_center stepped (crop_view v <$> fg_mask) false)
              (shift_to_mask_bbox_center stepped' (crop_view v <$> fg_mask') false)) as Hsh
      by (unfold shift_to_mask_bbox_center; by apply co_zip_with).
    eapply (sim_bind (co rs rs' 0)).
    { apply sim_lift. by apply co_bcast2_r1. }
    intros leak leak' Hleak.
    eapply (sim_bind (co rs rs' 0)).
    { apply sim_lift.
      pose proof (co_bcast2 order several (imap2 Qmult) 0 0 _ _ _ _ Hcrop
                    (co_fmap (imap1 (fun x => sigmoid (x / bootstrap_leak_sensitivity) * 2 - 1))
                       _ _ _ Hleak)) as Hb.
      destruct (bcast2 _ (crop_view v <$> fg_mask) _), (bcast2 _ (crop_view v <$> fg_mask') _);
        simpl in *; try done. by destruct Hb. }
    intros m m' Hm. by apply sim_ret. }
  intros [latent2 fgm] [latent2' fgm'] [Hl2 Hfgm]. simpl in Hl2, Hfgm.
  eapply sim_bind; [apply sim_refl|]. intros tile _ <-.
  assert (co rs rs' km ((fun m => imap2 Qmult m tile) <$> fgm)
            ((fun m => imap2 Qmult m tile) <$> fgm')) as Hw by (by apply co_fmap).
  eapply (sim_bind (fun c c' => km = 0%nat /\ co rs rs' km c c')).
  { apply sim_lift. exact (co_bcast2 order several mask_mul km 0 _ _ _ _ Hw Hl2). }
  intros weighted weighted' [_ Hwd]. apply sim_ret.
  rewrite (lsum_perm _ _ (co_perm order _ _ _ Hwd)).
  rewrite (isum_perm _ _ (co_perm order _ _ _ Hw)). done.
Qed.

(** The body of the loop over the timesteps gives the same latent in both
    orders. *)
Lemma sampling_step_order (km ke : nat) (pe pe' ppe ppe' : list embed)
    (fg_masks fg_masks' : list (list img)) (i : nat) (t : Q) (lat : latent) :
  co rs rs' km fg_masks fg_masks' ->
  co_embeds rs rs' cfg ke pe pe' -> co_embeds rs rs' cfg ke ppe ppe' ->
  sim eq
    (sampling_step (length rs) bootstrap_steps boostrap_mix_steps
       bootstrap_leak_sensitivity has_background noise_bg_latents white noise cfg
       guidance_scale guidance_rescale pe ppe views tile_masks fg_masks i t lat)
    (sampling_step (length rs') bootstrap_steps boostrap_mix_steps
       bootstrap_leak_sensitivity has_background noise_bg_latents white noise cfg
       guidance_scale guidance_rescale pe' ppe' views tile_masks fg_masks' i t lat).
Proof.
  intros Hfg Hpe Hppe. unfold sampling_step.
  eapply (sim_bind (co rs rs' km)).
  { pose proof (co_mapM_lookup order several km i _ _ Hfg) as Hm.
    destruct (mapM _ fg_masks), (mapM _ fg_masks'); try done;
      first [by apply sim_ret | apply sim_raise]. }
  intros fg_mask fg_mask' Hmask.
  eapply (sim_bind eq).
  { unfold accumulate. apply sim_for_each; [|done].
    intros [j v] acc _ _ <-. by apply (denoise_tile_order km ke). }
  intros acc _ <-. apply sim_refl.
Qed.
End sampling_orders.

(** *** Text embeddings in two orders *)

Lemma tile_rows_single {A : Type} (n : nat) (x : A) : tile_rows n [x] = replicate n x.
Proof. unfold tile_rows. induction n as [|n IH]; simpl; [done|]. by rewrite IH. Qed.

Section embeds_orders.
Context `{Collaborators} {rs rs' : list region}.
Hypothesis order : rs ≡ₚ rs'.
Hypothesis several : (2 <= length rs)%nat.

Lemma co_take_drop_1 {A : Type} (l l' : list A) :
  co rs rs' 1 l l' -> take 1 l = take 1 l' /\ (exists x, take 1 l = [x])
                      /\ co rs rs' 0 (drop 1 l) (drop 1 l').
Proof.
  intros (pre & f & Hk & -> & ->). destruct pre as [|x [|y pre]]; try done.
  simpl. rewrite !drop_0. split; [done|]. split; [by eexists|]. by apply co_map.
Qed.

Lemma lerp_order (pe pe' : list embed) (s s' : list Q) :
  co rs rs' 1 pe pe' -> co rs rs' 0 s s' ->
  rel_result (co rs rs' 0) (lerp (take 1 pe) (drop 1 pe) s)
                           (lerp (take 1 pe') (drop 1 pe') s').
Proof.
  intros Hpe Hs. destruct (co_take_drop_1 _ _ Hpe) as (<- & [x ->] & Hd).
  unfold lerp. rewrite !bcast2_single_l. cbn [mbind result_bind].
  pose proof (co_bcast2 order several
                (fun '(bi, fi) si => zip_with (fun x y => x + si * (y - x)) bi fi)
                0 0 _ _ _ _ (co_fmap (pair x) _ _ _ Hd) Hs) as Hb.
  destruct (bcast2 _ (pair x <$> drop 1 pe) s), (bcast2 _ (pair x <$> drop 1 pe') s');
    simpl in *; try done. by destruct Hb.
Qed.

Lemma prompt_strengths_order (self : pipeline) (by_ : spread) :
  sim (co rs rs' 0)
    (match spread_arg by_ r_prompt_strength rs with
     | None => mret (replicate (length rs) (default_prompt_strength self))
     | Some (NumScalar q) => mret (replicate (length rs) q)
     | Some (NumList l) =>
         py_assert (length l =? length rs)%nat
           ("The number of prompt strengths " +:+ pretty (length l) +:+
            " should match the number of prompts " +:+ pretty (length rs) +:+ "!");;
         mret l
     | Some (NumTensor l) => mret l
     end)
    (match spread_arg by_ r_prompt_strength rs' with
     | None => mret (replicate (length rs') (default_prompt_strength self))
     | Some (NumScalar q) => mret (replicate (length rs') q)
     | Some (NumList l) =>
         py_assert (length l =? length rs')%nat
           ("The number of prompt strengths " +:+ pretty (length l) +:+
            " should match the number of prompts " +:+ pretty (length rs') +:+ "!");;
         mret l
     | Some (NumTensor l) => mret l
     end).
Proof.
  destruct by_ as [[q|]| |]; simpl.
  - apply sim_ret, co_replicate.
  - apply sim_ret, co_replicate.
  - rewrite !length_fmap, !Nat.eqb_refl. simpl.
    intros w. split; [done|]. simpl. apply co_map.
  - apply sim_ret, co_map.
Qed.

Lemma negative_lerp_order (shared : bool) (n n' : list embed) (s s' : list Q) :
  co_negative rs rs' shared 1 n n' -> co rs rs' 0 s s' ->
  sim (fun r r' => exists x x', r = Some x /\ r' = Some x' /\ co rs rs' 0 x x')
    (fu ← (if ((if shared then 1 else length rs) <? length rs)%nat
           then raise (AssertionError "") else mret (drop 1 n));
     r ← lift (lerp (take 1 n) fu s); mret (Some r))
    (fu ← (if ((if shared then 1 else length rs') <? length rs')%nat
           then raise (AssertionError "") else mret (drop 1 n'));
     r ← lift (lerp (take 1 n') fu s'); mret (Some r)).
Proof.
  intros Hn Hs. pose proof (Permutation_length order) as Hlen. rewrite <- Hlen.
  destruct shared; simpl in Hn.
  - replace (1 <? length rs)%nat with true by (symmetry; apply Nat.ltb_lt; lia).
    intros w. by split.
  - rewrite Nat.ltb_irrefl. apply sim_bind_ret.
    eapply (sim_bind (co rs rs' 0)); [by apply sim_lift, lerp_order|].
    intros r r' Hr. apply sim_ret. by exists r, r'.
Qed.

(** The embeddings handed to the denoiser are those of the regions in the
    order of the regions. *)
Lemma prepare_embeds_order (self : pipeline) (hb : bool) (by_ : passing) (cfg shared : bool)
    (kp : nat) (pe pe' ppe ppe' ne ne' npe npe' : list embed) :
  (if hb then kp = 1%nat else (kp <= 1)%nat) ->
  co rs rs' kp pe pe' -> co rs rs' kp ppe ppe' ->
  co_negative rs rs' shared kp ne ne' -> co_negative rs rs' shared kp npe npe' ->
  sim (fun x x' => co_embeds rs rs' cfg (if hb then 0%nat else kp) x.1 x'.1 /\
                   co_embeds rs rs' cfg (if hb then 0%nat else kp) x.2 x'.2)
    (prepare_embeds self hb (spread_arg (prompt_strengths_by by_) r_prompt_strength rs)
       (region_masks by_ rs) (length rs) (length rs)
       (if shared then 1%nat else length rs) cfg
       (pe, if cfg then Some ne else None, ppe, if cfg then Some npe else None))
    (prepare_embeds self hb (spread_arg (prompt_strengths_by by_) r_prompt_strength rs')
       (region_masks by_ rs') (length rs') (length rs')
       (if shared then 1%nat else length rs') cfg
       (pe', if cfg then Some ne' else None, ppe', if cfg then Some npe' else None)).
Proof.
  intros Hk Hpe Hppe Hne Hnpe. unfold prepare_embeds.
  pose proof (Permutation_length order) as Hlen.
  set (k := if hb then 0%nat else kp).
  eapply (sim_bind (fun x x' =>
            co rs rs' k x.1.1.1 x'.1.1.1 /\ co rs rs' k x.1.2 x'.1.2 /\
            if cfg then exists n n' m m',
                x.1.1.2 = Some n /\ x'.1.1.2 = Some n' /\
                x.2 = Some m /\ x'.2 = Some m' /\
                co rs rs' k n n' /\ co rs rs' k m m'
            else x.1.1.2 = None /\ x'.1.1.2 = None /\ x.2 = None /\ x'.2 = None)).
  { destruct hb; subst k.
    - subst kp.
      eapply (sim_bind (co rs rs' 0)); [apply prompt_strengths_order|].
      intros s s' Hs.
      eapply (sim_bind (co rs rs' 0)); [by apply sim_lift, lerp_order|].
      intros pe1 pe1' Hpe1.
      destruct cfg.
      + eapply sim_bind; [by apply (negative_lerp_order shared)|].
        intros _ _ (n1 & n1' & -> & -> & Hn1).
        eapply (sim_bind (co rs rs' 0)); [by apply sim_lift, lerp_order|].
        intros ppe1 ppe1' Hppe1.
        eapply sim_bind; [by apply (negative_lerp_order shared)|].
        intros _ _ (m1 & m1' & -> & -> & Hm1).
        apply sim_ret. simpl. split; [done|]. split; [done|].
        by exists n1, n1', m1, m1'.
      + apply sim_bind_ret.
        eapply (sim_bind (co rs rs' 0)); [by apply sim_lift, lerp_order|].
        intros ppe1 ppe1' Hppe1. apply sim_bind_ret. by apply sim_ret.
    - destruct cfg; [|by apply sim_ret].
      rewrite <- Hlen. destruct shared; simpl in Hne, Hnpe.
      + replace (1 <? length rs)%nat with true by (symmetry; apply Nat.ltb_lt; lia).
        destruct Hne as [<- Ln], Hnpe as [<- Lnp].
        destruct (co_length order _ _ _ Hpe) as [Lpe Lpe'].
        destruct (co_length order _ _ _ Hppe) as [Lppe Lppe'].
        rewrite Ln, Lnp, Lpe, Lpe', Lppe, Lppe'.
        destruct kp as [|kp].
        * simpl. rewrite !Nat.eqb_refl. simpl.
          destruct ne as [|n0 [|n1 ne]]; try done.
          destruct npe as [|m0 [|m1 npe]]; try done.
          apply sim_ret. simpl. split; [done|]. split; [done|].
          eexists _, _, _, _. repeat split; try done.
          -- rewrite !tile_rows_single. rewrite Hlen at 2. apply co_replicate.
          -- rewrite !tile_rows_single. rewrite Hlen at 2. apply co_replicate.
        * simpl. intros w. by split.
      + rewrite Nat.ltb_irrefl. apply sim_ret. simpl. split; [done|]. split; [done|].
        by exists ne, ne', npe, npe'. }
  intros [[[pe1 ne1] ppe1] npe1] [[[pe1' ne1'] ppe1'] npe1'] (Hp1 & Hpp1 & Hneg).
  simpl in Hp1, Hpp1, Hneg. rewrite !Nat.ltb_irrefl.
  apply sim_bind_ret. destruct cfg.
  - destruct Hneg as (n & n' & m & m' & -> & -> & -> & -> & Hn & Hm).
    apply sim_ret. simpl. split.
    + by exists n, n', pe1, pe1'.
    + by exists m, m', ppe1, ppe1'.
  - destruct Hneg as (-> & -> & -> & ->). by apply sim_ret.
Qed.
End embeds_orders.

(** *** The whole call in two orders *)

Section call_orders.
Context `{Collaborators} {rs rs' : list region}.
Hypothesis order : rs ≡ₚ rs'.
Hypothesis several : (2 <= length rs)%nat.
Hypothesis denoiser : batchwise_denoiser.
Hypothesis encoder : promptwise_encoder.

Lemma co_negative_cons {A : Type} (shared : bool) (k : nat) (x : A) (n n' : list A) :
  co_negative rs rs' shared k n n' -> co_negative rs rs' shared (S k) (x :: n) (x :: n').
Proof.
  unfold co_negative. destruct shared.
  - intros [-> Hl]. simpl. by rewrite Hl.
  - apply co_cons.
Qed.

Lemma co_negative_fmap {A B : Type} (g : A -> B) (shared : bool) (k : nat) (n n' : list A) :
  co_negative rs rs' shared k n n' -> co_negative rs rs' shared k (g <$> n) (g <$> n').
Proof.
  unfold co_negative. destruct shared.
  - intros [-> Hl]. by rewrite length_fmap.
  - apply co_fmap.
Qed.

Lemma background_stage_order (a : call_args) (shared : bool)
    (prompts prompts' negs negs' : list string) (fg fg' : list (list img))
    (bg_masks : list img) (hb : bool) :
  co rs rs' 0 prompts prompts' -> co_negative rs rs' shared 0 negs negs' ->
  co rs rs' 0 fg fg' ->
  sim (co_background rs rs' shared)
    (background_stage a prompts negs fg bg_masks hb)
    (background_stage a prompts' negs' fg' bg_masks hb).
Proof.
  intros Hp Hn Hfg. unfold background_stage.
  assert (forall bp, co rs rs' 0
            (match suffix a with
             | Some sf => (fun p => p +:+ sf +:+ bp) <$> prompts
             | None => prompts
             end)
            (match suffix a with
             | Some sf => (fun p => p +:+ sf +:+ bp) <$> prompts'
             | None => prompts'
             end)) as Hsuf.
  { intros bp. destruct (suffix a); [by apply co_fmap|done]. }
  assert (forall (km kp : nat) (f f' : list (list img)) (p p' n n' : list string)
            (h : bool) (g l : option latent),
            co rs rs' km f f' -> co rs rs' kp p p' -> co_negative rs rs' shared kp n n' ->
            (if h then kp = 1%nat /\ km = 0%nat else (kp <= 1)%nat /\ km = kp) ->
            sim (co_background rs rs' shared)
              (mret (f, p, n, h, g, l)) (mret (f', p', n', h, g, l))) as Hret.
  { intros km kp f f' p p' n n' h g l Hf Hpp Hnn Hh. apply sim_ret. simpl.
    split; [done|]. split; [done|]. split; [done|]. by exists km, kp. }
  destruct hb.
  - destruct (background a) as [b|] eqn:Eb, (background_prompt a) as [bp|] eqn:Ebp.
    + apply sim_bind_ret. eapply sim_bind; [apply sim_refl|]. intros bl _ <-.
      apply (Hret 0%nat 1%nat); [done|by apply co_cons|by apply co_negative_cons|done].
    + eapply sim_bind; [apply sim_refl|]. intros [b' c] _ <-.
      eapply sim_bind; [apply sim_refl|]. intros bl _ <-.
      apply (Hret 0%nat 1%nat); [done|by apply co_cons|by apply co_negative_cons|done].
    + apply (Hret 1%nat 1%nat);
        [by apply co_cons|by apply co_cons|by apply co_negative_cons|done].
    + apply sim_bind_ret. eapply sim_bind; [apply sim_refl|]. intros bl _ <-.
      apply (Hret 0%nat 1%nat); [done|by apply co_cons|by apply co_negative_cons|done].
  - apply (Hret 0%nat 0%nat); [done|done|done|]. split; [lia|done].
Qed.

Lemma region_masks_len (by_ : passing) (l : list region) :
  masks_len (region_masks by_ l) = length l.
Proof. unfold region_masks. destruct (masks_as_tensor by_); simpl; by rewrite length_fmap. Qed.

Lemma region_masks_not_image (by_ : passing) (l : list region) :
  match region_masks by_ l with MaskImage m => MaskList [m] | _ => region_masks by_ l end
  = region_masks by_ l.
Proof. unfold region_masks. by destruct (masks_as_tensor by_). Qed.

Lemma background_stage_ext (a b : call_args) :
  suffix a = suffix b -> background a = background b ->
  background_prompt a = background_prompt b ->
  background_negative_prompt a = background_negative_prompt b ->
  height a = height b -> width a = width b ->
  background_stage a = background_stage b.
Proof. unfold background_stage. by intros -> -> -> -> -> ->. Qed.

Lemma tiling_ext (a b : call_args) :
  tile_size a = tile_size b -> height a = height b -> width a = width b ->
  tiling a = tiling b.
Proof. unfold tiling. by intros -> -> ->. Qed.

Lemma finish_ext (a b : call_args) :
  output_type a = output_type b -> do_blend a = do_blend b -> finish a = finish b.
Proof. unfold finish. by intros -> ->. Qed.

Lemma generate_order (a : call_args) (by_ : passing) :
  preprocess_mask_cover_alpha a = Some 0 ->
  sim eq
    (generate (with_regions a by_ rs) (PList (r_prompt <$> rs)) (region_masks by_ rs))
    (generate (with_regions a by_ rs') (PList (r_prompt <$> rs')) (region_masks by_ rs')).
Proof.
  intros Halpha. pose proof (Permutation_length order) as Hlen.
  unfold generate.
  rewrite !region_masks_not_image, !region_masks_len.
  rewrite (background_stage_ext (with_regions a by_ rs) a) by reflexivity.
  rewrite (background_stage_ext (with_regions a by_ rs') a) by reflexivity.
  rewrite (tiling_ext (with_regions a by_ rs) a) by reflexivity.
  rewrite (tiling_ext (with_regions a by_ rs') a) by reflexivity.
  rewrite (finish_ext (with_regions a by_ rs) a) by reflexivity.
  rewrite (finish_ext (with_regions a by_ rs') a) by reflexivity.
  unfold with_regions.
  cbn [num_inference_steps guidance_scale negative_prompts mask_strengths mask_stds
       height width use_boolean_mask preprocess_mask_cover_alpha bootstrap_steps
       boostrap_mix_steps bootstrap_leak_sensitivity prompt_strengths guidance_rescale
       as_list].
  rewrite !length_fmap.
  set (shared := match shared_negative by_ with Some _ => true | None => false end).
  set (negs := as_list match shared_negative by_ with
                       | Some s => PStr s | None => PList (r_negative <$> rs) end).
  set (negs' := as_list match shared_negative by_ with
                        | Some s => PStr s | None => PList (r_negative <$> rs') end).
  assert (co_negative rs rs' shared 0 negs negs') as Hnegs.
  { subst shared negs negs'. destruct (shared_negative by_); simpl; [done|apply co_map]. }
  assert (length negs = (if shared then 1 else length rs)%nat
          /\ length negs' = (if shared then 1 else length rs')%nat) as [-> ->].
  { subst shared negs negs'. destruct (shared_negative by_); simpl; [done|].
    by rewrite !length_fmap. }
  clearbody negs negs'.
  eapply sim_bind; [apply sim_refl|]. intros [] _ _.
  eapply sim_bind; [apply sim_refl|]. intros self _ <-.
  eapply (sim_bind eq).
  { rewrite <- Hlen. apply sim_refl. }
  intros [] _ _.
  eapply sim_bind.
  { apply sim_lift. apply (process_mask_order order several).
    by rewrite Halpha. }
  intros [[fg g] std] [[fg' g'] std'] [Hfg Hg]. simpl in Hfg, Hg.
  rewrite <- (sum_regions_perm fg fg' (co_perm order _ _ _ Hfg)).
  eapply sim_bind.
  { apply (background_stage_order a shared); [apply co_map|exact Hnegs|exact Hfg]. }
  intros [[[[[fg1 ps] ns] hb] bg] bgl] [[[[[fg1' ps'] ns'] hb'] bg'] bgl'].
  intros (<- & <- & <- & km & kp & Hfg1 & Hps & Hns & Hk).
  eapply sim_bind; [apply sim_refl|]. intros wh _ <-.
  eapply sim_bind; [apply sim_refl|]. intros [] _ _.
  destruct encoder as (tok & pool & Henc). rewrite !Henc.
  apply sim_bind_inr.
  set (cfg := classifier_free _).
  eapply sim_bind.
  { apply (prepare_embeds_order order several self hb by_ cfg shared kp).
    - destruct hb; [by destruct Hk|by destruct Hk].
    - by apply co_fmap.
    - by apply co_fmap.
    - by apply co_negative_fmap.
    - by apply co_negative_fmap. }
  intros [pe ppe] [pe' ppe'] [Hpe Hppe]. simpl in Hpe, Hppe.
  eapply sim_bind; [apply sim_refl|]. intros [[noise lat] nbl] _ <-.
  destruct (tiling a _ _ _) as [views tile_masks].
  eapply sim_bind; [apply sim_refl|]. intros self2 _ <-.
  eapply (sim_bind eq).
  { apply sim_for_each; [|done]. intros [i t] l _ _ <-.
    apply (sampling_step_order order several denoiser _ _ _ _ _ _ _ _ _ _ _ _
             km (if hb then 0%nat else kp)); done. }
  intros l _ <-. unfold finish.
  rewrite (isum_perm g g' (co_perm order _ _ _ Hg)). apply sim_refl.
Qed.

End call_orders.

Lemma call_with_regions `{Collaborators} (a : call_args) (by_ : passing)
    (rs : list region) :
  (2 <= length rs)%nat ->
  __call__ (with_regions a by_ rs)
  = generate (with_regions a by_ rs) (PList (r_prompt <$> rs)) (region_masks by_ rs).
Proof.
  intros Hrs. unfold __call__.
  change (prompts (with_regions a by_ rs)) with (Some (PList (r_prompt <$> rs))).
  change (masks (with_regions a by_ rs)) with (Some (region_masks by_ rs)).
  assert ((length rs =? 0)%nat = false) as E by (apply Nat.eqb_neq; lia).
  cbn [no_prompts]. rewrite length_fmap, E.
  unfold region_masks. destruct (masks_as_tensor by_); cbn [no_masks]; [done|].
  by rewrite length_fmap, E.
Qed.

Lemma toy_batchwise_denoiser : batchwise_denoiser.
Proof.
  exists (fun _ x e _ => Toy.denoise x e), (RuntimeError "batch sizes differ").
  intros xs t es ps. reflexivity.
Qed.

Lemma toy_promptwise_encoder : promptwise_encoder.
Proof. exists Toy.enc, Toy.enc. intros ps ns cfg. reflexivity. Qed.

(** C6: with the overlap decay switched off
    ([preprocess_mask_cover_alpha = 0]) a call returns the same output, and
    leaves the same pipeline, generator and log behind, in whatever order the
    regions (prompt, negative prompt, mask, mask strength, mask deviation,
    prompt strength) are passed, as long as the denoiser treats the entries
    of a batch one by one and the text encoder embeds each prompt on its own.
    Numbers are exact rationals. *)
Theorem region_order_invariant `{Collaborators} (a : call_args) (by_ : passing)
    (rs rs' : list region) (w : world) :
  batchwise_denoiser -> promptwise_encoder ->
  preprocess_mask_cover_alpha a = Some 0 ->
  rs ≡ₚ rs' ->
  __call__ (with_regions a by_ rs) w = __call__ (with_regions a by_ rs') w.
Proof.
  intros Hden Henc Halpha Hperm.
  destruct (decide (2 <= length rs)%nat) as [Hrs|Hrs].
  - rewrite !call_with_regions by (by rewrite <- ?(Permutation_length Hperm)).
    apply sim_eq. by apply generate_order.
  - destruct rs as [|r [|r2 rs]]; [| |simpl in Hrs; lia].
    + by apply Permutation_nil_l in Hperm as <-.
    + by apply Permutation_singleton_l in Hperm as <-.
Qed.

Lemma region_order_invariant_witness :
  __call__ (with_regions Regions.args Regions.each [Regions.cat; Regions.dog; Regions.sky])
    Toy.world0
  = __call__ (with_regions Regions.args Regions.each [Regions.sky; Regions.cat; Regions.dog])
      Toy.world0.
Proof.
  apply (region_order_invariant Regions.args Regions.each
           [Regions.cat; Regions.dog; Regions.sky] [Regions.sky; Regions.cat; Regions.dog]
           Toy.world0 toy_batchwise_denoiser toy_promptwise_encoder).
  - reflexivity.
  - symmetry. apply (Permutation_cons_append [Regions.cat; Regions.dog] Regions.sky).
Defined.

(** The runs compared above come back with a picture: the invariance is not
    one between two failures. *)
Example region_order_sample_returns :
  returned (__call__ (with_regions Regions.args Regions.each
                        [Regions.sky; Regions.cat; Regions.dog]) Toy.world0).1 = true.
Proof. vm_compute. reflexivity. Qed.

(** * Further properties of the pipeline *)

(** ** The schedule *)

Lemma index_select_inr {A : Type} (t : list A) (idx : list nat) :
  Forall (fun i => (i < length t)%nat) idx ->
  exists r, index_select t idx = inr r /\ length r = length idx /\
            forall k i, idx !! k = Some i -> r !! k = t !! i.
Proof.
  intros Hidx. unfold index_select.
  destruct (mapM (fun i => t !! i) idx) as [r|] eqn:E.
  - exists r. split; [done|]. pose proof (length_mapM _ _ _ E) as Hlen.
    split; [done|]. intros k i Hk.
    rewrite mapM_Some in E. 
    destruct (Forall2_lookup_l _ _ _ _ _ E Hk) as (y & Hy & Hty). by rewrite Hy.
  - exfalso. apply mapM_None in E. apply Exists_exists in E as (i & Hi & Hn).
    rewrite Forall_forall in Hidx. apply Hidx in Hi.
    apply lookup_lt_is_Some_2 in Hi. rewrite Hn in Hi. by destruct Hi.
Qed.

Lemma index_select_inl {A : Type} (t : list A) (idx : list nat) (i : nat) :
  i ∈ idx -> (length t <= i)%nat -> index_select t idx = inl IndexError.
Proof.
  intros Hi Hlen. unfold index_select.
  destruct (mapM (fun i => t !! i) idx) as [r|] eqn:E; [|done].
  rewrite mapM_Some in E. apply list_elem_of_lookup in Hi as (k & Hk).
  destruct (Forall2_lookup_l _ _ _ _ _ E Hk) as (y & _ & Hty).
  apply lookup_ge_None_2 in Hlen. by rewrite Hlen in Hty.
Qed.

Lemma prepare_run `{Collaborators} (t_index_list : option (list nat))
    (num_inference_steps : option nat) (w : world) :
  let idx := default (default_t_list (obj w)) t_index_list in
  let n := default (default_num_inference_steps (obj w)) num_inference_steps in
  prepare_flashflowmatch_schedule t_index_list num_inference_steps w =
    match index_select (scheduler_timesteps n) idx with
    | inl e => (inl e, w)
    | inr ts =>
        match index_select (scheduler_sigmas n) idx with
        | inl e =>
            (inl e, World (set_schedule ts (sigmas (obj w)) (sigmas_next (obj w))
                             (noise_lvs (obj w)) (next_noise_lvs (obj w)) (obj w))
                      (rng w) (calls w))
        | inr sg =>
            (inr tt, World (set_schedule ts sg (shift_left sg) (noise_levels sg)
                              (drop 1 (noise_levels sg) ++ [0]) (obj w))
                       (rng w) (calls w))
        end
    end.
Proof.
  intros idx n. unfold prepare_flashflowmatch_schedule.
  unfold mbind, M_bind, get_self, lift, update_self. fold idx n.
  destruct (index_select (scheduler_timesteps n) idx) as [e|ts]; [done|]. simpl.
  destruct (index_select (scheduler_sigmas n) idx) as [e|sg]; done.
Qed.

(** X1. When every index of [t_index_list] is within the tables of the
    reference scheduler, [prepare_flashflowmatch_schedule] returns and
    stores five lists with one entry per index: the timestep and the sigma
    the scheduler has at each index, the noise level of each sigma, and
    the two lists of the following step, which are the sigmas and the
    noise levels moved up by one place with 0 in the last place. *)
Theorem schedule_prepared `{Collaborators} (t_index_list : option (list nat))
    (num_inference_steps : option nat) (w : world) :
  let idx := default (default_t_list (obj w)) t_index_list in
  let n := default (default_num_inference_steps (obj w)) num_inference_steps in
  idx <> [] ->
  Forall (fun i => (i < length (scheduler_timesteps n))%nat
                   /\ (i < length (scheduler_sigmas n))%nat) idx ->
  exists w',
    prepare_flashflowmatch_schedule t_index_list num_inference_steps w = (inr tt, w') /\
    let p := obj w' in
    length (timesteps p) = length idx /\ length (sigmas p) = length idx /\
    length (sigmas_next p) = length idx /\ length (noise_lvs p) = length idx /\
    length (next_noise_lvs p) = length idx /\
    (forall k i, idx !! k = Some i ->
       timesteps p !! k = scheduler_timesteps n !! i /\
       sigmas p !! k = scheduler_sigmas n !! i /\
       noise_lvs p !! k = (fun s => s * pow_neg_half (s * s + 1)) <$> scheduler_sigmas n !! i) /\
    (forall k, (S k < length idx)%nat ->
       sigmas_next p !! k = sigmas p !! S k /\
       next_noise_lvs p !! k = noise_lvs p !! S k) /\
    sigmas_next p !! (length idx - 1)%nat = Some 0 /\
    next_noise_lvs p !! (length idx - 1)%nat = Some 0.
Proof.
  intros idx n Hne Hidx. rewrite prepare_run. fold idx n.
  destruct (index_select_inr (scheduler_timesteps n) idx) as (ts & -> & Hts & Htsk).
  { eapply Forall_impl; [exact Hidx|]. by intros i [? _]. }
  destruct (index_select_inr (scheduler_sigmas n) idx) as (sg & -> & Hsg & Hsgk).
  { eapply Forall_impl; [exact Hidx|]. by intros i [_ ?]. }
  eexists. split; [done|]. cbn.
  assert (0 < length idx)%nat as Hpos by (destruct idx; [done|simpl; lia]).
  unfold shift_left, noise_levels.
  rewrite !length_app, !length_drop, !length_fmap, length_app. simpl.
  repeat split; try lia.
  - by apply Htsk.
  - by apply Hsgk.
  - rewrite list_lookup_fmap. f_equal. by apply Hsgk.
  - rewrite lookup_drop, lookup_app_l by lia. done.
  - rewrite lookup_app_l by (rewrite length_drop, length_fmap; lia).
    by rewrite lookup_drop.
  - rewrite lookup_drop, lookup_app_r by lia.
    replace (1 + (length idx - 1) - length sg)%nat with 0%nat by lia. done.
  - rewrite lookup_app_r by (rewrite length_drop, length_fmap; lia).
    rewrite length_drop, length_fmap.
    replace (length idx - 1 - (length sg - 1))%nat with 0%nat by lia. done.
Qed.

Lemma schedule_prepared_witness :
  exists w',
    prepare_flashflowmatch_schedule None None Toy.world0 = (inr tt, w') /\
    length (timesteps (obj w')) = 4%nat /\
    sigmas_next (obj w') !! 0%nat = sigmas (obj w') !! 1%nat /\
    sigmas_next (obj w') !! 3%nat = Some 0.
Proof.
  destruct (schedule_prepared None None Toy.world0) as (w' & Hrun & Hp).
  - simpl. discriminate.
  - simpl. repeat constructor.
  - exists w'. split; [exact Hrun|].
    destruct Hp as (Hts & _ & _ & _ & _ & _ & Hnext & Hlast & _).
    split; [exact Hts|]. split; [|exact Hlast].
    apply (Hnext 0%nat). simpl. lia.
Defined.

(** X2. An index of [t_index_list] beyond the timesteps of the reference
    scheduler makes [prepare_flashflowmatch_schedule] raise [IndexError]
    before anything is stored: the pipeline is left as it was. *)
Theorem schedule_index_out_of_range `{Collaborators} (t_index_list : option (list nat))
    (num_inference_steps : option nat) (w : world) (i : nat) :
  let idx := default (default_t_list (obj w)) t_index_list in
  let n := default (default_num_inference_steps (obj w)) num_inference_steps in
  i ∈ idx -> (length (scheduler_timesteps n) <= i)%nat ->
  prepare_flashflowmatch_schedule t_index_list num_inference_steps w = (inl IndexError, w).
Proof.
  intros idx n Hi Hlen. rewrite prepare_run. fold idx n.
  by rewrite (index_select_inl _ _ i Hi Hlen).
Qed.

Lemma schedule_index_out_of_range_witness :
  prepare_flashflowmatch_schedule (Some [0; 7]%nat) None Toy.world0
    = (inl IndexError, Toy.world0).
Proof.
  apply (schedule_index_out_of_range (Some [0; 7]%nat) None Toy.world0 7%nat).
  - simpl. apply list_elem_of_In. simpl. tauto.
  - simpl. lia.
Defined.

(** X3. Preparing the schedule twice with the same arguments is the same as
    preparing it once, in the outcome and in what is stored. *)
Theorem schedule_idempotent `{Collaborators} (t_index_list : option (list nat))
    (num_inference_steps : option nat) (w : world) :
  (prepare_flashflowmatch_schedule t_index_list num_inference_steps;;
   prepare_flashflowmatch_schedule t_index_list num_inference_steps) w
  = prepare_flashflowmatch_schedule t_index_list num_inference_steps w.
Proof.
  unfold mbind at 1, M_bind. rewrite (prepare_run _ _ w).
  destruct (index_select _ _) as [e|ts] eqn:Ets; [done|].
  destruct (index_select (scheduler_sigmas _) _) as [e|sg] eqn:Esg; [done|].
  rewrite prepare_run. cbn. by rewrite Ets, Esg.
Qed.

(** X4. After [prepare_flashflowmatch_schedule] has returned, the noise
    levels it stored are the ones [process_mask] computes from the sigmas
    when timesteps are passed: [process_mask] gives the same masks with
    [timesteps=None] and with any timesteps. *)
Theorem stored_levels_match `{Collaborators} (t_index_list : option (list nat))
    (num_inference_steps : option nat) (w w' : world) (masks : masks_arg)
    (strength std : option num_arg) (height width : nat) (use_boolean_mask : bool)
    (ts : list Q) (alpha : option Q) :
  prepare_flashflowmatch_schedule t_index_list num_inference_steps w = (inr tt, w') ->
  process_mask (obj w') masks strength std height width use_boolean_mask None alpha
  = process_mask (obj w') masks strength std height width use_boolean_mask (Some ts) alpha.
Proof.
  rewrite prepare_run.
  destruct (index_select _ _) as [e|tl]; [done|].
  destruct (index_select _ _) as [e|sg]; [done|].
  intros [= <-]. unfold process_mask. done.
Qed.

Lemma stored_levels_match_witness :
  process_mask (obj (prepare_flashflowmatch_schedule None None Toy.world0).2)
    (MaskTensor [Sample.upper]) None None 16 16 true None None
  = process_mask (obj (prepare_flashflowmatch_schedule None None Toy.world0).2)
      (MaskTensor [Sample.upper]) None None 16 16 true (Some [1]) None.
Proof.
  apply (stored_levels_match None None Toy.world0
           (prepare_flashflowmatch_schedule None None Toy.world0).2).
  reflexivity.
Defined.

(** ** Mask preprocessing *)

Lemma process_mask_factor `{Collaborators} (self : pipeline) (masks : masks_arg)
    (strength std : option num_arg) (height width : nat) (ubm : bool)
    (ts : option (list Q)) (alpha : option Q) :
  process_mask self masks strength std height width ubm ts alpha =
    '(base, blurred, sd) ← scaled_masks self masks strength std height width ubm alpha;
    fg ← rearrange_pt (length sd) (concat (quantized self height width ts <$> base));
    mret (fg, blurred, sd).
Proof.
  unfold process_mask, scaled_masks, quantized.
  destruct (masks_to_tensor ubm masks) as [e|t]; [done|]. cbn.
  destruct (if Qltb 0 _ then _ else _) as [e|dm]; [done|]. cbn.
  destruct (schedule_levels self ts) as [lvs nexts]. cbn.
  destruct (if existsb _ _ then _ else _) as [e|[bm sd]]; [done|]. cbn.
  destruct (bcast2 _ bm _) as [e|base]; [done|]. cbn.
  by rewrite fmap_concat, <- list_fmap_compose.
Qed.

Lemma scaled_masks_lengths `{Collaborators} (self : pipeline) (masks : masks_arg)
    (strength std : option num_arg) (height width : nat) (ubm : bool)
    (alpha : option Q) (base blurred : list img) (sd : list Q) :
  arg_fits (masks_len masks) strength -> arg_fits (masks_len masks) std ->
  scaled_masks self masks strength std height width ubm alpha = inr (base, blurred, sd) ->
  length base = masks_len masks /\ length blurred = masks_len masks
  /\ length sd = masks_len masks.
Proof.
  intros Hs Hd Hrun. unfold scaled_masks in Hrun.
  destruct (masks_to_tensor ubm masks) as [|t] eqn:Et; [done|]. cbn in Hrun.
  apply masks_to_tensor_length in Et.
  set (rs := interpolate Bilinear height width <$> t) in *.
  assert (length rs = masks_len masks) as Hrs by (subst rs; by rewrite length_fmap).
  clearbody rs. clear t Et.
  destruct (if Qltb 0 _ then _ else _) as [|dm] eqn:Edm; [done|]. cbn in Hrun.
  assert (length dm = masks_len masks) as Hdm.
  { destruct (Qltb 0 _).
    - destruct rs; [done|]. injection Edm as <-. by rewrite cover_decay_length.
    - by injection Edm as <-. }
  rewrite Hdm in Hrun.
  pose proof (per_mask_length (default_mask_std self) _ _ Hd) as Hstd.
  pose proof (per_mask_length (default_mask_strength self) _ _ Hs) as Hstr.
  destruct (if existsb _ _ then _ else _) as [|[bm sd']] eqn:Eb; [done|]. cbn in Hrun.
  assert (length bm = masks_len masks /\ length sd' = masks_len masks) as [Hbm Hsd].
  { destruct (existsb _ _).
    - unfold gaussian_lowpass in Eb.
      rewrite bcast2_same_length in Eb by (rewrite length_fmap; lia).
      injection Eb as <- <-. rewrite length_zip_with, !length_fmap. lia.
    - injection Eb as <- <-. lia. }
  rewrite bcast2_same_length in Hrun by lia. injection Hrun as <- <- <-.
  rewrite length_zip_with. lia.
Qed.

Lemma scaled_masks_returns `{Collaborators} (self : pipeline) (masks : masks_arg)
    (strength std : option num_arg) (height width : nat) (ubm : bool)
    (alpha : option Q) :
  arg_fits (masks_len masks) strength -> arg_fits (masks_len masks) std ->
  (0 < masks_len masks)%nat ->
  exists base blurred sd,
    scaled_masks self masks strength std height width ubm alpha = inr (base, blurred, sd).
Proof.
  intros Hs Hd Hpos. unfold scaled_masks.
  destruct (masks_to_tensor ubm masks) as [e|t] eqn:Et.
  { destruct masks as [m|[|m ms]|t']; cbn in Et; try discriminate Et. simpl in Hpos. lia. }
  cbn. apply masks_to_tensor_length in Et.
  set (rs := interpolate Bilinear height width <$> t) in *.
  assert (length rs = masks_len masks) as Hrs by (subst rs; by rewrite length_fmap).
  clearbody rs. clear t Et.
  set (stage1 := if Qltb 0 _ then _ else _).
  assert (exists dm, stage1 = inr dm /\ length dm = masks_len masks) as (dm & -> & Hdm).
  { subst stage1. destruct (Qltb 0 _).
    - destruct rs as [|r rs']; [simpl in Hrs; lia|].
      eexists. split; [done|]. by rewrite cover_decay_length.
    - by eexists. }
  cbn. rewrite Hdm.
  pose proof (per_mask_length (default_mask_std self) _ _ Hd) as Hstd.
  pose proof (per_mask_length (default_mask_strength self) _ _ Hs) as Hstr.
  set (stage2 := if existsb _ _ then _ else _).
  assert (exists bm sd', stage2 = inr (bm, sd') /\ length bm = masks_len masks)
    as (bm & sd' & -> & Hbm).
  { subst stage2. destruct (existsb _ _).
    - unfold gaussian_lowpass. rewrite bcast2_same_length by (rewrite length_fmap; lia).
      eexists _, _. split; [done|]. rewrite length_zip_with, !length_fmap. lia.
    - eexists _, _. split; [done|]. lia. }
  cbn. rewrite bcast2_same_length by lia. cbn. by eexists _, _, _.
Qed.

Lemma quantize_steps (self : pipeline) (ts : list Q) `{Collaborators} (m : img) :
  length (quantize (mask_type self) (schedule_levels self (Some ts)).1
            (schedule_levels self (Some ts)).2 m) = length (sigmas self).
Proof.
  cbn. unfold quantize, noise_levels.
  set (lv := _ <$> sigmas self).
  assert (length lv = length (sigmas self)) as Hlv by (subst lv; by rewrite length_fmap).
  clearbody lv.
  repeat case_match;
    rewrite ?length_app, ?length_fmap, ?length_zip_with, ?length_replicate,
      ?length_take, ?length_drop, ?length_app, ?length_drop; simpl; lia.
Qed.

(** With per-region arguments of the right length, [process_mask] is the
    quantization of the scaled masks, region by region. *)
Lemma process_mask_char `{Collaborators} (self : pipeline) (masks : masks_arg)
    (strength std : option num_arg) (height width : nat) (ubm : bool)
    (ts : list Q) (alpha : option Q) :
  arg_fits (masks_len masks) strength -> arg_fits (masks_len masks) std ->
  (0 < masks_len masks)%nat ->
  exists base blurred sd,
    scaled_masks self masks strength std height width ubm alpha = inr (base, blurred, sd)
    /\ length base = masks_len masks
    /\ process_mask self masks strength std height width ubm (Some ts) alpha
       = inr (quantized self height width (Some ts) <$> base, blurred, sd).
Proof.
  intros Hs Hd Hpos.
  destruct (scaled_masks_returns self masks strength std height width ubm alpha Hs Hd Hpos)
    as (base & blurred & sd & Hrun).
  destruct (scaled_masks_lengths _ _ _ _ _ _ _ _ _ _ _ Hs Hd Hrun) as (Hb & _ & Hsd).
  exists base, blurred, sd. split; [done|]. split; [done|].
  rewrite process_mask_factor, Hrun. cbn.
  replace (length sd) with (length (quantized self height width (Some ts) <$> base))
    by (rewrite length_fmap; lia).
  rewrite (rearrange_pt_concat (length (sigmas self))); [done| |].
  - intros E. apply (f_equal length) in E. rewrite length_fmap in E. simpl in E. lia.
  - apply Forall_fmap, Forall_forall. intros m _. cbn. unfold quantized.
    rewrite length_fmap. apply quantize_steps.
Qed.

Lemma has_shape_nearest (h w : nat) (m : img) : has_shape h w (interpolate_nearest h w m).
Proof.
  unfold has_shape, interpolate_nearest. rewrite length_fmap, length_seq. split; [done|].
  apply Forall_fmap, Forall_forall. intros y _. cbn.
  by rewrite length_fmap, length_seq.
Qed.

(** X5. For one or more masks of one size that is not empty, with
    strengths and deviations that are absent, one number or one entry per
    mask, a schedule that is not empty and a canvas of at least
    [vae_scale_factor] rows and columns (so that the latent is not empty),
    [process_mask] returns; the quantized masks have one entry per mask,
    each with one plane per step of the schedule of the size of the
    latent, (height // vae_scale_factor, width // vae_scale_factor); the
    blurred masks and the deviations have one entry per mask. *)
Theorem process_mask_shape `{Collaborators} (self : pipeline) (masks : masks_arg)
    (strength std : option num_arg) (height width : nat) (use_boolean_mask : bool)
    (ts : list Q) (alpha : option Q) :
  arg_fits (masks_len masks) strength -> arg_fits (masks_len masks) std ->
  (0 < masks_len masks)%nat -> one_size masks -> sigmas self <> [] ->
  (0 < height / Pos.to_nat (vae_scale_factor self))%nat ->
  (0 < width / Pos.to_nat (vae_scale_factor self))%nat ->
  exists fg blurred sd,
    process_mask self masks strength std height width use_boolean_mask (Some ts) alpha
      = inr (fg, blurred, sd) /\
    length fg = masks_len masks /\ length blurred = masks_len masks /\
    length sd = masks_len masks /\
    Forall (fun region =>
              length region = length (sigmas self) /\
              Forall (has_shape (height / Pos.to_nat (vae_scale_factor self))
                        (width / Pos.to_nat (vae_scale_factor self))) region) fg.
Proof.
  intros Hs Hd Hpos _ _ _ _.
  destruct (process_mask_char self masks strength std height width use_boolean_mask ts
              alpha Hs Hd Hpos) as (base & blurred & sd & Hsc & Hb & Hrun).
  destruct (scaled_masks_lengths _ _ _ _ _ _ _ _ _ _ _ Hs Hd Hsc) as (_ & Hbl & Hsd).
  exists (quantized self height width (Some ts) <$> base), blurred, sd.
  split; [done|]. rewrite length_fmap. repeat split; try done.
  apply Forall_fmap, Forall_forall. intros m _. cbn. unfold quantized. split.
  - rewrite length_fmap. apply quantize_steps.
  - apply Forall_fmap, Forall_forall. intros q _. apply has_shape_nearest.
Qed.

Lemma process_mask_shape_witness :
  exists fg blurred sd,
    process_mask Toy.smd (MaskTensor [Sample.upper; Sample.left]) None
      (Some (NumList [0; 0])) 16 16 true (Some [750 # 1]) None = inr (fg, blurred, sd) /\
    length fg = 2%nat /\ length blurred = 2%nat /\ length sd = 2%nat /\
    Forall (fun region => length region = 4%nat /\ Forall (has_shape 2 2) region) fg.
Proof.
  apply (process_mask_shape Toy.smd (MaskTensor [Sample.upper; Sample.left]) None
           (Some (NumList [0; 0])) 16 16 true [750 # 1] None).
  - simpl. done.
  - simpl. reflexivity.
  - simpl. lia.
  - exists 16%nat, 16%nat. split; [lia|]. split; [lia|]. vm_compute. repeat constructor.
  - simpl. discriminate.
  - vm_compute. lia.
  - vm_compute. lia.
Defined.

(** *** The values of the quantized masks *)

Lemma clip_unit (x : Q) : 0 <= clip 0 1 x /\ clip 0 1 x <= 1.
Proof.
  unfold clip. split.
  - apply Q.min_glb; [apply Q.le_max_r|done].
  - apply Q.le_min_r.
Qed.

Lemma pixels_imap1 (P : Q -> Prop) (f : Q -> Q) (m : img) :
  (forall v, P (f v)) -> Forall (Forall P) (imap1 f m).
Proof.
  intros Hf. unfold imap1. apply Forall_fmap, Forall_forall. intros row _. cbn.
  apply Forall_fmap, Forall_forall. intros v _. apply Hf.
Qed.

Lemma pixels_nearest (P : Q -> Prop) (h w : nat) (m : img) :
  P 0 -> Forall (Forall P) m -> Forall (Forall P) (interpolate_nearest h w m).
Proof.
  intros H0 Hm. unfold interpolate_nearest.
  apply Forall_fmap, Forall_forall. intros y _. cbn.
  apply Forall_fmap, Forall_forall. intros x _. cbn.
  destruct (m !! _) as [row|] eqn:Er; simpl; [|done].
  destruct (row !! _) as [v|] eqn:Ev; simpl; [|done].
  eapply Forall_lookup_1; [|exact Ev]. eapply Forall_lookup_1; [exact Hm|exact Er].
Qed.

Lemma rearrange_pt_Forall {A : Type} (P : A -> Prop) (p : nat) (flat : list A)
    (r : list (list A)) :
  rearrange_pt p flat = inr r -> Forall P flat -> Forall (Forall P) r.
Proof.
  unfold rearrange_pt. destruct (_ || _); [done|]. intros [= <-] Hflat.
  apply Forall_fmap, Forall_forall. intros i _. cbn.
  by apply Forall_take, Forall_drop.
Qed.

Lemma process_mask_pixels `{Collaborators} (P : Q -> Prop) (self : pipeline)
    (masks : masks_arg) (strength std : option num_arg) (height width : nat)
    (ubm : bool) (ts : option (list Q)) (alpha : option Q)
    (fg : list (list img)) (blurred : list img) (sd : list Q) :
  P 0 ->
  (forall m, Forall (Forall (Forall P))
               (quantize (mask_type self) (schedule_levels self ts).1
                  (schedule_levels self ts).2 m)) ->
  process_mask self masks strength std height width ubm ts alpha = inr (fg, blurred, sd) ->
  Forall (Forall (Forall (Forall P))) fg.
Proof.
  intros H0 Hq. rewrite process_mask_factor.
  destruct (scaled_masks _ _ _ _ _ _ _ _) as [e|[[base bl] sd']]; [done|]. cbn.
  destruct (rearrange_pt _ _) as [e|r] eqn:Er; [done|]. cbn. intros [= <- _ _].
  eapply rearrange_pt_Forall; [exact Er|].
  apply Forall_concat, Forall_fmap, Forall_forall. intros m _. cbn. unfold quantized.
  apply Forall_fmap. eapply Forall_impl; [apply Hq|].
  intros q Hq'. cbn. by apply pixels_nearest.
Qed.

(** X6. In the discrete mode every value of every quantized mask that
    [process_mask] returns is 0 or 1. *)
Theorem discrete_masks_binary `{Collaborators} (self : pipeline) (masks : masks_arg)
    (strength std : option num_arg) (height width : nat) (use_boolean_mask : bool)
    (ts : option (list Q)) (alpha : option Q)
    (fg : list (list img)) (blurred : list img) (sd : list Q) :
  mask_type self = "discrete" ->
  process_mask self masks strength std height width use_boolean_mask ts alpha
    = inr (fg, blurred, sd) ->
  Forall (Forall binary) fg.
Proof.
  intros Hmode. apply (process_mask_pixels (fun v => v = 0 \/ v = 1)); [by left|].
  intros m. rewrite Hmode, quantize_discrete_mode.
  apply Forall_fmap, Forall_forall. intros lv _. cbn.
  apply pixels_imap1. intros v. destruct (Qltb lv v); [by right|by left].
Qed.

Lemma discrete_masks_binary_witness :
  exists fg blurred sd,
    process_mask Toy.smd (MaskTensor [Sample.upper; Sample.left]) None None 16 16 true
      None (Some 0) = inr (fg, blurred, sd) /\
    Forall (Forall binary) fg.
Proof.
  eexists _, _, _. split; [vm_compute; reflexivity|].
  eapply (discrete_masks_binary Toy.smd (MaskTensor [Sample.upper; Sample.left]) None None
            16 16 true None (Some 0)).
  - reflexivity.
  - vm_compute. reflexivity.
Defined.

(** X7. In the discrete, the semi-continuous and the continuous mode every
    value of every quantized mask that [process_mask] returns lies in
    [0, 1], whatever the strengths and the blurred values are, provided
    that the noise level of every step at which the mode divides by
    [noise_lvs - next_noise_lvs] differs from the next one: the last step
    in the semi-continuous mode, every step in the continuous mode. *)
Theorem quantized_masks_unit_interval `{Collaborators} (self : pipeline)
    (masks : masks_arg) (strength std : option num_arg) (height width : nat)
    (use_boolean_mask : bool) (ts : option (list Q)) (alpha : option Q)
    (fg : list (list img)) (blurred : list img) (sd : list Q) :
  let lvs := (schedule_levels self ts).1 in
  let nexts := (schedule_levels self ts).2 in
  mask_type self = "discrete"
  \/ (mask_type self = "semi-continuous" /\
      distinct_levels (drop (length lvs - 1) lvs) (drop (length nexts - 1) nexts))
  \/ (mask_type self = "continuous" /\ distinct_levels lvs nexts) ->
  process_mask self masks strength std height width use_boolean_mask ts alpha
    = inr (fg, blurred, sd) ->
  Forall (Forall unit_interval) fg.
Proof.
  intros lvs nexts Hmode.
  apply (process_mask_pixels (fun v => 0 <= v /\ v <= 1)); [done|].
  intros m. fold lvs nexts. clearbody lvs nexts.
  assert (forall lv, Forall (Forall (fun v => 0 <= v /\ v <= 1)) (quantize_discrete lv m))
    as Hd.
  { intros lv. apply pixels_imap1. intros v. by destruct (Qltb lv v). }
  assert (forall lv nx, Forall (Forall (fun v => 0 <= v /\ v <= 1))
                          (quantize_continuous lv nx m)) as Hc.
  { intros lv nx. apply pixels_imap1. intros v. apply clip_unit. }
  assert (forall l k, Forall (Forall (Forall (fun v => 0 <= v /\ v <= 1)))
                        (zip_with (fun lv nx => quantize_continuous lv nx m) l k)) as Hz.
  { intros l. induction l as [|lv l IH]; intros [|nx k]; simpl; try done.
    constructor; [apply Hc|apply IH]. }
  unfold quantize.
  destruct Hmode as [->|[[-> _]|[-> _]]]; cbn [String.eqb Ascii.eqb Bool.eqb].
  - apply Forall_fmap, Forall_forall. intros lv _. apply Hd.
  - apply Forall_app. split; [|apply Hz].
    apply Forall_fmap, Forall_forall. intros lv _. apply Hd.
  - apply Hz.
Qed.

Lemma quantized_masks_unit_interval_witness :
  exists fg blurred sd,
    process_mask (with_mask_type "continuous" Toy.smd)
      (MaskTensor [Sample.upper; Sample.left]) (Some (NumScalar 3)) None 16 16 true
      None (Some 0) = inr (fg, blurred, sd) /\
    Forall (Forall unit_interval) fg.
Proof.
  eexists _, _, _. split; [vm_compute; reflexivity|].
  eapply (quantized_masks_unit_interval (with_mask_type "continuous" Toy.smd)
            (MaskTensor [Sample.upper; Sample.left]) (Some (NumScalar 3)) None
            16 16 true None (Some 0)).
  - right. right. split; [reflexivity|]. vm_compute. repeat constructor.
  - vm_compute. reflexivity.
Defined.

(** *** The semi-continuous mode *)

Lemma quantize_semi_lookup (lvs nexts : list Q) (m : img) (t : nat) :
  length nexts = length lvs ->
  quantize "semi-continuous" lvs nexts m !! t =
    if (S t <? length lvs)%nat
    then quantize "discrete" lvs nexts m !! t
    else quantize "continuous" lvs nexts m !! t.
Proof.
  intros Hn. unfold quantize. cbn [String.eqb Ascii.eqb Bool.eqb]. rewrite Hn.
  destruct (Nat.ltb_spec (S t) (length lvs)) as [Hlt|Hge].
  - rewrite lookup_app_l by (rewrite length_fmap, length_take; lia).
    rewrite !list_lookup_fmap, lookup_take_lt by lia. done.
  - destruct (decide (length lvs = 0)%nat) as [E0|Hpos].
    { destruct lvs; [|done]. by destruct nexts. }
    rewrite lookup_app_r by (rewrite length_fmap, length_take; lia).
    rewrite length_fmap, length_take, !lookup_zip_with, !lookup_drop.
    replace (length lvs - 1 + (t - (length lvs - 1) `min` length lvs))%nat with t by lia.
    done.
Qed.

Lemma schedule_levels_lengths `{Collaborators} (self : pipeline) (ts : list Q) :
  sigmas self <> [] ->
  length (schedule_levels self (Some ts)).2 = length (schedule_levels self (Some ts)).1.
Proof.
  intros Hne. cbn. unfold noise_levels.
  rewrite length_app, length_drop, length_fmap. simpl.
  destruct (sigmas self); [done|]. simpl. lia.
Qed.

(** X8. The semi-continuous mode is the discrete mode at every step but the
    last and the continuous mode at the last step: pixel by pixel, for the
    same masks, strengths, deviations and schedule. *)
Theorem semi_continuous_steps `{Collaborators} (self : pipeline) (masks : masks_arg)
    (strength std : option num_arg) (height width : nat) (use_boolean_mask : bool)
    (ts : list Q) (alpha : option Q) (p t y x : nat) :
  arg_fits (masks_len masks) strength -> arg_fits (masks_len masks) std ->
  (0 < masks_len masks)%nat -> sigmas self <> [] ->
  let run mode :=
    process_mask (with_mask_type mode self) masks strength std height width
      use_boolean_mask (Some ts) alpha in
  mask_px (run "semi-continuous") p t y x =
    if (S t <? length (sigmas self))%nat
    then mask_px (run "discrete") p t y x
    else mask_px (run "continuous") p t y x.
Proof.
  intros Hs Hd Hpos Hne run.
  assert (forall mode, exists base blurred sd,
            scaled_masks self masks strength std height width use_boolean_mask alpha
              = inr (base, blurred, sd) /\
            run mode = inr (quantized (with_mask_type mode self) height width (Some ts)
                              <$> base, blurred, sd)) as Hrun.
  { intros mode.
    destruct (process_mask_char (with_mask_type mode self) masks strength std height width
                use_boolean_mask ts alpha Hs Hd Hpos) as (base & bl & sd & Hsc & _ & Hr).
    by exists base, bl, sd. }
  destruct (Hrun "semi-continuous") as (base & bl & sd & Hsc & ->).
  destruct (Hrun "discrete") as (base1 & bl1 & sd1 & Hsc1 & ->).
  destruct (Hrun "continuous") as (base2 & bl2 & sd2 & Hsc2 & ->).
  rewrite Hsc in Hsc1, Hsc2. injection Hsc1 as <- <- <-. injection Hsc2 as <- <- <-.
  unfold mask_px. rewrite !list_lookup_fmap.
  destruct (base !! p) as [m|]; simpl; [|by destruct (_ <? _)%nat].
  unfold quantized. rewrite !list_lookup_fmap. cbn [mask_type with_mask_type].
  change (schedule_levels (with_mask_type _ self) (Some ts))
    with (schedule_levels self (Some ts)).
  rewrite quantize_semi_lookup by (by apply schedule_levels_lengths).
  replace (length (schedule_levels self (Some ts)).1) with (length (sigmas self))
    by (cbn; unfold noise_levels; by rewrite length_fmap).
  by destruct (_ <? _)%nat.
Qed.

Lemma semi_continuous_steps_witness :
  let run mode :=
    process_mask (with_mask_type mode Toy.smd) (MaskTensor [Sample.upper; Sample.left])
      None None 16 16 true (Some [750 # 1]) None in
  mask_px (run "semi-continuous") 0 3 1 1 =
    if (S 3 <? length (sigmas Toy.smd))%nat
    then mask_px (run "discrete") 0 3 1 1
    else mask_px (run "continuous") 0 3 1 1.
Proof.
  apply (semi_continuous_steps Toy.smd (MaskTensor [Sample.upper; Sample.left])
           None None 16 16 true [750 # 1] None 0 3 1 1).
  - exact I.
  - exact I.
  - simpl. lia.
  - simpl. discriminate.
Defined.

(** *** The deviations *)

(** X9. What [process_mask] returns as deviations: when one of the
    deviations is positive the masks are blurred and every deviation that
    is not positive is replaced by 1e-5, so that all the returned ones are
    positive; when none is positive nothing is blurred and the deviations
    are returned as they were given. *)
Theorem returned_deviations `{Collaborators} (self : pipeline) (masks : masks_arg)
    (strength std : option num_arg) (height width : nat) (use_boolean_mask : bool)
    (ts : option (list Q)) (alpha : option Q)
    (fg : list (list img)) (blurred : list img) (sd : list Q) :
  process_mask self masks strength std height width use_boolean_mask ts alpha
    = inr (fg, blurred, sd) ->
  let given := per_mask (default_mask_std self) (masks_len masks) std in
  (Exists (fun s => 0 < s) given ->
     sd = (fun s => if Qltb 0 s then s else 1 # 100000) <$> given
     /\ Forall (fun s => 0 < s) sd) /\
  (Forall (fun s => s <= 0) given -> sd = given).
Proof.
  rewrite process_mask_factor.
  destruct (scaled_masks _ _ _ _ _ _ _ _) as [e|[[base bl] sd']] eqn:Hsc; [done|]. cbn.
  destruct (rearrange_pt _ _) as [e|r]; [done|]. cbn. intros [= _ _ <-].
  unfold scaled_masks in Hsc.
  destruct (masks_to_tensor _ _) as [|t] eqn:Et; [done|]. cbn in Hsc.
  apply masks_to_tensor_length in Et.
  destruct (if Qltb 0 _ then _ else _) as [|dm] eqn:Edm; [done|]. cbn in Hsc.
  assert (length dm = masks_len masks) as Hdm.
  { rewrite <- Et. destruct (Qltb 0 _).
    - destruct (_ <$> t) eqn:E; [done|]. injection Edm as <-.
      by rewrite cover_decay_length, <- E, length_fmap.
    - injection Edm as <-. by rewrite length_fmap. }
  rewrite Hdm in Hsc.
  set (given := per_mask (default_mask_std self) (masks_len masks) std) in *.
  clearbody given.
  destruct (existsb (Qltb 0) given) eqn:Eex.
  - destruct (gaussian_lowpass _ _) as [|bm]; [done|]. cbn in Hsc.
    destruct (bcast2 _ bm _) as [|b]; [done|]. injection Hsc as _ _ <-.
    split.
    + intros _. split; [done|]. apply Forall_fmap, Forall_forall. intros s _. cbn.
      destruct (Qltb 0 s) eqn:E; [by apply Qltb_lt|done].
    + intros Hall. exfalso. apply existsb_exists in Eex as (s & Hin & Hs).
      apply Qltb_lt in Hs. rewrite Forall_forall in Hall.
      apply list_elem_of_In in Hin. apply Hall in Hin.
      by apply Qlt_not_le in Hs.
  - cbn in Hsc. destruct (bcast2 _ dm _) as [|b]; [done|]. injection Hsc as _ _ <-.
    split; [|done].
    intros Hex. exfalso. apply Exists_exists in Hex as (s & Hin & Hs).
    assert (existsb (Qltb 0) given = true) as Ht; [|congruence].
    apply existsb_exists. exists s. split; [by apply list_elem_of_In|by apply Qltb_lt].
Qed.

Lemma returned_deviations_witness :
  exists fg blurred sd,
    process_mask Toy.smd (MaskTensor [Sample.upper; Sample.left]) None
      (Some (NumList [2; 0])) 16 16 true None None = inr (fg, blurred, sd) /\
    sd = [2; 1 # 100000].
Proof.
  eexists _, _, _. split; [vm_compute; reflexivity|].
  eapply (returned_deviations Toy.smd (MaskTensor [Sample.upper; Sample.left]) None
            (Some (NumList [2; 0])) 16 16 true None None).
  - vm_compute. reflexivity.
  - simpl. apply Exists_cons_hd. reflexivity.
Defined.

(** ** The scheduler *)

Lemma step_undoes_noise_row (s : Q) (r r' : list Q) :
  length r = length r' ->
  Forall2 Qeq
    (zip_with (fun l n => l - n * s)
       (zip_with Qplus (Qmult (1 - s) <$> r) (Qmult s <$> r')) (zip_with Qminus r' r)) r.
Proof.
  revert r'. induction r as [|a r IH]; intros [|e r'] Hlen; simpl in *; try done.
  constructor; [ring|]. apply IH. lia.
Qed.

Lemma step_undoes_noise_plane (s : Q) (a b : img) :
  Forall2 (fun r r' : list Q => length r = length r') a b ->
  Forall2 (Forall2 Qeq)
    (imap2 (fun l n => l - n * s)
       (iadd (imap1 (Qmult (1 - s)) a) (imap1 (Qmult s) b)) (imap2 Qminus b a)) a.
Proof.
  induction 1 as [|r r' a b Hr _ IH]; [constructor|].
  cbn. constructor; [by apply step_undoes_noise_row|exact IH].
Qed.

(** X10. Adding noise and stepping back: when the latent of step [idx] is
    made from a clean latent and a noise of the same shape by
    [scheduler_add_noise], and the prediction is the exact velocity
    [noise - clean], [scheduler_step] at the same index gives the clean
    latent back, entry by entry. Nothing is drawn and nothing is stored. *)
Theorem add_noise_then_step `{Collaborators} (w : world) (clean noise : latent)
    (idx : nat) :
  (idx < length (sigmas (obj w)))%nat -> same_shape clean noise ->
  exists noisy out,
    scheduler_add_noise clean (Some noise) (Z.of_nat idx) w = (inr noisy, w) /\
    scheduler_step (obj w) [lmap2 Qminus noise clean] idx [noisy] = inr [out] /\
    latent_eq out clean.
Proof.
  intros Hidx Hshape.
  destruct (lookup_lt_is_Some_2 _ _ Hidx) as [s Hs].
  exists (ladd (lscale (1 - s) clean) (lscale s noise)).
  exists (lmap2 (fun l n => l - n * s) (ladd (lscale (1 - s) clean) (lscale s noise))
            (lmap2 Qminus noise clean)).
  split; [|split].
  - unfold scheduler_add_noise, mbind, M_bind, get_self. cbn.
    replace (Z.of_nat idx <? Z.of_nat (length (sigmas (obj w))))%Z with true
      by (symmetry; apply Z.ltb_lt; lia).
    replace (0 <=? Z.of_nat idx)%Z with true by (symmetry; apply Z.leb_le; lia).
    cbn. by rewrite Nat2Z.id, Hs.
  - unfold scheduler_step. by rewrite Hs.
  - unfold latent_eq. induction Hshape as [|a b clean noise Hab _ IH]; [constructor|].
    cbn. constructor; [by apply step_undoes_noise_plane|exact IH].
Qed.

Lemma add_noise_then_step_witness :
  exists noisy out,
    scheduler_add_noise [[[1; 2]]] (Some [[[3; 5]]]) 1 Toy.world0
      = (inr noisy, Toy.world0) /\
    scheduler_step Toy.smd [lmap2 Qminus [[[3; 5]]] [[[1; 2]]]] 1 [noisy] = inr [out] /\
    latent_eq out [[[1; 2]]].
Proof.
  apply (add_noise_then_step Toy.world0 [[[1; 2]]] [[[3; 5]]] 1).
  - simpl. lia.
  - repeat constructor.
Defined.

(** ** The white latent *)

Lemma has_shape_crop (h w h' w' : nat) (m : img) :
  has_shape h w m -> (h' <= h)%nat -> (w' <= w)%nat -> has_shape h' w' (crop_img h' w' m).
Proof.
  intros [Hh Hw] Hh' Hw'. unfold has_shape, crop_img.
  rewrite length_fmap, length_take. split; [lia|].
  apply Forall_fmap, Forall_take. eapply Forall_impl; [exact Hw|].
  intros row Hrow. cbn in *. rewrite length_take. lia.
Qed.

Lemma lpx_crop (h w : nat) (l : latent) (c y x : nat) :
  (y < h)%nat -> (x < w)%nat -> lpx (crop h w l) c y x = lpx l c y x.
Proof.
  intros Hy Hx. unfold lpx, crop. rewrite list_lookup_fmap.
  destruct (l !! c) as [m|]; [|done]. simpl. unfold px, crop_img.
  rewrite list_lookup_fmap, lookup_take_lt by lia.
  destruct (m !! y) as [row|]; [|done]. simpl. by rewrite lookup_take_lt by lia.
Qed.

(** X11. A stored white latent with at least [height] rows and [width]
    columns is reused: [get_white_background] returns the stored latent cut
    to its first (height // vae_scale_factor) rows and
    (width // vae_scale_factor) columns - the same channels, the same
    values at every position that is kept - encodes nothing and leaves the
    pipeline, the generator and the log as they were. *)
Theorem white_cache_hit `{Collaborators} (height width : nat) (w : world) (wh : latent) :
  white (obj w) = Some wh ->
  Forall (has_shape (shape_m2 wh) (shape_m1 wh)) wh ->
  (height <= shape_m2 wh)%nat -> (width <= shape_m1 wh)%nat ->
  let h := (height / Pos.to_nat (vae_scale_factor (obj w)))%nat in
  let w_ := (width / Pos.to_nat (vae_scale_factor (obj w)))%nat in
  get_white_background height width w = (inr (crop h w_ wh), w) /\
  length (crop h w_ wh) = length wh /\
  Forall (has_shape h w_) (crop h w_ wh) /\
  forall c y x, (y < h)%nat -> (x < w_)%nat -> lpx (crop h w_ wh) c y x = lpx wh c y x.
Proof.
  intros Hwh Hshape Hh Hw h w_.
  assert ((shape_m2 wh <? height)%nat || (shape_m1 wh <? width)%nat = false) as Hb.
  { apply orb_false_iff. split; by apply Nat.ltb_ge. }
  split; [|split; [|split]].
  - unfold get_white_background, mbind, M_bind, get_self. by rewrite Hwh, Hb.
  - unfold crop. by rewrite length_fmap.
  - unfold crop. apply Forall_fmap. eapply Forall_impl; [exact Hshape|].
    intros m Hm. cbn.
    assert (forall n, (n / Pos.to_nat (vae_scale_factor (obj w)) <= n)%nat) as Hdiv.
    { intros n. apply Nat.Div0.div_le_upper_bound.
      pose proof (Pos2Nat.is_pos (vae_scale_factor (obj w))). nia. }
    eapply has_shape_crop; [exact Hm| |].
    + pose proof (Hdiv height). lia.
    + pose proof (Hdiv width). lia.
  - intros c y x Hy Hx. by apply lpx_crop.
Qed.

Lemma white_cache_hit_witness :
  let w := World (set_white (replicate 4 (ones_img 16 16)) Toy.smd) 0 [] in
  let wh := replicate 4 (ones_img 16 16) in
  let h := (16 / Pos.to_nat (vae_scale_factor (obj w)))%nat in
  let w_ := (8 / Pos.to_nat (vae_scale_factor (obj w)))%nat in
  get_white_background 16 8 w = (inr (crop h w_ wh), w) /\
  length (crop h w_ wh) = length wh /\
  Forall (has_shape h w_) (crop h w_ wh) /\
  forall c y x, (y < h)%nat -> (x < w_)%nat -> lpx (crop h w_ wh) c y x = lpx wh c y x.
Proof.
  apply (white_cache_hit 16 8 (World (set_white (replicate 4 (ones_img 16 16)) Toy.smd) 0 [])
           (replicate 4 (ones_img 16 16))).
  - reflexivity.
  - vm_compute. repeat constructor.
  - vm_compute. lia.
  - vm_compute. lia.
Defined.

(** ** What a call leaves behind *)

Section frames.
Context `{Collaborators} (R : world -> world -> Prop) `{!Frame R}.

Lemma keeps_ret {A : Type} (a : A) : keeps R (mret a).
Proof. intros w. apply frame_refl. Qed.

Lemma keeps_lift {A : Type} (r : result A) : keeps R (lift r).
Proof. intros w. apply frame_refl. Qed.

Lemma keeps_raise {A : Type} (e : py_error) : keeps R (raise (A:=A) e).
Proof. intros w. apply frame_refl. Qed.

Lemma keeps_get_self : keeps R get_self.
Proof. intros w. apply frame_refl. Qed.

Lemma keeps_py_assert (b : bool) (msg : string) : keeps R (py_assert b msg).
Proof. intros w. unfold py_assert. destruct b; apply frame_refl. Qed.

Lemma keeps_bind {A B : Type} (m : M A) (f : A -> M B) :
  keeps R m -> (forall a, keeps R (f a)) -> keeps R (m ≫= f).
Proof.
  intros Hm Hf w. unfold mbind, M_bind. specialize (Hm w).
  destruct (m w) as [[e|a] w1]; [exact Hm|].
  eapply frame_trans; [exact Hm|apply Hf].
Qed.

Lemma keeps_for_each {A S : Type} (xs : list A) (body : A -> S -> M S) (s : S) :
  (forall x t, keeps R (body x t)) -> keeps R (for_each xs body s).
Proof.
  intros Hbody. revert s. induction xs as [|x xs IH]; intros s; simpl.
  - apply keeps_ret.
  - apply keeps_bind; [apply Hbody|apply IH].
Qed.

Lemma keeps_run {A : Type} (m : M A) (w w' : world) (r : result A) :
  keeps R m -> m w = (r, w') -> R w w'.
Proof. intros Hm E. specialize (Hm w). by rewrite E in Hm. Qed.
End frames.

Ltac frame_inst :=
  try match goal with
      | |- Frame _ => exact _
      | |- Silent _ => exact _
      end.

Ltac keeps_step :=
  lazymatch goal with
  | |- keeps _ (mbind _ _) => (apply keeps_bind; frame_inst); [|intros]
  | |- keeps _ (mret _) => apply keeps_ret; frame_inst
  | |- keeps _ (lift _) => apply keeps_lift; frame_inst
  | |- keeps _ (raise _) => apply keeps_raise; frame_inst
  | |- keeps _ get_self => apply keeps_get_self; frame_inst
  | |- keeps _ draw => apply frame_draw; frame_inst
  | |- keeps _ (emit EvTransformer) => apply silent_transformer; frame_inst
  | |- keeps _ (emit _) => (apply frame_emit; frame_inst); discriminate
  | |- keeps _ (update_self (set_white _)) => apply frame_white; frame_inst
  | |- keeps _ (py_assert _ _) => apply keeps_py_assert; frame_inst
  | |- keeps _ (for_each _ _ _) => (apply keeps_for_each; frame_inst); intros
  | |- keeps _ (match ?x with _ => _ end) => destruct x
  | |- keeps _ (let '(_, _) := ?x in _) => destruct x
  end.

Ltac keeps_auto := repeat keeps_step.

Tactic Notation "kapply" constr(l) := (apply l; frame_inst).

Section silent_frames.
Context `{Collaborators} (R : world -> world -> Prop) `{!Frame R}.

Lemma keeps_encode_imgs (imgs : latent) : keeps R (encode_imgs imgs).
Proof. unfold encode_imgs. keeps_auto. Qed.

Lemma keeps_get_white_background (height width : nat) :
  keeps R (get_white_background height width).
Proof. unfold get_white_background, encode_imgs. keeps_auto. Qed.

Lemma keeps_scheduler_add_noise (lat : latent) (noise : option latent) (idx : Z) :
  keeps R (scheduler_add_noise lat noise idx).
Proof. unfold scheduler_add_noise, randn_like. keeps_auto. Qed.

Lemma keeps_get_text_prompts (image : picture) : keeps R (get_text_prompts image).
Proof. unfold get_text_prompts. keeps_auto. Qed.

Lemma keeps_prepare_embeds (self : pipeline) (hb : bool) (ps : option num_arg)
    (masks : masks_arg) (nm np nn : nat) (cfg : bool)
    (enc : list embed * option (list embed) * list embed * option (list embed)) :
  keeps R (prepare_embeds self hb ps masks nm np nn cfg enc).
Proof. unfold prepare_embeds. destruct enc as [[[pe ne] ppe] npe]. keeps_auto. Qed.

Context `{!Silent R}.

Lemma keeps_guide (cfg : bool) (gs gr : Q) (np : list latent) :
  keeps R (guide cfg gs gr np).
Proof. unfold guide. keeps_auto. Qed.

Lemma keeps_predict (cfg : bool) (gs gr : Q) (pe ppe : list embed) (t : Q)
    (l : list latent) :
  keeps R (predict cfg gs gr pe ppe t l).
Proof. unfold predict. keeps_auto. kapply keeps_guide. Qed.

Lemma keeps_denoise_tile (nm : nat) (bs : Z) (bms bls : Q) (hb : bool)
    (nbl : list latent) (wh : option latent) (noise : latent) (cfg : bool) (gs gr : Q)
    (pe ppe : list embed) (tm : list img) (i : nat) (t : Q) (fg : list img)
    (lat : latent) (j : nat) (v : view) (acc : latent * latent) :
  keeps R (denoise_tile nm bs bms bls hb nbl wh noise cfg gs gr pe ppe tm i t fg lat j v acc).
Proof.
  unfold denoise_tile. destruct acc as [value count_all].
  kapply keeps_bind; [|intros [l b]].
  { keeps_auto. kapply keeps_scheduler_add_noise. }
  kapply keeps_bind; [kapply keeps_predict|intros np].
  keeps_auto.
Qed.

Lemma keeps_accumulate (nm : nat) (bs : Z) (bms bls : Q) (hb : bool)
    (nbl : list latent) (wh : option latent) (noise : latent) (cfg : bool) (gs gr : Q)
    (pe ppe : list embed) (views : list view) (tm : list img) (i : nat) (t : Q)
    (fg : list img) (lat : latent) :
  keeps R (accumulate nm bs bms bls hb nbl wh noise cfg gs gr pe ppe views tm i t fg lat).
Proof.
  unfold accumulate. kapply keeps_for_each. intros [j v] acc. kapply keeps_denoise_tile.
Qed.

Lemma keeps_sampling_step (nm : nat) (bs : Z) (bms bls : Q) (hb : bool)
    (nbl : list latent) (wh : option latent) (noise : latent) (cfg : bool) (gs gr : Q)
    (pe ppe : list embed) (views : list view) (tm : list img) (fgs : list (list img))
    (i : nat) (t : Q) (lat : latent) :
  keeps R (sampling_step nm bs bms bls hb nbl wh noise cfg gs gr pe ppe views tm fgs i t lat).
Proof.
  unfold sampling_step.
  kapply keeps_bind; [keeps_auto|intros fg].
  kapply keeps_bind; [kapply keeps_accumulate|intros [value count_all]].
  kapply keeps_bind; [keeps_auto|intros l].
  kapply keeps_bind; [keeps_auto|intros self].
  destruct (_ <? _)%nat; [kapply keeps_scheduler_add_noise|kapply keeps_ret].
Qed.

Lemma keeps_check_counts (nm np nn : nat) : keeps R (check_counts nm np nn).
Proof. unfold check_counts. keeps_auto. Qed.

Lemma keeps_background_stage (a : call_args) (ps ns : list string)
    (fg : list (list img)) (bg : list img) (hb : bool) :
  keeps R (background_stage a ps ns fg bg hb).
Proof.
  unfold background_stage.
  destruct hb; [|kapply keeps_ret].
  destruct (background a) as [b|], (background_prompt a) as [bp|];
    keeps_auto; try kapply keeps_get_text_prompts; kapply keeps_encode_imgs.
Qed.

Lemma keeps_init_latents (h w : nat) (hb : bool) (bg : option latent) :
  keeps R (init_latents h w hb bg).
Proof.
  unfold init_latents.
  keeps_auto; try kapply keeps_scheduler_add_noise.
Qed.

Lemma keeps_finish (a : call_args) (hb : bool) (lat : latent) (g : list img)
    (bg : option latent) :
  keeps R (finish a hb lat g bg).
Proof. unfold finish. keeps_auto. Qed.

Lemma keeps_generate (a : call_args) (p : prompts_arg) (m : masks_arg) :
  (forall n, num_inference_steps a = Some n ->
             keeps R (prepare_flashflowmatch_schedule (Some (seq 0 n)) (Some n))) ->
  keeps R (generate a p m).
Proof.
  intros Hprep. unfold generate.
  kapply keeps_bind.
  { destruct (num_inference_steps a) as [n|]; [by apply Hprep|kapply keeps_ret]. }
  intros []. kapply keeps_bind; [kapply keeps_get_self|intros self].
  kapply keeps_bind; [kapply keeps_check_counts|intros []].
  kapply keeps_bind; [kapply keeps_lift|intros [[fg g] sd]].
  kapply keeps_bind; [kapply keeps_background_stage|].
  intros [[[[[fg1 ps] ns] hb] bg] bgl].
  kapply keeps_bind.
  { destruct (_ <? _)%Z; [|kapply keeps_ret].
    kapply keeps_bind; [kapply keeps_get_white_background|intros wh; kapply keeps_ret]. }
  intros wh. kapply keeps_bind; [kapply frame_emit; discriminate|intros []].
  kapply keeps_bind; [kapply keeps_lift|intros enc].
  kapply keeps_bind; [kapply keeps_prepare_embeds|intros [pe ppe]].
  kapply keeps_bind; [kapply keeps_init_latents|intros [[noise lat] nbl]].
  destruct (tiling a _ _ _) as [views tile_masks].
  kapply keeps_bind; [kapply keeps_get_self|intros self2].
  kapply keeps_bind; [|intros l; kapply keeps_finish].
  kapply keeps_for_each. intros [i t] l. kapply keeps_sampling_step.
Qed.

Lemma keeps_call (a : call_args) :
  (forall n, num_inference_steps a = Some n ->
             keeps R (prepare_flashflowmatch_schedule (Some (seq 0 n)) (Some n))) ->
  keeps R (__call__ a).
Proof.
  intros Hprep. unfold __call__.
  destruct (no_prompts _).
  { destruct (background a), (background_prompt a); (kapply keeps_ret || kapply keeps_raise). }
  destruct (no_masks _); [kapply keeps_raise|].
  destruct (prompts a) as [p|]; [|kapply keeps_raise].
  destruct (masks a) as [m|]; [|kapply keeps_raise].
  by kapply keeps_generate.
Qed.
End silent_frames.

#[export] Instance same_settings_frame : Frame same_settings.
Proof.
  split.
  - done.
  - unfold same_settings. congruence.
  - by intros e _ w.
  - by intros w.
  - by intros wh w.
Qed.

#[export] Instance same_settings_silent : Silent same_settings.
Proof. by intros w. Qed.

(** X12. A call that is not given [num_inference_steps] leaves the settings
    and the schedule of the pipeline as they were, whether it returns or
    raises: the only attribute it may write is the stored white latent. *)
Theorem call_keeps_settings `{Collaborators} (a : call_args) (w : world) :
  num_inference_steps a = None ->
  without_white (obj (__call__ a w).2) = without_white (obj w).
Proof.
  intros Hn.
  apply (keeps_call same_settings). intros n Hs. congruence.
Qed.

Lemma call_keeps_settings_witness :
  without_white
    (obj (__call__ (with_regions Regions.args Regions.each [Regions.cat; Regions.dog])
            Toy.world0).2)
  = without_white (obj Toy.world0).
Proof.
  apply (call_keeps_settings
           (with_regions Regions.args Regions.each [Regions.cat; Regions.dog]) Toy.world0).
  reflexivity.
Defined.

Lemma generate_after_prepare `{Collaborators} (a : call_args) (p : prompts_arg)
    (m : masks_arg) (n : nat) :
  num_inference_steps a = Some n ->
  generate a p m =
    (prepare_flashflowmatch_schedule (Some (seq 0 n)) (Some n);;
     generate (with_num_inference_steps None a) p m).
Proof. intros Hn. unfold generate. rewrite Hn. reflexivity. Qed.

(** X13. A call with prompts and masks that is given [num_inference_steps]
    prepares the schedule of that many steps first and never puts the
    former one back: after the call, returned or raised, the settings and
    the schedule of the pipeline are those that
    [prepare_flashflowmatch_schedule(list(range(n)), n)] leaves. *)
Theorem call_replaces_schedule `{Collaborators} (a : call_args) (n : nat) (w : world) :
  num_inference_steps a = Some n ->
  no_prompts (prompts a) = false -> no_masks (masks a) = false ->
  without_white (obj (__call__ a w).2)
  = without_white
      (obj (prepare_flashflowmatch_schedule (Some (seq 0 n)) (Some n) w).2).
Proof.
  intros Hn Hp Hm. unfold __call__. rewrite Hp, Hm.
  destruct (prompts a) as [p|]; [|done]. destruct (masks a) as [m|]; [|done].
  rewrite (generate_after_prepare a p m n Hn). unfold mbind at 1, M_bind.
  destruct (prepare_flashflowmatch_schedule _ _ w) as [[e|[]] w1]; [done|].
  refine (keeps_generate same_settings (with_num_inference_steps None a) p m _ w1).
  intros k Hk. done.
Qed.

Lemma call_replaces_schedule_witness :
  let a := with_num_inference_steps (Some 2%nat)
             (with_regions Regions.args Regions.each [Regions.cat; Regions.dog]) in
  without_white (obj (__call__ a Toy.world0).2)
  = without_white
      (obj (prepare_flashflowmatch_schedule (Some (seq 0 2)) (Some 2%nat) Toy.world0).2).
Proof.
  apply (call_replaces_schedule
           (with_num_inference_steps (Some 2%nat)
              (with_regions Regions.args Regions.each [Regions.cat; Regions.dog]))
           2 Toy.world0); reflexivity.
Defined.

(** ** Runs of the denoiser *)

Lemma transformer_calls_emit (e : event) (w : world) :
  transformer_calls (emit e w).2
  = (transformer_calls w + if is_transformer e then 1 else 0)%nat.
Proof.
  unfold transformer_calls, emit. cbn. rewrite List.filter_app, length_app. simpl.
  by destruct (is_transformer e).
Qed.

#[export] Instance same_transformer_calls_frame : Frame same_transformer_calls.
Proof.
  split.
  - done.
  - unfold same_transformer_calls. congruence.
  - intros e He w. unfold same_transformer_calls. rewrite transformer_calls_emit.
    destruct e; simpl; (done || lia).
  - by intros w.
  - by intros wh w.
Qed.

#[export] Instance quiet_frame : Frame quiet.
Proof.
  split.
  - by split.
  - intros w1 w2 w3 [] []. split; eapply frame_trans; done.
  - intros e He w. split; by apply frame_emit.
  - intros w. split; apply frame_draw.
  - intros wh w. split; apply frame_white.
Qed.

Lemma adds_zero {A : Type} (m : M A) : keeps same_transformer_calls m -> adds 0 m.
Proof.
  intros Hm w a w' E. rewrite Nat.add_0_r. by apply (keeps_run _ _ _ _ _ Hm E).
Qed.

Lemma adds_bind {A B : Type} (j k : nat) (m : M A) (f : A -> M B) :
  adds j m -> (forall a, adds k (f a)) -> adds (j + k) (m ≫= f).
Proof.
  intros Hm Hf w b w' E. apply bind_inr in E as (a & w1 & E1 & E2).
  rewrite (Hf a _ _ _ E2), (Hm _ _ _ E1). lia.
Qed.

Lemma adds_for_each {A S : Type} (k : nat) (xs : list A) (body : A -> S -> M S) (s : S) :
  (forall x t, adds k (body x t)) -> adds (length xs * k) (for_each xs body s).
Proof.
  intros Hbody. revert s. induction xs as [|x xs IH]; intros s; simpl.
  - intros w a w' E. apply mret_inr in E as [_ ->]. lia.
  - apply adds_bind; [apply Hbody|apply IH].
Qed.

Lemma adds_transformer : adds 1 (emit EvTransformer).
Proof.
  intros w a w' E. replace w' with (emit EvTransformer w).2 by (by rewrite E).
  by rewrite transformer_calls_emit.
Qed.

Section denoiser_runs.
Context `{Collaborators}.

Lemma adds_predict (cfg : bool) (gs gr : Q) (pe ppe : list embed) (t : Q)
    (l : list latent) :
  adds 1 (predict cfg gs gr pe ppe t l).
Proof.
  unfold predict. apply (adds_bind 1 0); [apply adds_transformer|intros []].
  apply adds_zero. unfold guide. keeps_auto.
Qed.

Lemma adds_denoise_tile (nm : nat) (bs : Z) (bms bls : Q) (hb : bool)
    (nbl : list latent) (wh : option latent) (noise : latent) (cfg : bool) (gs gr : Q)
    (pe ppe : list embed) (tm : list img) (i : nat) (t : Q) (fg : list img)
    (lat : latent) (j : nat) (v : view) (acc : latent * latent) :
  adds 1 (denoise_tile nm bs bms bls hb nbl wh noise cfg gs gr pe ppe tm i t fg lat j v acc).
Proof.
  unfold denoise_tile. destruct acc as [value count_all].
  apply (adds_bind 0 1); [|intros [l b]].
  { apply adds_zero. keeps_auto. kapply keeps_scheduler_add_noise. }
  apply (adds_bind 1 0); [apply adds_predict|intros np].
  apply adds_zero. keeps_auto.
Qed.

Lemma adds_sampling_step (nm : nat) (bs : Z) (bms bls : Q) (hb : bool)
    (nbl : list latent) (wh : option latent) (noise : latent) (cfg : bool) (gs gr : Q)
    (pe ppe : list embed) (views : list view) (tm : list img) (fgs : list (list img))
    (i : nat) (t : Q) (lat : latent) :
  adds (length views)
    (sampling_step nm bs bms bls hb nbl wh noise cfg gs gr pe ppe views tm fgs i t lat).
Proof.
  unfold sampling_step.
  apply (adds_bind 0 (length views)); [apply adds_zero; keeps_auto|intros fg].
  replace (length views) with (length views + 0)%nat by lia.
  apply adds_bind.
  - unfold accumulate.
    replace (length views) with (length (imap pair views) * 1)%nat
      by (rewrite length_imap; lia).
    apply adds_for_each. intros [j v] acc. apply adds_denoise_tile.
  - intros [value count_all]. apply adds_zero.
    kapply keeps_bind; [keeps_auto|intros l].
    kapply keeps_bind; [keeps_auto|intros self].
    destruct (_ <? _)%nat; [kapply keeps_scheduler_add_noise|kapply keeps_ret].
Qed.

Lemma prepare_calls (t_index_list : option (list nat)) (n : option nat) (w : world) :
  calls (prepare_flashflowmatch_schedule t_index_list n w).2 = calls w.
Proof.
  rewrite prepare_run. destruct (index_select _ _); [done|].
  by destruct (index_select _ _).
Qed.
End denoiser_runs.

(** X14. A call with prompts that returns a picture has run the denoiser
    once for every timestep of the schedule and every tile: with [T]
    timesteps and a canvas of one tile, exactly [T] times. *)
Theorem denoiser_runs_per_call `{Collaborators} (a : call_args) (w w' : world)
    (r : option picture) :
  no_prompts (prompts a) = false ->
  __call__ a w = (inr r, w') ->
  let vsf := Pos.to_nat (vae_scale_factor (obj w')) in
  let views :=
    (tiling a vsf ((height a + vsf - 1) / vsf) ((width a + vsf - 1) / vsf)).1 in
  transformer_calls w'
  = (transformer_calls w + length (timesteps (obj w')) * length views)%nat.
Proof.
  intros Hp Hrun. unfold __call__ in Hrun. rewrite Hp in Hrun.
  destruct (no_masks _); [done|].
  destruct (prompts a) as [p|]; [|done]. destruct (masks a) as [m|]; [|done].
  unfold generate in Hrun.
  apply bind_inr in Hrun as ([] & w1 & Hprep & Hrun).
  assert (same_transformer_calls w w1) as H1.
  { destruct (num_inference_steps a) as [n|].
    - unfold same_transformer_calls, transformer_calls.
      replace w1 with (prepare_flashflowmatch_schedule (Some (seq 0 n)) (Some n) w).2
        by (by rewrite Hprep).
      by rewrite prepare_calls.
    - by apply mret_inr in Hprep as [_ ->]. }
  apply bind_inr in Hrun as (self & w2 & Hself & Hrun).
  injection Hself as <- <-.
  apply bind_inr in Hrun as ([] & w3 & H3 & Hrun).
  apply (keeps_run quiet) in H3; [|kapply keeps_check_counts].
  apply bind_inr in Hrun as ([[fg g] sd] & w4 & H4 & Hrun).
  apply (keeps_run quiet) in H4; [|kapply keeps_lift].
  apply bind_inr in Hrun as ([[[[[fg1 ps] ns] hb] bg] bgl] & w5 & H5 & Hrun).
  apply (keeps_run quiet) in H5; [|kapply keeps_background_stage].
  apply bind_inr in Hrun as (wh & w6 & H6 & Hrun).
  apply (keeps_run quiet) in H6.
  2:{ destruct (_ <? _)%Z; [|kapply keeps_ret].
      kapply keeps_bind; [kapply keeps_get_white_background|intros x; kapply keeps_ret]. }
  apply bind_inr in Hrun as ([] & w7 & H7 & Hrun).
  apply (keeps_run quiet) in H7; [|kapply frame_emit; discriminate].
  apply bind_inr in Hrun as (enc & w8 & H8 & Hrun).
  apply (keeps_run quiet) in H8; [|kapply keeps_lift].
  apply bind_inr in Hrun as ([pe ppe] & w9 & H9 & Hrun).
  apply (keeps_run quiet) in H9; [|kapply keeps_prepare_embeds].
  apply bind_inr in Hrun as ([[noise lat] nbl] & w10 & H10 & Hrun).
  apply (keeps_run quiet) in H10; [|kapply keeps_init_latents].
  destruct (tiling a _ _ _) as [views tile_masks] eqn:Etile.
  apply bind_inr in Hrun as (self2 & w11 & Hself2 & Hrun).
  injection Hself2 as <- <-.
  apply bind_inr in Hrun as (lat' & w12 & Hloop & Hrun).
  apply (keeps_run quiet) in Hrun; [|kapply keeps_finish].
  assert (same_settings w10 w12) as Hs12.
  { eapply (keeps_run same_settings); [|exact Hloop].
    kapply keeps_for_each. intros [i t] l. kapply keeps_sampling_step. }
  assert (transformer_calls w12
          = (transformer_calls w10 + length (timesteps (obj w10)) * length views)%nat)
    as Hc12.
  { replace (length (timesteps (obj w10)))
      with (length (imap pair (timesteps (obj w10)))) by apply length_imap.
    eapply adds_for_each; [|exact Hloop].
    intros [i t] l. apply adds_sampling_step. }
  assert (quiet w1 w10) as Hq10.
  { repeat (eapply frame_trans; [eassumption|]). apply frame_refl. }
  destruct Hq10 as [Hs10 Hc10]. destruct Hrun as [Hs' Hc'].
  unfold same_settings, same_transformer_calls in *.
  assert (without_white (obj w') = without_white (obj w1)) as Hall by congruence.
  assert (without_white (obj w') = without_white (obj w10)) as Hend by congruence.
  apply (f_equal vae_scale_factor) in Hall. apply (f_equal timesteps) in Hend.
  cbn in Hall, Hend. cbn zeta. rewrite Hall, Hend, Etile. cbn. lia.
Qed.

Lemma denoiser_runs_per_call_witness :
  let a := with_regions Regions.args Regions.each [Regions.cat; Regions.dog] in
  let w' := (__call__ a Toy.world0).2 in
  let vsf := Pos.to_nat (vae_scale_factor (obj w')) in
  let views :=
    (tiling a vsf ((height a + vsf - 1) / vsf) ((width a + vsf - 1) / vsf)).1 in
  returned (__call__ a Toy.world0).1 = true /\
  transformer_calls w'
  = (transformer_calls Toy.world0 + length (timesteps (obj w')) * length views)%nat.
Proof.
  intros a.
  assert (returned (__call__ a Toy.world0).1 = true) as Hret
    by (vm_compute; reflexivity).
  split; [exact Hret|].
  destruct (__call__ a Toy.world0) as [[e|r] w1] eqn:E; [discriminate Hret|].
  apply (denoiser_runs_per_call a Toy.world0 w1 r); [reflexivity|exact E].
Defined.

(** ** The stages of a call that returns *)

Lemma init_latents_timesteps `{Collaborators} (h w : nat) (hb : bool)
    (bg : option latent) (u u' : world) (x : latent * latent * list latent) :
  init_latents h w hb bg u = (inr x, u') -> timesteps (obj u') <> [].
Proof.
  intros Hrun.
  assert (same_settings u u') as Hs.
  { eapply (keeps_run same_settings); [|exact Hrun]. kapply keeps_init_latents. }
  apply (f_equal timesteps) in Hs. cbn in Hs. rewrite Hs.
  unfold init_latents in Hrun.
  apply bind_inr in Hrun as (self & u1 & Hself & Hrun). injection Hself as <- <-.
  apply bind_inr in Hrun as (k & u2 & _ & Hrun).
  apply bind_inr in Hrun as (t0 & u3 & Ht0 & _).
  destruct (timesteps (obj u)); [done|done].
Qed.

Lemma generate_inv `{Collaborators} (a : call_args) (p : prompts_arg) (m : masks_arg)
    (w w' : world) (r : option picture) :
  generate a p m w = (inr r, w') ->
  let masks' := match m with MaskImage x => MaskList [x] | _ => m end in
  exists w1 fg g sd w3 fg1 ps ns hb bg bgl w5 wh pe ppe noise lat nbl w10 lat' w12,
    let self := obj w1 in
    let gs := default (default_guidance_scale self) (guidance_scale a) in
    let vsf := Pos.to_nat (vae_scale_factor self) in
    let h := ((height a + vsf - 1) / vsf)%nat in
    let w_ := ((width a + vsf - 1) / vsf)%nat in
    let bg_masks := imap1 (fun s => clip 0 1 (1 - s)) <$> sum_regions fg in
    match num_inference_steps a with
    | Some n => prepare_flashflowmatch_schedule (Some (seq 0 n)) (Some n)
    | None => mret tt
    end w = (inr tt, w1) /\
    quiet w1 w3 /\
    process_mask self masks' (mask_strengths a) (mask_stds a) (height a) (width a)
      (use_boolean_mask a) (Some (timesteps self)) (preprocess_mask_cover_alpha a)
      = inr (fg, g, sd) /\
    background_stage a (as_list p) (as_list (negative_prompts a)) fg bg_masks
      (Qltb 0 (total bg_masks)) w3 = (inr (fg1, ps, ns, hb, bg, bgl), w5) /\
    quiet w3 w10 /\ timesteps (obj w10) <> [] /\
    for_each (imap pair (timesteps (obj w10)))
      (fun '(i, t) lat =>
         sampling_step (masks_len masks')
           (default (default_bootstrap_steps self) (bootstrap_steps a))
           (default (default_boostrap_mix_steps self) (boostrap_mix_steps a))
           (default (default_bootstrap_leak_sensitivity self) (bootstrap_leak_sensitivity a))
           hb nbl wh noise (classifier_free gs) gs (guidance_rescale a) pe ppe
           (tiling a vsf h w_).1 (tiling a vsf h w_).2 fg1 i t lat) lat w10
      = (inr lat', w12) /\
    quiet w12 w'.
Proof.
  intros Hrun masks'. unfold generate in Hrun. fold masks' in Hrun.
  apply bind_inr in Hrun as ([] & w1 & Hprep & Hrun).
  apply bind_inr in Hrun as (self & w2 & Hself & Hrun).
  injection Hself as <- <-.
  apply bind_inr in Hrun as ([] & w3 & H3 & Hrun).
  apply (keeps_run quiet) in H3; [|kapply keeps_check_counts].
  apply bind_inr in Hrun as ([[fg g] sd] & w4 & H4 & Hrun).
  apply lift_inr in H4 as [H4 ->].
  apply bind_inr in Hrun as ([[[[[fg1 ps] ns] hb] bg] bgl] & w5 & H5 & Hrun).
  pose proof H5 as Hq5.
  apply (keeps_run quiet) in Hq5; [|kapply keeps_background_stage].
  apply bind_inr in Hrun as (wh & w6 & H6 & Hrun).
  apply (keeps_run quiet) in H6.
  2:{ destruct (_ <? _)%Z; [|kapply keeps_ret].
      kapply keeps_bind; [kapply keeps_get_white_background|intros x; kapply keeps_ret]. }
  apply bind_inr in Hrun as ([] & w7 & H7 & Hrun).
  apply (keeps_run quiet) in H7; [|kapply frame_emit; discriminate].
  apply bind_inr in Hrun as (enc & w8 & H8 & Hrun).
  apply (keeps_run quiet) in H8; [|kapply keeps_lift].
  apply bind_inr in Hrun as ([pe ppe] & w9 & H9 & Hrun).
  apply (keeps_run quiet) in H9; [|kapply keeps_prepare_embeds].
  apply bind_inr in Hrun as ([[noise lat] nbl] & w10 & H10 & Hrun).
  pose proof (init_latents_timesteps _ _ _ _ _ _ _ H10) as Hts.
  apply (keeps_run quiet) in H10; [|kapply keeps_init_latents].
  destruct (tiling a _ _ _) as [views tile_masks] eqn:Etile.
  apply bind_inr in Hrun as (self2 & w11 & Hself2 & Hrun).
  injection Hself2 as <- <-.
  apply bind_inr in Hrun as (lat' & w12 & Hloop & Hrun).
  apply (keeps_run quiet) in Hrun; [|kapply keeps_finish].
  exists w1, fg, g, sd, w3, fg1, ps, ns, hb, bg, bgl, w5, wh, pe, ppe, noise, lat, nbl,
    w10, lat', w12.
  cbn zeta. rewrite Etile. cbn [fst snd].
  refine (conj Hprep (conj H3 (conj H4 (conj H5 (conj _ (conj Hts (conj Hloop Hrun))))))).
  repeat (eapply frame_trans; [eassumption|]). apply frame_refl.
Qed.

(** ** Runs that cannot return *)

Lemma fails_raise {A : Type} (e : py_error) : fails (raise (A:=A) e).
Proof. by intros w. Qed.

Lemma fails_bind_l {A B : Type} (m : M A) (f : A -> M B) : fails m -> fails (m ≫= f).
Proof.
  intros Hm w. specialize (Hm w). unfold mbind, M_bind.
  by destruct (m w) as [[e|a] w1].
Qed.

Lemma fails_bind_r {A B : Type} (m : M A) (f : A -> M B) :
  (forall a, fails (f a)) -> fails (m ≫= f).
Proof.
  intros Hf w. unfold mbind, M_bind. destruct (m w) as [[e|a] w1]; [done|apply Hf].
Qed.

Lemma fails_for_each {A S : Type} (x : A) (xs : list A) (body : A -> S -> M S) (s : S) :
  (forall t, fails (body x t)) -> fails (for_each (x :: xs) body s).
Proof. intros Hb. simpl. apply fails_bind_l, Hb. Qed.

Lemma fails_run {A : Type} (m : M A) (w w' : world) (a : A) :
  fails m -> m w = (inr a, w') -> False.
Proof. intros Hm E. specialize (Hm w). by rewrite E in Hm. Qed.

Section guidance_rescale.
Context `{Collaborators}.
Variables (gs gr : Q).
Hypothesis rescale : 0 < gr.

Lemma fails_guide (np : list latent) : fails (guide true gs gr np).
Proof.
  unfold guide. destruct (drop _ np); [apply fails_raise|].
  apply fails_bind_r. intros x. apply Qltb_lt in rescale. rewrite rescale.
  apply fails_raise.
Qed.

Lemma fails_predict (pe ppe : list embed) (t : Q) (l : list latent) :
  fails (predict true gs gr pe ppe t l).
Proof.
  unfold predict. apply fails_bind_r. intros []. apply fails_bind_r. intros np.
  apply fails_guide.
Qed.

Lemma fails_sampling_step (nm : nat) (bs : Z) (bms bls : Q) (hb : bool)
    (nbl : list latent) (wh : option latent) (noise : latent)
    (pe ppe : list embed) (views : list view) (tm : list img) (fgs : list (list img))
    (i : nat) (t : Q) (lat : latent) :
  views <> [] ->
  fails (sampling_step nm bs bms bls hb nbl wh noise true gs gr pe ppe views tm fgs i t lat).
Proof.
  intros Hv. unfold sampling_step. apply fails_bind_r. intros fg.
  apply fails_bind_l. unfold accumulate.
  destruct views as [|v views']; [done|]. cbn [imap].
  apply fails_for_each. intros [value count_all]. unfold denoise_tile.
  apply fails_bind_r. intros [l b]. apply fails_bind_l. apply fails_predict.
Qed.
End guidance_rescale.

(** X15. With a guidance scale above 1 and a positive [guidance_rescale]
    (0.7 unless it is passed), a call with prompts on a canvas of one tile
    never returns a picture, whatever the networks do: it raises at the
    latest in the first denoising step. There, once the denoiser has
    returned its two predictions per latent of the doubled batch, the
    guidance rule looks up [rescale_noise_cfg], which is not defined, and
    the step raises [NameError] right after the first run of the
    denoiser. *)
Theorem guidance_rescale_fails `{Collaborators} (a : call_args) (w : world) (g : Q) :
  no_prompts (prompts a) = false ->
  guidance_scale a = Some g -> 1 < g -> 0 < guidance_rescale a ->
  (height a <= tile_size a)%nat -> (width a <= tile_size a)%nat ->
  returned (__call__ a w).1 = false /\
  forall (pe ppe : list embed) (t : Q) (l np : list latent) (w1 : world),
    l <> [] ->
    transformer (l ++ l) t pe ppe = inr np -> length np = (2 * length l)%nat ->
    predict (classifier_free g) g (guidance_rescale a) pe ppe t l w1
    = (inl (NameError "rescale_noise_cfg"),
       World (obj w1) (rng w1) (calls w1 ++ [EvTransformer])).
Proof.
  intros Hp Hg Hg1 Hr Hh Hw.
  replace (classifier_free g) with true by (symmetry; by apply Qltb_lt).
  split.
  - destruct (__call__ a w) as [[e|r] w'] eqn:Hrun; [done|exfalso].
    unfold __call__ in Hrun. rewrite Hp in Hrun.
    destruct (no_masks _); [done|].
    destruct (prompts a) as [p|]; [|done]. destruct (masks a) as [m|]; [|done].
    apply generate_inv in Hrun.
    destruct Hrun as (w1 & fg & gm & sd & w3 & fg1 & ps & ns & hb & bg & bgl & w5 & wh & pe
      & ppe & noise & lat & nbl & w10 & lat' & w12 & _ & _ & _ & _ & _ & Hts & Hloop & _).
    cbn zeta in Hloop. rewrite Hg in Hloop. cbn [default from_option id] in Hloop.
    replace (classifier_free g) with true in Hloop
      by (symmetry; by apply Qltb_lt).
    destruct (timesteps (obj w10)) as [|t0 ts]; [done|]. cbn [imap] in Hloop.
    eapply fails_run; [|exact Hloop].
    apply fails_for_each. intros l. apply fails_sampling_step; [done|].
    unfold tiling.
    replace (tile_size a <? height a)%nat with false by (symmetry; apply Nat.ltb_ge; lia).
    replace (tile_size a <? width a)%nat with false by (symmetry; apply Nat.ltb_ge; lia).
    done.
  - intros pe ppe t l np w1 Hl Hnp Hlen.
    unfold predict, guide, emit, lift, raise, mbind, M_bind. cbn -[Nat.div].
    rewrite Hnp. cbn -[Nat.div].
    replace ((length np + 1) / 2)%nat with (length l)
      by (rewrite Hlen; apply Nat.div_unique with 1%nat; lia).
    destruct (drop (length l) np) as [|c cs] eqn:Ed.
    { apply (f_equal length) in Ed. rewrite length_drop in Ed.
      destruct l; [done|]. cbn [length] in *. lia. }
    rewrite <- Ed.
    rewrite bcast2_same_length by (rewrite length_take, length_drop; lia). cbn.
    apply Qltb_lt in Hr. by rewrite Hr.
Qed.

Lemma guidance_rescale_fails_witness :
  (returned
     (__call__ (Sample.args (Some (PStr "a cat")) (Some (MaskTensor [Sample.upper]))
                  None None (Some 2))
        Toy.world0).1 = false /\
   forall (pe ppe : list embed) (t : Q) (l np : list latent) (w1 : world),
     l <> [] ->
     transformer (l ++ l) t pe ppe = inr np -> length np = (2 * length l)%nat ->
     predict (classifier_free 2) 2
       (guidance_rescale (Sample.args (Some (PStr "a cat"))
                            (Some (MaskTensor [Sample.upper])) None None (Some 2)))
       pe ppe t l w1
     = (inl (NameError "rescale_noise_cfg"),
        World (obj w1) (rng w1) (calls w1 ++ [EvTransformer])))
  /\ (__call__ (Sample.args (Some (PStr "a cat")) (Some (MaskTensor [Sample.upper]))
                 None None (Some 2))
        Toy.world0).1 = inl (NameError "rescale_noise_cfg").
Proof.
  split.
  - apply (guidance_rescale_fails
             (Sample.args (Some (PStr "a cat")) (Some (MaskTensor [Sample.upper]))
                None None (Some 2))
             Toy.world0 2).
    + reflexivity.
    + reflexivity.
    + reflexivity.
    + reflexivity.
    + simpl. lia.
    + simpl. lia.
  - vm_compute. reflexivity.
Defined.

(** ** A background prompt without a background image *)

Lemma bcast2_length_l {A B C : Type} (f : A -> B -> C) (a : list A) (b : list B)
    (r : list C) :
  bcast2 f a b = inr r -> (2 <= length a)%nat -> length r = length a.
Proof.
  unfold bcast2. destruct (length a =? length b)%nat eqn:E.
  - apply Nat.eqb_eq in E. intros [= <-] _. rewrite length_zip_with. lia.
  - destruct a as [|x [|x' a]]; simpl; try lia.
    destruct b as [|y [|y' b]]; try done. intros [= <-] _. simpl. by rewrite length_fmap.
Qed.

Lemma region_mismatch_tile `{Collaborators} (nm : nat) (bs : Z) (bms bls : Q)
    (nbl : list latent) (wh : option latent) (noise : latent) (cfg : bool) (gs gr : Q)
    (pe ppe : list embed) (tm : list img) (i : nat) (t : Q) (fg : list img)
    (lat : latent) (j : nat) (v : view) (acc acc' : latent * latent) (w w' : world) :
  length fg = S nm -> (2 <= nm)%nat ->
  denoise_tile nm bs bms bls false nbl wh noise cfg gs gr pe ppe tm i t fg lat j v acc w
    = (inr acc', w') -> False.
Proof.
  intros Hfg Hnm Hrun. unfold denoise_tile in Hrun. destruct acc as [value count_all].
  assert (forall (g : img -> img) (l : list latent),
            length l = nm ->
            bcast2 mask_mul (g <$> (crop_view v <$> fg)) l
            = inl (RuntimeError "The size of tensor a must match the size of tensor b"))
    as Hmis.
  { intros g l Hl. apply bcast2_mismatch; rewrite ?length_fmap; lia. }
  apply bind_inr in Hrun as ([latent1 bg1] & w1 & Hpart & Hrun).
  destruct (Z.of_nat i <? bs)%Z.
  - apply bind_inr in Hpart as (b & u1 & _ & Hpart).
    apply bind_inr in Hpart as (wh' & u2 & _ & Hpart).
    apply bind_inr in Hpart as (white_ & u3 & _ & Hpart).
    apply bind_inr in Hpart as (b' & u4 & _ & Hpart).
    apply bind_inr in Hpart as (outside & u5 & _ & Hpart).
    apply bind_inr in Hpart as (inside & u6 & Hin & _).
    apply lift_inr in Hin as [Hin _].
    specialize (Hmis id (replicate nm (crop_view v <$> lat))).
    rewrite list_fmap_id, length_replicate in Hmis. rewrite Hmis in Hin; done.
  - apply mret_inr in Hpart as [[= -> ->] ->].
    apply bind_inr in Hrun as (np & w3 & _ & Hrun).
    apply bind_inr in Hrun as (self & w4 & _ & Hrun).
    apply bind_inr in Hrun as (latent2 & w5 & Hstep & Hrun).
    apply lift_inr in Hstep as [Hstep _].
    assert (length latent2 = nm) as Hl2.
    { unfold scheduler_step in Hstep. destruct (sigmas self !! i); [|done].
      apply bcast2_length_l in Hstep; rewrite length_replicate in *; lia. }
    apply bind_inr in Hrun as ([latent3 fgm] & w6 & Hsame & Hrun).
    apply mret_inr in Hsame as [[= -> ->] ->].
    apply bind_inr in Hrun as (tile & w7 & _ & Hrun).
    apply bind_inr in Hrun as (weighted & w8 & Hw & _).
    apply lift_inr in Hw as [Hw _].
    rewrite (Hmis (fun m => imap2 Qmult m tile) latent2 Hl2) in Hw. done.
Qed.

(** X16. A background prompt without a background image makes the
    uncovered part of the canvas one more region, in front of the others,
    while the latents are still repeated once per mask. With two or more
    masks the batch sizes then differ by one and cannot be broadcast: the
    call never returns a picture. *)
Theorem background_prompt_region_fails `{Collaborators} (a : call_args) (w : world)
    (p : prompts_arg) (m : masks_arg) (bp : string) :
  prompts a = Some p -> no_prompts (prompts a) = false -> masks a = Some m ->
  num_inference_steps a = None ->
  background a = None -> background_prompt a = Some bp ->
  (2 <= masks_len m)%nat ->
  arg_fits (masks_len m) (mask_strengths a) -> arg_fits (masks_len m) (mask_stds a) ->
  (height a <= tile_size a)%nat -> (width a <= tile_size a)%nat ->
  leaves_background
    (process_mask (obj w) m (mask_strengths a) (mask_stds a) (height a) (width a)
       (use_boolean_mask a) (Some (timesteps (obj w))) (preprocess_mask_cover_alpha a))
    = true ->
  returned (__call__ a w).1 = false.
Proof.
  intros Hp Hnp Hm Hn Hbg Hbp Hlen Hs Hd Hh Hw Hunc.
  destruct (__call__ a w) as [[e|r] w'] eqn:Hrun; [done|exfalso].
  unfold __call__ in Hrun. rewrite Hnp, Hp, Hm in Hrun.
  destruct (no_masks _); [done|].
  apply generate_inv in Hrun.
  destruct Hrun as (w1 & fg & gm & sd & w3 & fg1 & ps & ns & hb & bg & bgl & w5 & wh & pe
    & ppe & noise & lat & nbl & w10 & lat' & w12 & Hprep & _ & Hpm & Hbs & _ & Hts
    & Hloop & _).
  rewrite Hn in Hprep. apply mret_inr in Hprep as [_ ->].
  replace (match m with MaskImage x => MaskList [x] | _ => m end) with m in *
    by (destruct m; simpl in *; (done || lia)).
  cbn zeta in Hpm, Hbs, Hloop.
  rewrite Hpm in Hunc. cbn in Hunc. unfold has_uncovered in Hunc.
  rewrite Hunc in Hbs. unfold background_stage in Hbs. rewrite Hbg, Hbp in Hbs.
  apply mret_inr in Hbs as [[= -> _ _ -> _ _] _].
  apply process_mask_inv in Hpm as (base & Hbase & ->); [|done..].
  destruct (timesteps (obj w10)) as [|t0 ts]; [done|]. cbn [imap for_each] in Hloop.
  apply bind_inr in Hloop as (lat1 & u1 & Hstep & _).
  unfold sampling_step in Hstep.
  apply bind_inr in Hstep as (fgm & u2 & Hfgm & Hstep).
  assert (length fgm = S (masks_len m)) as Hfl.
  { destruct (mapM _ _) as [f|] eqn:E; [|done].
    apply mret_inr in Hfgm as [-> _]. apply length_mapM in E. rewrite <- E. simpl.
    by rewrite length_fmap, Hbase. }
  apply bind_inr in Hstep as ([value count_all] & u3 & Hacc & _).
  unfold accumulate, tiling in Hacc.
  replace (tile_size a <? height a)%nat with false in Hacc
    by (symmetry; apply Nat.ltb_ge; lia).
  replace (tile_size a <? width a)%nat with false in Hacc
    by (symmetry; apply Nat.ltb_ge; lia).
  cbn [orb fst snd imap for_each] in Hacc.
  apply bind_inr in Hacc as (acc1 & u4 & Htile & _).
  eapply region_mismatch_tile; [exact Hfl| |exact Htile]. done.
Qed.

Lemma background_prompt_region_fails_witness :
  returned
    (__call__ (Sample.args (Some (PList ["a cat"; "a dog"]))
                 (Some (MaskTensor [Sample.upper; Sample.left])) None
                 (Some "a meadow") None)
       Toy.world0).1 = false.
Proof.
  apply (background_prompt_region_fails
           (Sample.args (Some (PList ["a cat"; "a dog"]))
              (Some (MaskTensor [Sample.upper; Sample.left])) None
              (Some "a meadow") None)
           Toy.world0 (PList ["a cat"; "a dog"]) (MaskTensor [Sample.upper; Sample.left])
           "a meadow");
    first [exact I | (simpl; lia) | (vm_compute; reflexivity)].
Defined.

(** ** The entry of the main routine *)

(** X17. The two simplest cases that are to sample without regions, no
    prompts but a background prompt and no background, and prompts but no
    masks ([None] or an empty list), look up [sample], which the module
    does not define: the call raises [NameError] and has touched nothing. *)
Theorem call_reaches_sample `{Collaborators} (a : call_args) (w : world) :
  (no_prompts (prompts a) = true /\ background a = None /\ is_Some (background_prompt a))
  \/ (no_prompts (prompts a) = false /\ no_masks (masks a) = true) ->
  __call__ a w = (inl (NameError "sample"), w).
Proof.
  unfold __call__. intros [(-> & -> & [bp ->])|(-> & ->)]; done.
Qed.

Lemma call_reaches_sample_witness :
  __call__ (Sample.args (Some (PStr "a cat")) (Some (MaskList [])) None None None)
    Toy.world0 = (inl (NameError "sample"), Toy.world0)
  /\ __call__ (Sample.args None None None (Some "a meadow") None) Toy.world0
     = (inl (NameError "sample"), Toy.world0).
Proof.
  split.
  - apply (call_reaches_sample
             (Sample.args (Some (PStr "a cat")) (Some (MaskList [])) None None None)
             Toy.world0).
    right. split; reflexivity.
  - apply (call_reaches_sample (Sample.args None None None (Some "a meadow") None)
             Toy.world0).
    left. split; [reflexivity|]. split; [reflexivity|]. by eexists.
Defined.

(** X18. The counts are checked before the masks are read: a call without
    [num_inference_steps] whose number of prompts is neither the number of
    masks nor 1, or whose number of negative prompts is neither the number
    of prompts nor 1, raises [AssertionError] with both counts in the
    message and has touched nothing. *)
Theorem call_counts_checked `{Collaborators} (a : call_args) (p : prompts_arg)
    (m : masks_arg) (w : world) :
  prompts a = Some p -> masks a = Some m ->
  no_prompts (prompts a) = false -> no_masks (masks a) = false ->
  num_inference_steps a = None ->
  let num_masks := masks_len m in
  let num_prompts := length (as_list p) in
  let num_nprompts := length (as_list (negative_prompts a)) in
  (num_prompts <> num_masks -> num_prompts <> 1%nat ->
   __call__ a w
   = (inl (AssertionError ("The number of prompts " +:+ pretty num_prompts +:+
                           " should match the number of masks " +:+ pretty num_masks
                           +:+ "!")), w)) /\
  (num_prompts = num_masks \/ num_prompts = 1%nat ->
   num_nprompts <> num_prompts -> num_nprompts <> 1%nat ->
   __call__ a w
   = (inl (AssertionError ("The number of negative prompts " +:+ pretty num_nprompts +:+
                           " should match the number of prompts " +:+ pretty num_prompts
                           +:+ "!")), w)).
Proof.
  intros Hp Hm Hnp Hnm Hn num_masks num_prompts num_nprompts.
  unfold __call__. rewrite Hnp, Hnm, Hp, Hm. split.
  - intros H1 H2. by apply prompt_count_rejected.
  - intros H1 H2 H3. by apply negative_count_rejected.
Qed.

Lemma call_counts_checked_witness :
  __call__ (Sample.args (Some (PList ["a"; "b"; "c"]))
              (Some (MaskTensor [Sample.upper; Sample.left])) None None None) Toy.world0
  = (inl (AssertionError
            "The number of prompts 3 should match the number of masks 2!"), Toy.world0).
Proof.
  apply (call_counts_checked
           (Sample.args (Some (PList ["a"; "b"; "c"]))
              (Some (MaskTensor [Sample.upper; Sample.left])) None None None)
           (PList ["a"; "b"; "c"]) (MaskTensor [Sample.upper; Sample.left]) Toy.world0);
    first [reflexivity | (simpl; lia)].
Defined.

(** X19. One prompt given as a string, one negative prompt given as a
    string and one mask given as an image are treated as lists of one: the
    call is the same as with the three put in lists. *)
Theorem call_singletons `{Collaborators} (a : call_args) (s n : string)
    (m : pil_image) (w : world) :
  s <> EmptyString ->
  __call__ (with_inputs (Some (PStr s)) (PStr n) (Some (MaskImage m)) a) w
  = __call__ (with_inputs (Some (PList [s])) (PList [n]) (Some (MaskList [m])) a) w.
Proof.
  intros Hs. unfold __call__. cbn [with_inputs prompts masks no_prompts no_masks].
  destruct s as [|c s]; [done|]. reflexivity.
Qed.

Lemma call_singletons_witness :
  __call__ (with_inputs (Some (PStr "a cat")) (PStr "blurry")
              (Some (MaskImage Sample.upper_image)) Regions.args) Toy.world0
  = __call__ (with_inputs (Some (PList ["a cat"])) (PList ["blurry"])
                (Some (MaskList [Sample.upper_image])) Regions.args) Toy.world0.
Proof.
  apply (call_singletons Regions.args "a cat" "blurry" Sample.upper_image Toy.world0).
  discriminate.
Defined.

(** ** The picture that is returned *)

Lemma affine_unit (x : Q) :
  0 <= clip (-1) 1 x * (1 # 2) + (1 # 2) /\ clip (-1) 1 x * (1 # 2) + (1 # 2) <= 1.
Proof.
  assert (-1 <= clip (-1) 1 x /\ clip (-1) 1 x <= 1) as [Hlo Hhi].
  { unfold clip. split.
    - apply Q.min_glb; [apply Q.le_max_r|done].
    - apply Q.le_min_r. }
  split.
  - apply Qle_trans with (-1 * (1 # 2) + (1 # 2)); [done|].
    apply Qplus_le_l. by apply Qmult_le_compat_r.
  - apply Qle_trans with (1 * (1 # 2) + (1 # 2)); [|done].
    apply Qplus_le_l. by apply Qmult_le_compat_r.
Qed.

Lemma entries_lmap1 (P : Q -> Prop) (f g : Q -> Q) (x : latent) :
  (forall v, P (g (f v))) -> Forall (Forall (Forall P)) (lmap1 g (lmap1 f x)).
Proof.
  intros HP. unfold lmap1, imap1. rewrite <- list_fmap_compose.
  apply Forall_fmap, Forall_forall. intros pl _. cbn. rewrite <- list_fmap_compose.
  apply Forall_fmap, Forall_forall. intros row _. cbn. rewrite <- list_fmap_compose.
  apply Forall_fmap, Forall_forall. intros v _. apply HP.
Qed.

Lemma eight_bit_level (v : Q) :
  0 <= v -> v <= 1 ->
  (0 <= Qfloor (v * 255) <= 255)%Z /\
  0 <= inject_Z (Qfloor (v * 255)) / 255 /\ inject_Z (Qfloor (v * 255)) / 255 <= 1.
Proof.
  intros Hlo Hhi.
  assert (Hk : (0 <= Qfloor (v * 255) <= 255)%Z).
  { split.
    - change 0%Z with (Qfloor (inject_Z 0)). rewrite Qfloor_Z.
      rewrite <- (Qfloor_Z 0). apply Qfloor_resp_le.
      apply Qle_trans with (0 * 255); [done|]. by apply Qmult_le_compat_r.
    - rewrite <- (Qfloor_Z 255). apply Qfloor_resp_le.
      apply Qle_trans with (1 * 255); [|done]. by apply Qmult_le_compat_r. }
  split; [exact Hk|]. split.
  - apply Qle_shift_div_l; [done|]. rewrite Qmult_0_l.
    destruct Hk as [Hk _]. rewrite Zle_Qle in Hk. exact Hk.
  - apply Qle_shift_div_r; [done|]. rewrite Qmult_1_l.
    destruct Hk as [_ Hk]. rewrite Zle_Qle in Hk. exact Hk.
Qed.

(** X20. When the result is not blended with a background (no background
    region is left, or [do_blend] is off) the last stage of the call hands
    the clipped tensor - the latent itself with [output_type='latent'],
    the decoded latent otherwise - to [T.ToPILImage()]. With one to four
    channels of one size that is not empty it returns a picture of the
    same number of channels whose values are 8-bit levels [k / 255] with
    [0 <= k <= 255], hence in [0, 1], whatever values the decoder gives,
    and with [output_type='latent'] the decoder is not run. With more than
    four channels (a latent of an SD3 transformer has 16) the call raises
    [ValueError] instead. *)
Theorem finish_unit_range `{Collaborators} (a : call_args) (has_background : bool)
    (lat : latent) (masks_g : list img) (background : option latent) (w : world) :
  has_background && do_blend a = false ->
  let raw := if String.eqb (output_type a) "latent" then lat
             else vae_decode (lmap1 (fun x => x / vae_scaling_factor + vae_shift_factor) lat) in
  ((1 <= length raw <= 4)%nat -> rectangular raw ->
   exists image w',
     finish a has_background lat masks_g background w = (inr (Some (PicImage image)), w') /\
     length image = length raw /\
     picture_in_unit (PicImage image) /\
     Forall eight_bit image /\
     (output_type a = "latent" -> w' = w))
  /\ ((4 < length raw)%nat ->
      exists w',
        finish a has_background lat masks_g background w
        = (inl (ValueError ("pic should not have > 4 channels, got " +:+
                            pretty (length raw) +:+ " channels.")), w')).
Proof.
  intros Hb raw.
  assert (Hlen : forall f, length (lmap1 f raw) = length raw).
  { intros f. unfold lmap1. by rewrite length_fmap. }
  assert (Hfin : exists w', (output_type a = "latent" -> w' = w) /\
            finish a has_background lat masks_g background w
            = (match to_pil_image
                       (lmap1 (fun x => clip (-1) 1 x * (1 # 2) + (1 # 2)) raw) with
               | inl e => inl e
               | inr image => inr (Some (PicImage image))
               end, w')).
  { subst raw. unfold finish, mbind, M_bind, lift. rewrite Hb.
    destruct (String.eqb (output_type a) "latent") eqn:E; cbn.
    - exists w. split; [done|]. by destruct (to_pil_image _).
    - exists (World (obj w) (rng w) (calls w ++ [EvDecode])).
      split; [intros Hl; by rewrite Hl in E|]. by destruct (to_pil_image _). }
  destruct Hfin as (w' & Hw & Hrun). split.
  - intros Hle _. unfold to_pil_image in Hrun. rewrite Hlen in Hrun.
    destruct (Nat.ltb_spec 4 (length raw)) as [?|_]; [lia|].
    eexists _, w'. split; [exact Hrun|]. split; [unfold lmap1; by rewrite !length_fmap|].
    split; [|split; [|exact Hw]].
    + apply entries_lmap1. intros v.
      by destruct (affine_unit v) as [H0 H1], (eight_bit_level _ H0 H1) as (_ & ? & ?).
    + apply entries_lmap1. intros v.
      destruct (affine_unit v) as [H0 H1], (eight_bit_level _ H0 H1) as (Hk & _).
      by eexists.
  - intros Hgt. unfold to_pil_image in Hrun. rewrite Hlen in Hrun.
    destruct (Nat.ltb_spec 4 (length raw)) as [_|?]; [|lia].
    by exists w'.
Qed.

Lemma finish_unit_range_witness :
  (exists image w',
     finish (Sample.args None None None None None) false [[[3; -5]]] [] None Toy.world0
       = (inr (Some (PicImage image)), w') /\
     length image
     = length (if String.eqb (output_type (Sample.args None None None None None)) "latent"
               then [[[3; -5]]]
               else vae_decode (lmap1 (fun x => x / vae_scaling_factor + vae_shift_factor)
                                  [[[3; -5]]])) /\
     picture_in_unit (PicImage image) /\
     Forall eight_bit image /\
     (output_type (Sample.args None None None None None) = "latent" -> w' = Toy.world0))
  /\ exists w',
       finish (with_output_type "latent" (Sample.args None None None None None)) false
         (replicate 16 [[3; -5]]) [] None Toy.world0
       = (inl (ValueError "pic should not have > 4 channels, got 16 channels."), w').
Proof.
  split.
  - apply (finish_unit_range (Sample.args None None None None None) false [[[3; -5]]] []
             None Toy.world0); [reflexivity|vm_compute; lia|].
    exists 8%nat, 16%nat. split; [lia|]. split; [lia|]. vm_compute. repeat constructor.
  - apply (finish_unit_range (with_output_type "latent" (Sample.args None None None None None))
             false (replicate 16 [[3; -5]]) [] None Toy.world0); [reflexivity|vm_compute; lia].
Defined.

(** ** Prompt strengths *)

Lemma lerp_rows (b : embed) (f : list embed) (q : Q) :
  lerp [b] f (replicate (length f) q)
  = inr ((fun fi => zip_with (fun x y => x + q * (y - x)) b fi) <$> f).
Proof.
  unfold lerp. rewrite bcast2_single_l. cbn.
  rewrite bcast2_same_length by (by rewrite length_fmap, length_replicate).
  f_equal. induction f as [|fi f IH]; [done|]. cbn. by rewrite IH.
Qed.

Lemma lerp_row_one (b fi : embed) (q : Q) :
  q == 1 -> length fi = length b ->
  Forall2 Qeq (zip_with (fun x y => x + q * (y - x)) b fi) fi.
Proof.
  intros Hq. revert fi. induction b as [|x b IH]; intros [|y fi] Hlen; simpl in *;
    try done.
  constructor; [rewrite Hq; ring|]. apply IH. lia.
Qed.

Lemma lerp_row_zero (b fi : embed) (q : Q) :
  q == 0 -> length fi = length b ->
  Forall2 Qeq (zip_with (fun x y => x + q * (y - x)) b fi) b.
Proof.
  intros Hq. revert fi. induction b as [|x b IH]; intros [|y fi] Hlen; simpl in *;
    try done.
  constructor; [rewrite Hq; ring|]. apply IH. lia.
Qed.

(** X21. In front of a background and without guidance, a prompt strength
    of 1 hands the embeddings of the foreground prompts to the denoiser as
    they were encoded, and a prompt strength of 0 replaces each of them by
    the embedding of the background prompt; the embedding of the background
    prompt itself is not among the rows that are returned. *)
Theorem prompt_strength_ends `{Collaborators} (self : pipeline) (masks : masks_arg)
    (nn : nat) (q : Q) (tok_b pool_b : embed) (tok_f pool_f : list embed) (w : world) :
  length pool_f = length tok_f ->
  Forall (fun e => length e = length tok_b) tok_f ->
  Forall (fun e => length e = length pool_b) pool_f ->
  exists pe ppe,
    prepare_embeds self true (Some (NumScalar q)) masks (length tok_f) (length tok_f) nn
      false (tok_b :: tok_f, None, pool_b :: pool_f, None) w = (inr (pe, ppe), w) /\
    length pe = length tok_f /\ length ppe = length tok_f /\
    (q == 1 -> Forall2 (Forall2 Qeq) pe tok_f /\ Forall2 (Forall2 Qeq) ppe pool_f) /\
    (q == 0 -> Forall (fun e => Forall2 Qeq e tok_b) pe
               /\ Forall (fun e => Forall2 Qeq e pool_b) ppe).
Proof.
  intros Hlen Htok Hpool. unfold prepare_embeds.
  cbn [take drop]. unfold mbind at 1 2 3 4 5 6 7, M_bind, mret at 1, M_ret, lift.
  rewrite lerp_rows. rewrite <- Hlen, lerp_rows, Hlen.
  rewrite Nat.ltb_irrefl. cbn.
  eexists _, _. split; [done|]. rewrite !length_fmap.
  split; [done|]. split; [done|]. split.
  - intros Hq. split.
    + apply Forall2_fmap_l, Forall_Forall2_diag.
      eapply Forall_impl; [exact Htok|]. intros e He. by apply lerp_row_one.
    + apply Forall2_fmap_l, Forall_Forall2_diag.
      eapply Forall_impl; [exact Hpool|]. intros e He. by apply lerp_row_one.
  - intros Hq. split.
    + apply Forall_fmap. eapply Forall_impl; [exact Htok|].
      intros e He. by apply lerp_row_zero.
    + apply Forall_fmap. eapply Forall_impl; [exact Hpool|].
      intros e He. by apply lerp_row_zero.
Qed.

Lemma prompt_strength_ends_witness :
  exists pe ppe,
    prepare_embeds Toy.smd true (Some (NumScalar 1)) (MaskTensor [Sample.upper; Sample.left])
      2 2 1 false ([9; 9] :: [[1; 2]; [3; 4]], None, [7] :: [[5]; [6]], None) Toy.world0
      = (inr (pe, ppe), Toy.world0) /\
    Forall2 (Forall2 Qeq) pe [[1; 2]; [3; 4]] /\ Forall2 (Forall2 Qeq) ppe [[5]; [6]].
Proof.
  destruct (prompt_strength_ends Toy.smd (MaskTensor [Sample.upper; Sample.left]) 1 1
              [9; 9] [7] [[1; 2]; [3; 4]] [[5]; [6]] Toy.world0)
    as (pe & ppe & Hrun & _ & _ & Hone & _).
  - reflexivity.
  - repeat constructor.
  - repeat constructor.
  - exists pe, ppe. split; [exact Hrun|]. apply Hone. reflexivity.
Defined.

(** ** One region *)

Lemma px_crop_full (h w : nat) (m : img) (y x : nat) :
  (y < h)%nat -> (x < w)%nat -> px (crop_view (0, h, 0, w)%nat m) y x = px m y x.
Proof.
  intros Hy Hx. unfold px, crop_view.
  rewrite list_lookup_fmap, lookup_take_lt, lookup_drop by lia. simpl.
  destruct (m !! y) as [row|]; [|done]. simpl.
  by rewrite lookup_take_lt, lookup_drop by lia.
Qed.

Lemma lpx_crop_full (h w : nat) (l : latent) (c y x : nat) :
  (y < h)%nat -> (x < w)%nat ->
  lpx (crop_view (0, h, 0, w)%nat <$> l) c y x = lpx l c y x.
Proof.
  intros Hy Hx. unfold lpx. rewrite list_lookup_fmap.
  destruct (l !! c) as [m|]; [|done]. simpl. by apply px_crop_full.
Qed.

Lemma px_ones (h w y x : nat) :
  (y < h)%nat -> (x < w)%nat -> px (ones_img h w) y x = Some 1.
Proof.
  intros Hy Hx. unfold px, ones_img. rewrite lookup_replicate_2 by done. simpl.
  by rewrite lookup_replicate_2.
Qed.

(** X22. One region on a canvas of one tile, past the bootstrapping steps:
    at every pixel where the mask of the step is positive, the merged
    latent of the step is the plain denoising step of the latent,
    [latent - noise_pred * sigma], whatever the positive value of the mask
    is. The denoiser is taken to return one prediction for the one latent
    it is given. *)
Theorem single_region_step `{Collaborators} (bs : Z) (bms bls : Q) (hb : bool)
    (nbl : list latent) (wh : option latent) (noise : latent) (gs gr : Q)
    (pe ppe : list embed) (h w i : nat) (t s : Q) (mask : img) (lat np : latent)
    (value count_all : latent) (u u' : world) :
  (bs <= Z.of_nat i)%Z ->
  sigmas (obj u) !! i = Some s ->
  transformer [crop_view (0, h, 0, w)%nat <$> lat] t pe ppe = inr [np] ->
  accumulate 1 bs bms bls hb nbl wh noise false gs gr pe ppe
    [(0, h, 0, w)%nat] [ones_img h w] i t [mask] lat u = (inr (value, count_all), u') ->
  forall c y x l n m,
    (y < h)%nat -> (x < w)%nat ->
    lpx lat c y x = Some l -> lpx np c y x = Some n -> px mask y x = Some m -> 0 < m ->
    exists v, lpx (merge value count_all) c y x = Some v /\ v == l - n * s.
Proof.
  intros Hbs Hs Hnp Hrun c y x l n m Hy Hx Hl Hn Hm Hpos.
  unfold accumulate in Hrun. cbn [imap for_each] in Hrun.
  apply bind_inr in Hrun as ([value' count'] & u1 & Htile & Hret).
  apply mret_inr in Hret as [[= -> ->] ->].
  unfold denoise_tile in Htile.
  replace (Z.of_nat i <? bs)%Z with false in Htile by (symmetry; apply Z.ltb_ge; lia).
  apply bind_inr in Htile as ([l1 b1] & u2 & H1 & Htile).
  apply mret_inr in H1 as [[= -> ->] ->].
  apply bind_inr in Htile as (nps & u3 & Hpred & Htile).
  unfold predict, guide in Hpred. cbn [replicate] in Hpred.
  apply bind_inr in Hpred as ([] & u4 & Hemit & Hpred).
  injection Hemit as <-.
  apply bind_inr in Hpred as (np' & u5 & Hlift & Hpred).
  apply lift_inr in Hlift as [Hlift ->]. rewrite Hnp in Hlift. injection Hlift as <-.
  apply mret_inr in Hpred as [-> ->].
  apply bind_inr in Htile as (self & u6 & Hself & Htile).
  injection Hself as <- <-. cbn [obj] in Htile.
  apply bind_inr in Htile as (latent2 & u7 & Hstep & Htile).
  apply lift_inr in Hstep as [Hstep ->].
  unfold scheduler_step in Hstep. rewrite Hs in Hstep.
  rewrite bcast2_same_length in Hstep by done. injection Hstep as <-.
  apply bind_inr in Htile as ([l3 fgm] & u8 & H3 & Htile).
  apply mret_inr in H3 as [[= -> ->] ->].
  cbn [lookup list_lookup] in Htile.
  apply bind_inr in Htile as (tile & u9 & Ht & Htile).
  apply mret_inr in Ht as [-> ->].
  apply bind_inr in Htile as (weighted & u10 & Hw & Htile).
  apply lift_inr in Hw as [Hw ->].
  rewrite bcast2_same_length in Hw by done. injection Hw as <-.
  apply mret_inr in Htile as [[= -> ->] _].
  cbn [zip_with fmap list_fmap lsum isum foldl].
  set (f := fun a b : Q => a - b * s).
  assert (lpx (lmap2 f (crop_view (0, h, 0, w)%nat <$> lat) np) c y x = Some (l - n * s))
    as Hden.
  { rewrite lpx_lmap2, lpx_crop_full, Hl, Hn by done. done. }
  set (den := lmap2 f _ np) in *.
  set (wt := imap2 Qmult _ _).
  assert (px wt y x = Some (m * 1)) as Hwt.
  { subst wt.
    change (px (imap2 Qmult (crop_view (0, h, 0, w)%nat mask)
                  (crop_view (0, h, 0, w)%nat (ones_img h w))) y x = Some (m * 1)).
    rewrite px_imap2, !px_crop_full, Hm, px_ones by done. done. }
  clearbody wt den.
  destruct (lat !! c) as [plane|] eqn:Ec; [|by unfold lpx in Hl; rewrite Ec in Hl].
  assert (px plane y x = Some l) as Hpl by (unfold lpx in Hl; by rewrite Ec in Hl).
  assert (in_view (0, h, 0, w)%nat y x = true) as Hin.
  { unfold in_view. simpl.
    destruct (Nat.ltb_spec y h); [|lia]. destruct (Nat.ltb_spec x w); [|lia]. done. }
  exists ((0 + m * 1 * (l - n * s)) / (0 + m * 1)). split.
  - unfold merge. rewrite lpx_lmap2. unfold lpx at 1 2.
    rewrite list_lookup_imap, list_lookup_fmap. unfold lmap1.
    rewrite !list_lookup_fmap, Ec. cbn [fmap option_fmap option_map mbind option_bind].
    rewrite !px_add_view, !px_imap1, Hpl, Hin. cbn.
    rewrite !Nat.sub_0_r, Hwt.
    replace (px (default [] (mask_mul wt den !! c)) y x)
      with (lpx (mask_mul wt den) c y x)
      by (unfold lpx; by destruct (mask_mul wt den !! c)).
    rewrite lpx_mask_mul, Hwt, Hden. cbn.
    replace (Qltb 0 (0 + m * 1)) with true; [done|].
    symmetry. apply Qltb_lt.
    assert (0 + m * 1 == m) as E by ring.
    destruct (Qlt_compat 0 0 (Qeq_refl 0) _ _ E) as [_ Hc]. by apply Hc.
  - field. intros E. assert (m == 0) as E' by (rewrite <- E; ring).
    destruct (Qlt_compat 0 0 (Qeq_refl 0) _ _ E') as [Hc _].
    by apply Hc, Qlt_irrefl in Hpos.
Qed.

Lemma single_region_step_witness :
  exists value count_all u' v,
    accumulate 1 0 1 (1 # 5) false [] None [] false 0 0 [[2]] [[2]]
      [(0, 1, 0, 2)%nat] [ones_img 1 2] 0 (750 # 1) [[[1 # 2; 0]]] [[[4; 6]]]
      Toy.world0 = (inr (value, count_all), u') /\
    lpx (merge value count_all) 0 0 0 = Some v /\ v == 4 - 8 * (3 # 4).
Proof.
  destruct (accumulate 1 0 1 (1 # 5) false [] None [] false 0 0 [[2]] [[2]]
              [(0, 1, 0, 2)%nat] [ones_img 1 2] 0 (750 # 1) [[[1 # 2; 0]]] [[[4; 6]]]
              Toy.world0) as [[e|[value count_all]] u'] eqn:Hrun;
    [vm_compute in Hrun; discriminate Hrun|].
  destruct (single_region_step 0 1 (1 # 5) false [] None [] 0 0 [[2]] [[2]] 1 2 0
              (750 # 1) (3 # 4) [[1 # 2; 0]] [[[4; 6]]] [[[8; 12]]] value count_all
              Toy.world0 u' ltac:(simpl; lia) eq_refl eq_refl Hrun
              0%nat 0%nat 0%nat 4 8 (1 # 2) ltac:(lia) ltac:(lia) eq_refl eq_refl eq_refl
              eq_refl) as (v & Hv & Hq).
  exists value, count_all, u', v. split; [reflexivity|]. split; [exact Hv|exact Hq].
Defined.

(** ** The weighted mean of the regions *)

Lemma foldl_Qplus_qsum (a : Q) (vs : list Q) : foldl Qplus a vs == a + qsum vs.
Proof.
  revert a. induction vs as [|v vs IH]; intros a; simpl.
  - ring.
  - rewrite IH. unfold qsum. ring.
Qed.

Lemma qsum_Forall2 (l k : list Q) : Forall2 Qeq l k -> qsum l == qsum k.
Proof.
  induction 1 as [|a b l k Hab _ IH]; simpl; [done|]. by rewrite Hab, IH.
Qed.

Lemma lpx_foldl_ladd_sum (xs : list latent) (vs : list Q) (acc : latent) (a : Q)
    (c y x : nat) :
  lpx acc c y x = Some a ->
  Forall2 (fun l v => lpx l c y x = Some v) xs vs ->
  lpx (foldl ladd acc xs) c y x = Some (foldl Qplus a vs).
Proof.
  intros Ha Hxs. revert acc a Ha.
  induction Hxs as [|l v xs vs Hl _ IH]; intros acc a Ha; simpl; [done|].
  apply IH. unfold ladd. by rewrite lpx_lmap2, Ha, Hl.
Qed.

Lemma px_foldl_iadd_sum (ms : list img) (vs : list Q) (acc : img) (a : Q) (y x : nat) :
  px acc y x = Some a ->
  Forall2 (fun m v => px m y x = Some v) ms vs ->
  px (foldl iadd acc ms) y x = Some (foldl Qplus a vs).
Proof.
  intros Ha Hms. revert acc a Ha.
  induction Hms as [|m v ms vs Hm _ IH]; intros acc a Ha; simpl; [done|].
  apply IH. unfold iadd. by rewrite px_imap2, Ha, Hm.
Qed.

Lemma lsum_px (xs : list latent) (vs : list Q) (c y x : nat) :
  xs <> [] -> Forall2 (fun l v => lpx l c y x = Some v) xs vs ->
  exists r, lpx (lsum xs) c y x = Some r /\ r == qsum vs.
Proof.
  intros Hne Hxs. destruct Hxs as [|l v xs vs Hl Hxs]; [done|]. simpl.
  eexists. split; [by apply lpx_foldl_ladd_sum|]. apply foldl_Qplus_qsum.
Qed.

Lemma isum_px (ms : list img) (vs : list Q) (y x : nat) :
  ms <> [] -> Forall2 (fun m v => px m y x = Some v) ms vs ->
  exists r, px (isum ms) y x = Some r /\ r == qsum vs.
Proof.
  intros Hne Hms. destruct Hms as [|m v ms vs Hm Hms]; [done|]. simpl.
  eexists. split; [by apply px_foldl_iadd_sum|]. apply foldl_Qplus_qsum.
Qed.

(** X23. Past the bootstrapping steps, on a canvas of one tile, the merged
    latent of a step is the mean of the denoised latents of the regions
    weighted by their masks: at a pixel where the masks of the step sum to
    a positive number it is
    sum_p mask_p * (latent - noise_pred_p * sigma) / sum_p mask_p.
    The denoiser is taken to return one prediction per latent it is
    given. *)
Theorem weighted_mean_step `{Collaborators} (nm : nat) (bs : Z) (bms bls : Q)
    (hb : bool) (nbl : list latent) (wh : option latent) (noise : latent) (gs gr : Q)
    (pe ppe : list embed) (h w i : nat) (t s : Q) (fg : list img) (lat : latent)
    (nps : list latent) (value count_all : latent) (u u' : world) :
  (bs <= Z.of_nat i)%Z ->
  sigmas (obj u) !! i = Some s ->
  transformer (replicate nm (crop_view (0, h, 0, w)%nat <$> lat)) t pe ppe = inr nps ->
  length nps = nm -> length fg = nm ->
  accumulate nm bs bms bls hb nbl wh noise false gs gr pe ppe
    [(0, h, 0, w)%nat] [ones_img h w] i t fg lat u = (inr (value, count_all), u') ->
  forall c y x l ms ns,
    (y < h)%nat -> (x < w)%nat -> lpx lat c y x = Some l ->
    Forall2 (fun mask m => px mask y x = Some m) fg ms ->
    Forall2 (fun np n => lpx np c y x = Some n) nps ns ->
    0 < qsum ms ->
    exists v, lpx (merge value count_all) c y x = Some v /\
              v == qsum (zip_with (fun m n => m * (l - n * s)) ms ns) / qsum ms.
Proof.
  intros Hbs Hs Hnp Hlnp Hlfg Hrun c y x l ms ns Hy Hx Hl Hms Hns Hpos.
  unfold accumulate in Hrun. cbn [imap for_each] in Hrun.
  apply bind_inr in Hrun as ([value' count'] & u1 & Htile & Hret).
  apply mret_inr in Hret as [[= -> ->] ->].
  unfold denoise_tile in Htile.
  replace (Z.of_nat i <? bs)%Z with false in Htile by (symmetry; apply Z.ltb_ge; lia).
  apply bind_inr in Htile as ([l1 b1] & u2 & H1 & Htile).
  apply mret_inr in H1 as [[= -> ->] ->].
  apply bind_inr in Htile as (nps' & u3 & Hpred & Htile).
  unfold predict, guide in Hpred.
  apply bind_inr in Hpred as ([] & u4 & Hemit & Hpred).
  injection Hemit as <-.
  apply bind_inr in Hpred as (np' & u5 & Hlift & Hpred).
  apply lift_inr in Hlift as [Hlift ->]. rewrite Hnp in Hlift. injection Hlift as <-.
  apply mret_inr in Hpred as [-> ->].
  apply bind_inr in Htile as (self & u6 & Hself & Htile).
  injection Hself as <- <-. cbn [obj] in Htile.
  apply bind_inr in Htile as (latent2 & u7 & Hstep & Htile).
  apply lift_inr in Hstep as [Hstep ->].
  unfold scheduler_step in Hstep. rewrite Hs in Hstep.
  rewrite bcast2_same_length in Hstep by (by rewrite length_replicate).
  injection Hstep as <-.
  apply bind_inr in Htile as ([l3 fgm] & u8 & H3 & Htile).
  apply mret_inr in H3 as [[= -> ->] ->].
  cbn [lookup list_lookup] in Htile.
  apply bind_inr in Htile as (tile & u9 & Ht & Htile).
  apply mret_inr in Ht as [-> ->].
  apply bind_inr in Htile as (weighted & u10 & Hw & Htile).
  apply lift_inr in Hw as [Hw ->].
  rewrite bcast2_same_length in Hw
    by (rewrite !length_fmap, length_zip_with, length_replicate; lia).
  injection Hw as <-.
  apply mret_inr in Htile as [[= -> ->] _].
  set (f := fun a b : Q => a - b * s) in *.
  set (croplat := crop_view (0, h, 0, w)%nat <$> lat) in *.
  set (tile := _ <$> take (h - 0) (drop 0 (ones_img h w))) in *.
  assert (px tile y x = Some 1) as Htl.
  { change (px (crop_view (0, h, 0, w)%nat (ones_img h w)) y x = Some 1).
    by rewrite px_crop_full, px_ones. }
  clearbody tile.
  set (wts := (fun m => imap2 Qmult m tile) <$> (crop_view (0, h, 0, w)%nat <$> fg)) in *.
  assert (Forall2 (fun m v => px m y x = Some v) wts ((fun m => m * 1) <$> ms)) as Hwts.
  { subst wts. rewrite <- list_fmap_compose. apply Forall2_fmap.
    eapply Forall2_impl; [exact Hms|]. intros mask m Hm. unfold compose.
    by rewrite px_imap2, px_crop_full, Hm, Htl by done. }
  assert (Forall2 (fun wl v => lpx wl c y x = Some v)
            (zip_with mask_mul wts (zip_with (lmap2 f) (replicate nm croplat) nps))
            (zip_with (fun m n => m * 1 * (l - n * s)) ms ns)) as Hwl.
  { clear Hnp Hpos Hwts. subst wts. revert nm nps ns Hns Hlnp Hlfg.
    induction Hms as [|mask m fg ms Hm Hms IH]; intros nm nps ns Hns Hlnp Hlfg.
    - simpl. constructor.
    - destruct Hns as [|np n nps ns Hn Hns]; [simpl in *; lia|].
      destruct nm as [|nm]; [done|]. simpl in Hlnp, Hlfg.
      cbn [fmap list_fmap zip_with replicate].
      constructor.
      + rewrite lpx_mask_mul.
        rewrite px_imap2, px_crop_full, Hm, Htl by done. cbn [mbind option_bind].
        subst croplat. by rewrite lpx_lmap2, lpx_crop_full, Hl, Hn by done.
      + apply IH; [done|lia|lia]. }
  assert (fg <> []) as Hne.
  { intros ->. apply Forall2_nil_inv_l in Hms as ->. by apply Qlt_irrefl in Hpos. }
  match type of Hwl with
  | Forall2 _ ?xs _ => assert (xs <> []) as Hne1
  end.
  { subst wts. destruct fg as [|m0 fg]; [done|].
    destruct nps as [|n0 nps]; [simpl in *; lia|]. destruct nm; [done|]. done. }
  destruct (lsum_px _ _ c y x Hne1 Hwl) as (sv & Hsv & Esv).
  assert (wts <> []) as Hne2 by (subst wts; by destruct fg).
  destruct (isum_px _ _ y x Hne2 Hwts) as (sc & Hsc & Esc).
  clearbody wts croplat.
  destruct (lat !! c) as [plane|] eqn:Ec; [|by unfold lpx in Hl; rewrite Ec in Hl].
  assert (px plane y x = Some l) as Hpl by (unfold lpx in Hl; by rewrite Ec in Hl).
  assert (in_view (0, h, 0, w)%nat y x = true) as Hin.
  { unfold in_view. simpl.
    destruct (Nat.ltb_spec y h); [|lia]. destruct (Nat.ltb_spec x w); [|lia]. done. }
  assert (qsum ((fun m => m * 1) <$> ms) == qsum ms) as Eone.
  { apply qsum_Forall2, Forall2_fmap_l, Forall_Forall2_diag, Forall_forall.
    intros m _. simpl. ring. }
  assert (qsum (zip_with (fun m n => m * 1 * (l - n * s)) ms ns)
          == qsum (zip_with (fun m n => m * (l - n * s)) ms ns)) as Etwo.
  { apply qsum_Forall2. clear. revert ns.
    induction ms as [|m ms IH]; intros [|n ns]; simpl; try constructor; [ring|apply IH]. }
  exists ((0 + sv) / (0 + sc)). split.
  - unfold merge. rewrite lpx_lmap2. unfold lpx at 1 2.
    rewrite list_lookup_imap, list_lookup_fmap. unfold lmap1.
    rewrite !list_lookup_fmap, Ec. cbn [fmap option_fmap option_map mbind option_bind].
    rewrite !px_add_view, !px_imap1, Hpl, Hin. cbn.
    rewrite !Nat.sub_0_r, Hsc.
    match goal with
    | |- context [px (default [] (?ws !! c)) y x] =>
        replace (px (default [] (ws !! c)) y x) with (lpx ws c y x)
          by (unfold lpx; by destruct (ws !! c))
    end.
    rewrite Hsv. cbn.
    replace (Qltb 0 (0 + sc)) with true; [done|].
    symmetry. apply Qltb_lt.
    assert (qsum ms == 0 + sc) as E by (rewrite Esc, Eone; ring).
    destruct (Qlt_compat 0 0 (Qeq_refl 0) _ _ E) as [Hc _]. by apply Hc.
  - rewrite !Qplus_0_l, Esv, Esc, Eone, Etwo. reflexivity.
Qed.

Lemma weighted_mean_step_witness :
  exists value count_all u' v,
    accumulate 2 0 1 (1 # 5) false [] None [] false 0 0 [[2]; [1]] [[2]; [1]]
      [(0, 1, 0, 2)%nat] [ones_img 1 2] 0 (750 # 1) [[[1 # 2; 0]]; [[1; 1]]] [[[4; 6]]]
      Toy.world0 = (inr (value, count_all), u') /\
    lpx (merge value count_all) 0 0 0 = Some v /\
    v == qsum (zip_with (fun m n => m * (4 - n * (3 # 4))) [1 # 2; 1] [8; 4])
         / qsum [1 # 2; 1].
Proof.
  destruct (accumulate 2 0 1 (1 # 5) false [] None [] false 0 0 [[2]; [1]] [[2]; [1]]
              [(0, 1, 0, 2)%nat] [ones_img 1 2] 0 (750 # 1) [[[1 # 2; 0]]; [[1; 1]]]
              [[[4; 6]]] Toy.world0) as [[e|[value count_all]] u'] eqn:Hrun;
    [vm_compute in Hrun; discriminate Hrun|].
  destruct (weighted_mean_step 2 0 1 (1 # 5) false [] None [] 0 0 [[2]; [1]] [[2]; [1]]
              1 2 0 (750 # 1) (3 # 4) [[[1 # 2; 0]]; [[1; 1]]] [[[4; 6]]]
              [[[[8; 12]]]; [[[4; 6]]]] value count_all Toy.world0 u'
              ltac:(simpl; lia) eq_refl eq_refl eq_refl eq_refl Hrun
              0%nat 0%nat 0%nat 4 [1 # 2; 1] [8; 4] ltac:(lia) ltac:(lia) eq_refl
              ltac:(repeat constructor) ltac:(repeat constructor) ltac:(reflexivity))
    as (v & Hv & Hq).
  exists value, count_all, u', v. split; [reflexivity|]. split; [exact Hv|exact Hq].
Defined.

(** ** The background of a step *)

Lemma clip_unit_high (x : Q) : 1 <= x -> clip 0 1 x == 1.
Proof.
  intros Hx. unfold clip. rewrite Q.max_l by (by apply Qle_trans with 1).
  by apply Q.min_r.
Qed.

Lemma clip_unit_low (x : Q) : x <= 0 -> clip 0 1 x == 0.
Proof.
  intros Hx. unfold clip. rewrite Q.max_r by done. by apply Q.min_l.
Qed.

(** X24. In front of a background, at the last step: where the weights of
    the regions sum to zero the latent that the step returns is the
    background latent, and where they sum to one or more it is the merged
    latent of the regions; in between it is the mix of the two in the
    proportion of the weight that is missing. *)
Theorem background_pixels `{Collaborators} (nm : nat) (bs : Z) (bms bls : Q)
    (nbl : list latent) (wh : option latent) (noise : latent) (cfg : bool) (gs gr : Q)
    (pe ppe : list embed) (views : list view) (tm : list img) (fgs : list (list img))
    (i : nat) (t : Q) (lat out : latent) (u u' : world) :
  (length (timesteps (obj u)) <= i + 1)%nat ->
  sampling_step nm bs bms bls true nbl wh noise cfg gs gr pe ppe views tm fgs i t lat u
    = (inr out, u') ->
  exists fg value count_all u1 nb,
    mapM (fun m => m !! i) fgs = Some fg /\
    accumulate nm bs bms bls true nbl wh noise cfg gs gr pe ppe views tm i t fg lat u
      = (inr (value, count_all), u1) /\
    nbl !! (i + 1)%nat = Some nb /\
    forall c y x k b v,
      lpx count_all c y x = Some k -> lpx nb c y x = Some b ->
      lpx (merge value count_all) c y x = Some v ->
      exists o, lpx out c y x = Some o /\
        o == (1 - clip 0 1 (1 - k)) * v + clip 0 1 (1 - k) * b /\
        (k == 0 -> o == b) /\ (1 <= k -> o == v).
Proof.
  intros Hlast Hrun. unfold sampling_step in Hrun.
  apply bind_inr in Hrun as (fg & u0 & Hfg & Hrun).
  destruct (mapM _ fgs) as [fg'|] eqn:Efg; [|done].
  apply mret_inr in Hfg as [-> ->].
  apply bind_inr in Hrun as ([value count_all] & u1 & Hacc & Hrun).
  apply bind_inr in Hrun as (lat1 & u2 & Hbg & Hrun).
  destruct (nbl !! (i + 1)%nat) as [nb|] eqn:Enb; [|done].
  apply mret_inr in Hbg as [-> ->].
  apply bind_inr in Hrun as (self & u3 & Hself & Hrun).
  injection Hself as <- <-.
  assert (same_settings u u1) as Hs.
  { eapply (keeps_run same_settings); [|exact Hacc]. kapply keeps_accumulate. }
  apply (f_equal timesteps) in Hs. cbn in Hs. rewrite Hs in Hrun.
  replace (i <? length (timesteps (obj u)) - 1)%nat with false in Hrun
    by (symmetry; apply Nat.ltb_ge; lia).
  apply mret_inr in Hrun as [-> _].
  exists fg', value, count_all, u1, nb. repeat split; try done.
  intros c y x k b v Hk Hb Hv.
  exists ((1 - clip 0 1 (1 - k)) * v + clip 0 1 (1 - k) * b).
  split; [|split; [done|split]].
  - unfold ladd. rewrite !lpx_lmap2, lpx_lmap1, Hk, Hv, Hb. done.
  - intros E. rewrite (clip_unit_high (1 - k)) by (rewrite E; done). ring.
  - intros Hge. rewrite (clip_unit_low (1 - k)); [ring|].
    apply (Qplus_le_l _ _ k). assert (1 - k + k == 1) as -> by ring.
    by rewrite Qplus_0_l.
Qed.

Lemma background_pixels_witness :
  exists out u' o,
    sampling_step 1 0 1 (1 # 5) true [[[[0; 0]]]; [[[0; 0]]]; [[[0; 0]]]; [[[0; 0]]]; [[[7; 9]]]]
      None [] false 0 0 [[2]] [[2]] [(0, 1, 0, 2)%nat] [ones_img 1 2]
      [[[[1; 1]]; [[1; 1]]; [[1; 1]]; [[1; 0]]]] 3 (225 # 1) [[[4; 6]]] Toy.world0
      = (inr out, u') /\
    lpx out 0 0 1 = Some o /\ o == 9.
Proof.
  destruct (sampling_step 1 0 1 (1 # 5) true
              [[[[0; 0]]]; [[[0; 0]]]; [[[0; 0]]]; [[[0; 0]]]; [[[7; 9]]]]
              None [] false 0 0 [[2]] [[2]] [(0, 1, 0, 2)%nat] [ones_img 1 2]
              [[[[1; 1]]; [[1; 1]]; [[1; 1]]; [[1; 0]]]] 3 (225 # 1) [[[4; 6]]] Toy.world0)
    as [[e|out] u'] eqn:Hrun; [vm_compute in Hrun; discriminate Hrun|].
  destruct (background_pixels 1 0 1 (1 # 5)
              [[[[0; 0]]]; [[[0; 0]]]; [[[0; 0]]]; [[[0; 0]]]; [[[7; 9]]]]
              None [] false 0 0 [[2]] [[2]] [(0, 1, 0, 2)%nat] [ones_img 1 2]
              [[[[1; 1]]; [[1; 1]]; [[1; 1]]; [[1; 0]]]] 3 (225 # 1) [[[4; 6]]] out
              Toy.world0 u' ltac:(simpl; lia) Hrun)
    as (fg & value & count_all & u1 & nb & Hfg & Hacc & Hnb & Hpix).
  vm_compute in Hfg. injection Hfg as <-.
  vm_compute in Hacc. injection Hacc as <- <- _.
  vm_compute in Hnb. injection Hnb as <-.
  destruct (Hpix 0%nat 0%nat 1%nat _ _ _ eq_refl eq_refl eq_refl) as (o & Ho & _ & Hzero & _).
  exists out, u', o. split; [reflexivity|]. split; [exact Ho|].
  apply Hzero. reflexivity.
Defined.

(** ** The noised backgrounds *)

Lemma scheduler_add_noise_given `{Collaborators} (lat noise : latent) (i : nat)
    (u : world) :
  scheduler_add_noise lat (Some noise) (Z.of_nat i) u
  = (inr (noised (obj u) lat noise i), u).
Proof.
  unfold scheduler_add_noise, noised, mbind, M_bind, get_self.
  replace (0 <=? Z.of_nat i)%Z with true by (symmetry; apply Z.leb_le; lia).
  rewrite andb_true_r, Nat2Z.id.
  destruct (Z.ltb_spec (Z.of_nat i) (Z.of_nat (length (sigmas (obj u))))) as [Hlt|Hge].
  - cbn. destruct (lookup_lt_is_Some_2 (sigmas (obj u)) i) as [s Hs]; [lia|].
    by rewrite Hs.
  - rewrite lookup_ge_None_2 by lia. done.
Qed.

Lemma noised_backgrounds_loop `{Collaborators} (b noise : latent) (is_ : list nat)
    (acc : list latent) (u : world) :
  for_each is_
    (fun i acc => x ← scheduler_add_noise b (Some noise) (Z.of_nat i); mret (acc ++ [x]))
    acc u
  = (inr (acc ++ (noised (obj u) b noise <$> is_)), u).
Proof.
  revert acc. induction is_ as [|i is_ IH]; intros acc; simpl.
  - by rewrite app_nil_r.
  - erewrite bind_run;
      [|erewrite bind_run; [|apply scheduler_add_noise_given]; reflexivity].
    rewrite IH. by rewrite <- app_assoc.
Qed.

(** X25. In front of a background, the latent initialization returns one
    noised copy of the background latent for every timestep, all made with
    the one noise it returns, followed by the clean background latent: the
    list has one entry more than there are timesteps, so that the lookup of
    entry [i + 1] in every step succeeds, and nothing of the pipeline is
    written. *)
Theorem noised_backgrounds `{Collaborators} (h w : nat) (b noise lat : latent)
    (nbl : list latent) (u u' : world) :
  init_latents h w true (Some b) u = (inr (noise, lat, nbl), u') ->
  obj u' = obj u /\
  length nbl = S (length (timesteps (obj u))) /\
  last nbl = Some b /\
  forall i, (i < length (timesteps (obj u)))%nat ->
    nbl !! i = Some (noised (obj u) b noise i).
Proof.
  intros Hrun. unfold init_latents in Hrun.
  apply bind_inr in Hrun as (self & u1 & Hself & Hrun). injection Hself as <- <-.
  apply bind_inr in Hrun as (k & u2 & Hk & Hrun). injection Hk as <- <-.
  apply bind_inr in Hrun as (t0 & u3 & Ht0 & Hrun).
  destruct (timesteps (obj u) !! 0%nat) as [t0'|]; [|done].
  apply mret_inr in Ht0 as [-> ->].
  apply bind_inr in Hrun as ([noise' lat'] & u4 & Hfirst & Hrun).
  assert (obj u4 = obj u) as Hobj.
  { rewrite andb_true_r in Hfirst. destruct (Qltb t0' 999).
    - apply bind_inr in Hfirst as (x & u5 & Hx & Hfirst).
      rewrite (scheduler_add_noise_given b _ 0) in Hx. injection Hx as _ <-.
      by apply mret_inr in Hfirst as [_ ->].
    - apply bind_inr in Hfirst as (k2 & u5 & Hk2 & Hfirst). injection Hk2 as _ <-.
      by apply mret_inr in Hfirst as [_ ->]. }
  apply bind_inr in Hrun as (nbl' & u6 & Hloop & Hrun).
  apply mret_inr in Hrun as [[= -> -> ->] ->].
  apply bind_inr in Hloop as (l & u7 & Hloop & Hret).
  rewrite noised_backgrounds_loop in Hloop. injection Hloop as <- <-.
  apply mret_inr in Hret as [-> ->]. cbn [app]. rewrite Hobj.
  split; [done|]. split; [|split].
  - rewrite length_app, length_fmap, length_seq. simpl. lia.
  - by rewrite last_snoc.
  - intros i Hi. rewrite lookup_app_l by (by rewrite length_fmap, length_seq).
    by rewrite list_lookup_fmap, lookup_seq_lt.
Qed.

Lemma noised_backgrounds_witness :
  exists noise lat nbl u',
    init_latents 1 2 true (Some [[[7; 9]]]) Toy.world0 = (inr (noise, lat, nbl), u') /\
    length nbl = 5%nat /\ last nbl = Some [[[7; 9]]] /\
    nbl !! 0%nat = Some (noised Toy.smd [[[7; 9]]] noise 0).
Proof.
  destruct (init_latents 1 2 true (Some [[[7; 9]]]) Toy.world0)
    as [[e|[[noise lat] nbl]] u'] eqn:Hrun; [vm_compute in Hrun; discriminate Hrun|].
  destruct (noised_backgrounds 1 2 [[[7; 9]]] noise lat nbl Toy.world0 u' Hrun)
    as (_ & Hlen & Hlast & Hi).
  exists noise, lat, nbl, u'. split; [reflexivity|]. split; [exact Hlen|].
  split; [exact Hlast|]. apply (Hi 0%nat). simpl. lia.
Defined.

(** ** Broadcasting the embeddings *)

(** X26. One prompt for several masks given as a tensor, without a
    background and without guidance: the embedding of the prompt is
    repeated once for every mask. *)
Theorem one_prompt_broadcast `{Collaborators} (self : pipeline) (t : list img)
    (ps : option num_arg) (nn : nat) (e pe : embed) (w : world) :
  (1 < length t)%nat ->
  prepare_embeds self false ps (MaskTensor t) (length t) 1 nn false
    ([e], None, [pe], None) w
  = (inr (replicate (length t) e, replicate (length t) pe), w).
Proof.
  intros Hlen. unfold prepare_embeds. cbn -[tile_rows Nat.ltb Nat.eqb].
  replace (1 <? length t)%nat with true by (symmetry; apply Nat.ltb_lt; lia).
  rewrite Nat.eqb_refl. unfold mbind, M_bind, mret, M_ret. cbn -[tile_rows].
  by rewrite !tile_rows_single.
Qed.

Lemma one_prompt_broadcast_witness :
  prepare_embeds Toy.smd false None (MaskTensor [Sample.upper; Sample.left]) 2 1 1 false
    ([[5]], None, [[6]], None) Toy.world0
  = (inr ([[5]; [5]], [[6]; [6]]), Toy.world0).
Proof.
  apply (one_prompt_broadcast Toy.smd [Sample.upper; Sample.left] None 1 [5] [6]
           Toy.world0).
  simpl. lia.
Defined.

(** X27. One negative prompt for several prompts, without a background and
    under guidance: the embedding of the negative prompt is repeated once
    for every prompt and put in front of the embeddings of the prompts, the
    unconditional half of the doubled batch first. *)
Theorem one_negative_broadcast `{Collaborators} (self : pipeline) (masks : masks_arg)
    (ps : option num_arg) (n pn : embed) (tok pool : list embed) (w : world) :
  (1 < length tok)%nat -> length pool = length tok ->
  prepare_embeds self false ps masks (length tok) (length tok) 1 true
    (tok, Some [n], pool, Some [pn]) w
  = (inr (replicate (length tok) n ++ tok, replicate (length tok) pn ++ pool), w).
Proof.
  intros Hlen Hpool. unfold prepare_embeds.
  replace (1 <? length tok)%nat with true by (symmetry; apply Nat.ltb_lt; lia).
  rewrite Nat.ltb_irrefl, Hpool. cbn -[tile_rows Nat.eqb].
  rewrite !Nat.eqb_refl. unfold mbind, M_bind, mret, M_ret. cbn -[tile_rows].
  by rewrite !tile_rows_single.
Qed.

Lemma one_negative_broadcast_witness :
  prepare_embeds Toy.smd false None (MaskTensor [Sample.upper; Sample.left]) 2 2 1 true
    ([[1]; [2]], Some [[0]], [[3]; [4]], Some [[9]]) Toy.world0
  = (inr ([[0]; [0]; [1]; [2]], [[9]; [9]; [3]; [4]]), Toy.world0).
Proof.
  apply (one_negative_broadcast Toy.smd (MaskTensor [Sample.upper; Sample.left]) None
           [0] [9] [[1]; [2]] [[3]; [4]] Toy.world0).
  - simpl. lia.
  - reflexivity.
Defined.
